(** * StringPipeline: the bounded queue, the stage workers and the pipeline

    A shallow embedding of the C sources of the string-processing pipeline:
    - [queue.c] / [queue.h]: the bounded ring-buffer queue;
    - the generated plugins ([build.sh], [plugins/lower.c]) and the older
      hand-written [plugins/test_upper.c];
    - [main.c] as generated by [build.sh]: reader, writer and assembler.

    Conventions.  A [size_t] is a [Z] whose arithmetic wraps at
    [SIZE_MAX + 1].  A [char*] slot of the ring is an [option]: [None] is the
    NULL pointer.  A C string is the list of its bytes before the
    terminator.  A call that would park on a condition variable yields
    [Wait]: the caller re-runs the waiting loop whenever it is woken. *)

From Stdlib Require Import ZArith Lia Ascii String.
From stdpp Require Import base option list numbers strings gmap.

Local Open Scope Z_scope.

(** ** queue.h: return codes *)

Definition QUEUE_SUCCESS : Z := 0.
Definition QUEUE_ERROR : Z := -1.
Definition QUEUE_SHUTDOWN : Z := -2.

(** [size_t] on the LP64 targets the build script compiles for. *)
Definition SIZE_MAX : Z := 18446744073709551615.
Definition size_wrap (z : Z) : Z := z mod (SIZE_MAX + 1).

(** ** queue.c *)

Section queue.
Context {A : Type}.

(** [queue_t] without its mutex and condition variables: every function
    below is one critical section of the C code. *)
Record queue_t : Type := mk_queue {
  buffer : list (option A);
  capacity : Z;
  size : Z;
  head : Z;
  tail : Z;
  shutdown : bool
}.

(** Outcome of a blocking call: parked on a condition variable, or
    returned [r] leaving the queue as [q]. *)
Inductive call (R : Type) : Type :=
| Wait
| Ret (r : R) (q : queue_t).
Global Arguments Wait {R}.
Global Arguments Ret {R} r q.

(** [buffer[i]]. *)
Definition slot_read (b : list (option A)) (i : Z) : option A :=
  default None (b !! Z.to_nat i).

(** [buffer[i] = p]. *)
Definition slot_write (b : list (option A)) (i : Z) (p : option A)
  : list (option A) :=
  <[Z.to_nat i := p]> b.

(** [queue_init]; [resources] tells whether [calloc] and the three pthread
    initialisers succeed. *)
Definition queue_init (cap : Z) (resources : bool) : option queue_t :=
  if cap =? 0 then None
  else if negb resources then None
  else Some {| buffer := replicate (Z.to_nat cap) None;
               capacity := cap; size := 0; head := 0; tail := 0;
               shutdown := false |}.

(** The tail of [queue_push], from the waiting loop on: this is what a
    pusher woken from [pthread_cond_wait] re-executes. *)
Definition queue_push_resume (strdup : A → option A) (q : queue_t) (str : A)
  : call Z :=
  if (capacity q <=? size q) && negb (shutdown q) then Wait
  else if shutdown q then Ret QUEUE_SHUTDOWN q
  else match strdup str with
       | None => Ret QUEUE_ERROR q
       | Some str_copy =>
           Ret QUEUE_SUCCESS
             {| buffer := slot_write (buffer q) (tail q) (Some str_copy);
                capacity := capacity q;
                size := size_wrap (size q + 1);
                head := head q;
                tail := size_wrap (tail q + 1) mod capacity q;
                shutdown := shutdown q |}
       end.

(** [queue_push]; [str = None] is a NULL argument. *)
Definition queue_push (strdup : A → option A) (q : queue_t) (str : option A)
  : call Z :=
  match str with
  | None => Ret QUEUE_ERROR q
  | Some s =>
      if shutdown q then Ret QUEUE_SHUTDOWN q
      else queue_push_resume strdup q s
  end.

(** A pusher parked in the waiting loop and woken in the successive states
    [seen] of the queue: at each wake-up it re-runs the loop, until it
    returns. *)
Fixpoint queue_push_woken (strdup : A → option A) (str : A)
  (seen : list queue_t) : call Z :=
  match seen with
  | [] => Wait
  | q :: later =>
      match queue_push_resume strdup q str with
      | Wait => queue_push_woken strdup str later
      | Ret r q' => Ret r q'
      end
  end.

(** [queue_pop] on a valid [queue] and a valid [out_str] (the return of -1
    on a NULL argument is in [queue_pop_args] below): the result carries
    the return code and [*out_str]. *)
Definition queue_pop (q : queue_t) : call (Z * option A) :=
  if (size q =? 0) && negb (shutdown q) then Wait
  else if shutdown q && (size q =? 0) then Ret (QUEUE_SHUTDOWN, None) q
  else Ret (QUEUE_SUCCESS, slot_read (buffer q) (head q))
         {| buffer := slot_write (buffer q) (head q) None;
            capacity := capacity q;
            size := size_wrap (size q - 1);
            head := size_wrap (head q + 1) mod capacity q;
            tail := tail q;
            shutdown := shutdown q |}.

(** [queue_shutdown]: sets the flag and broadcasts; returns 0. *)
Definition queue_shutdown (q : queue_t) : queue_t :=
  {| buffer := buffer q; capacity := capacity q; size := size q;
     head := head q; tail := tail q; shutdown := true |}.

Definition queue_is_full (q : queue_t) : bool :=
  (capacity q <=? size q) && negb (shutdown q).

Definition queue_is_empty (q : queue_t) : bool := size q =? 0.

Definition queue_size (q : queue_t) : Z := size q.

(** *** Abstraction: the ring read from [head], [size] slots long *)

Definition nth_slot (q : queue_t) (k : nat) : option A :=
  slot_read (buffer q) ((head q + Z.of_nat k) mod capacity q).

Definition contents (q : queue_t) : list (option A) :=
  nth_slot q <$> seq 0 (Z.to_nat (size q)).

(** Representation invariant of the ring. *)
Record queue_wf (q : queue_t) : Prop := {
  wf_capacity : 0 < capacity q ≤ SIZE_MAX;
  wf_buffer : length (buffer q) = Z.to_nat (capacity q);
  wf_size : 0 ≤ size q ≤ capacity q;
  wf_head : 0 ≤ head q < capacity q;
  wf_tail : tail q = (head q + size q) mod capacity q;
  wf_slots : ∀ k : nat, (Z.of_nat k < size q) → is_Some (nth_slot q k)
}.

End queue.

Global Arguments queue_t : clear implicits.
Global Arguments call : clear implicits.

(** ** C strings and the libc functions the sources call

    A [cstring] is the content of a NUL-terminated string: its bytes before
    the terminator.  The [<ctype.h>] functions are those of the "C" locale
    (the program never calls [setlocale]); [fgets] follows ISO C. *)

Abbreviation cstring := (list ascii) (only parsing).

Definition code (c : ascii) : Z := Z.of_N (N_of_ascii c).

(** Conversion of an [int] to [char] on assignment. *)
Definition to_char (z : Z) : ascii := ascii_of_N (Z.to_N (z mod 256)).

Definition NUL : ascii := "000"%char.
Definition NEWLINE : ascii := "010"%char.

Definition islower (c : Z) : bool := (97 <=? c) && (c <=? 122).
Definition isupper (c : Z) : bool := (65 <=? c) && (c <=? 90).
Definition isalpha (c : Z) : bool := islower c || isupper c.
Definition toupper (c : Z) : Z := if islower c then c - 32 else c.
Definition tolower (c : Z) : Z := if isupper c then c + 32 else c.
Definition isspace (c : Z) : bool := (c =? 32) || ((9 <=? c) && (c <=? 13)).

(** The string a [char*] into the byte block [mem] denotes: the bytes up to
    the first NUL. *)
Fixpoint c_str (mem : list ascii) : cstring :=
  match mem with
  | [] => []
  | c :: rest => if Ascii.eqb c NUL then [] else c :: c_str rest
  end.

(** Outcomes of the allocations one call performs: [mem k] tells whether
    its [k]-th allocation succeeds. *)
Definition alloc : Type := nat → bool.
Definition all_ok : alloc := λ _, true.

Definition strdup (ok : bool) (s : cstring) : option cstring :=
  if ok then Some s else None.

(** [fgets(line, n, stdin)]: at most [n - 1] bytes, up to and including the
    first newline; the result pairs the bytes stored with the rest of the
    stream. *)
Fixpoint fgets_bytes (k : nat) (input : list ascii) : list ascii * list ascii :=
  match k, input with
  | O, _ => ([], input)
  | S _, [] => ([], [])
  | S k', c :: rest =>
      if Ascii.eqb c NEWLINE then ([c], rest)
      else let '(l, r) := fgets_bytes k' rest in (c :: l, r)
  end.

Definition fgets (n : nat) (input : list ascii)
  : option (list ascii * list ascii) :=
  match input with
  | [] => None
  | _ :: _ => Some (fgets_bytes (n - 1) input)
  end.

(** ** The plugin transforms (build.sh, plugins/lower.c) *)

Definition transform_upper (mem : alloc) (input : cstring) : option cstring :=
  match strdup (mem 0%nat) input with
  | None => None
  | Some output =>
      Some ((λ c, to_char (toupper (code c))) <$> output)
  end.

Definition transform_lower (mem : alloc) (input : cstring) : option cstring :=
  match strdup (mem 0%nat) input with
  | None => None
  | Some output =>
      Some ((λ c, to_char (tolower (code c))) <$> output)
  end.

(** The swap loop of [reverse]: [n] iterations left, at index [i]. *)
Fixpoint reverse_loop (n i len : nat) (output : cstring) : cstring :=
  match n with
  | O => output
  | S n' =>
      let tmp := default NUL (output !! i) in
      let output1 := <[i := default NUL (output !! (len - 1 - i)%nat)]> output in
      let output2 := <[(len - 1 - i)%nat := tmp]> output1 in
      reverse_loop n' (S i) len output2
  end.

Definition transform_reverse (mem : alloc) (input : cstring) : option cstring :=
  match strdup (mem 0%nat) input with
  | None => None
  | Some output =>
      let len := length output in
      Some (reverse_loop (len / 2)%nat 0 len output)
  end.

(** [while ( *start && isspace( *start)) start++]: the offset reached. *)
Fixpoint trim_start (output : cstring) : nat :=
  match output with
  | [] => O
  | c :: rest => if isspace (code c) then S (trim_start rest) else O
  end.

(** [while (end > start && isspace( *end)) end--], offsets from [output]. *)
Fixpoint trim_end (fuel : nat) (output : cstring) (start e : Z) : Z :=
  match fuel with
  | O => e
  | S fuel' =>
      if (start <? e)
         && isspace (code (default NUL (output !! Z.to_nat e)))
      then trim_end fuel' output start (e - 1)
      else e
  end.

Definition transform_trim (mem : alloc) (input : cstring) : option cstring :=
  match strdup (mem 0%nat) input with
  | None => None
  | Some output =>
      let start := trim_start output in
      let e := trim_end (length output) output (Z.of_nat start)
                 (Z.of_nat (length output) - 1) in
      (* *(end + 1) = NUL *)
      let output1 := take (Z.to_nat (e + 1)) output in
      (* if (start != output) memmove(output, start, strlen(start) + 1) *)
      Some (if (start =? 0)%nat then output1 else drop start output1)
  end.

Definition PREFIX : cstring := list_ascii_of_string "PREFIX:".
Definition SUFFIX : cstring := list_ascii_of_string ":SUFFIX".

(** [prefix] and [suffix]: when the [malloc] of the longer block fails the
    copy is returned as it is. *)
Definition transform_prefix (mem : alloc) (input : cstring) : option cstring :=
  match strdup (mem 0%nat) input with
  | None => None
  | Some output =>
      Some (if mem 1%nat then PREFIX ++ output else output)
  end.

Definition transform_suffix (mem : alloc) (input : cstring) : option cstring :=
  match strdup (mem 0%nat) input with
  | None => None
  | Some output =>
      Some (if mem 1%nat then output ++ SUFFIX else output)
  end.

(** ** main.c: the input reader *)

Definition MAX_LINE_LENGTH : nat := 1024.
Definition QUEUE_CAPACITY : Z := 100.
Definition END_MARK : cstring := list_ascii_of_string "<END>".

(** The body of the reader's loop up to the comparison: the line buffer
    after [fgets], with a final newline overwritten by NUL. *)
Definition chomp (line : list ascii) : cstring :=
  let s := c_str line in
  let len := length s in
  if (0 <? len)%nat && Ascii.eqb (default NUL (s !! (len - 1)%nat)) NEWLINE
  then take (len - 1)%nat s
  else s.

(** [strcmp(a, b) == 0]. *)
Definition cstring_eqb (a b : cstring) : bool := bool_decide (a = b).


(** What the reader's loop asks of the first queue, blocking aside: the
    lines handed to [queue_push], and the final [queue_shutdown] if the
    sentinel is met.  Each iteration consumes at least one byte, so
    [S (length input)] iterations exhaust any input. *)
Inductive reader_call : Type :=
| CallPush (line : cstring)
| CallShutdown.

Fixpoint input_thread_loop (fuel : nat) (input : list ascii)
  : list reader_call :=
  match fuel with
  | O => []
  | S fuel' =>
      match fgets MAX_LINE_LENGTH input with
      | None => []
      | Some (chunk, rest) =>
          let line := chomp chunk in
          if cstring_eqb line END_MARK then [CallShutdown]
          else CallPush line :: input_thread_loop fuel' rest
      end
  end.

Definition input_thread_calls (input : list ascii) : list reader_call :=
  input_thread_loop (S (length input)) input.

(** ** Plugins and their worker threads *)

(** Which [process_thread] a plugin runs: the one [build.sh] generates for
    the six plugins (as in plugins/lower.c), or the one of
    plugins/test_upper.c. *)
Inductive plugin_kind : Type := Generated | TestUpper.

Record plugin : Type := mk_plugin {
  plugin_name : cstring;
  plugin_kind_of : plugin_kind;
  plugin_transform : alloc → cstring → option cstring
}.

Definition plugin_of (name : string)
  (f : alloc → cstring → option cstring) : plugin :=
  {| plugin_name := list_ascii_of_string name;
     plugin_kind_of := Generated;
     plugin_transform := f |}.

Definition upper_so : plugin := plugin_of "upper" transform_upper.
Definition lower_so : plugin := plugin_of "lower" transform_lower.
Definition reverse_so : plugin := plugin_of "reverse" transform_reverse.
Definition trim_so : plugin := plugin_of "trim" transform_trim.
Definition prefix_so : plugin := plugin_of "prefix" transform_prefix.
Definition suffix_so : plugin := plugin_of "suffix" transform_suffix.

(** plugins/test_upper.c upper-cases the popped string in place. *)
Definition test_upper_so : plugin :=
  {| plugin_name := list_ascii_of_string "test_upper";
     plugin_kind_of := TestUpper;
     plugin_transform :=
       λ _ str, Some ((λ c, to_char (toupper (code c))) <$> str) |}.

(** Program points of [process_thread]. *)
Inductive worker_pc : Type :=
| WLoop                                   (* while (!ctx->stop_requested) *)
| WPop                                    (* ret = queue_pop(ctx->input, &str) *)
| WCheck (ret : Z) (str : option cstring) (* the two ifs after the pop *)
| WShutdown                               (* queue_shutdown(ctx->output) *)
| WPush (transformed : cstring)           (* queue_push(ctx->output, ...) *)
| WReturn.                                (* return NULL *)

Record worker : Type := mk_worker {
  w_pc : worker_pc;
  stop_requested : bool
}.

(** Program points of [input_thread], [output_thread] and [main]. *)
Inductive reader_pc : Type :=
| RFgets                     (* while (fgets(line, sizeof(line), stdin)) *)
| RPush (line : cstring)     (* queue_push(input_queue, line) *)
| RShutdown                  (* queue_shutdown(input_queue); break *)
| RReturn.

Inductive writer_pc : Type :=
| OPop                       (* while (queue_pop(output_queue, &str) == 0) *)
| OReturn.

Inductive main_pc : Type :=
| MJoinInput                 (* pthread_join(input_tid, NULL) *)
| MJoinOutput                (* pthread_join(output_tid, NULL) *)
| MRequestStop (i : nat)     (* for: interface.request_stop(context) *)
| MDestroy (i : nat)         (* for: plugin_destroy: p->stop_requested = 1 *)
| MDestroyShutdown (i : nat) (*      queue_shutdown(p->input) *)
| MDestroyJoin (i : nat)     (*      pthread_join(p->thread, NULL) *)
| MCleanup                   (* queue_destroy of every queue, free *)
| MReturn (code : Z).

(** The process: the two standard streams, the [plugin_count + 1] queues
    and the threads.  [stdout] lists the arguments of the [%s\n] calls. *)
Record state : Type := mk_state {
  stdin : list ascii;
  stdout : list (option cstring);
  queues : list (queue_t cstring);
  workers : list worker;
  reader : reader_pc;
  writer : writer_pc;
  main : main_pc
}.

Inductive thread : Type :=
| Main
| Reader
| Writer
| Worker (i : nat).

Definition set_stdin (v : list ascii) (s : state) : state :=
  mk_state v (stdout s) (queues s) (workers s) (reader s) (writer s) (main s).
Definition set_stdout (v : list (option cstring)) (s : state) : state :=
  mk_state (stdin s) v (queues s) (workers s) (reader s) (writer s) (main s).
Definition set_queue (i : nat) (q : queue_t cstring) (s : state) : state :=
  mk_state (stdin s) (stdout s) (<[i := q]> (queues s)) (workers s)
    (reader s) (writer s) (main s).
Definition set_worker (i : nat) (w : worker) (s : state) : state :=
  mk_state (stdin s) (stdout s) (queues s) (<[i := w]> (workers s))
    (reader s) (writer s) (main s).
Definition set_reader (v : reader_pc) (s : state) : state :=
  mk_state (stdin s) (stdout s) (queues s) (workers s) v (writer s) (main s).
Definition set_writer (v : writer_pc) (s : state) : state :=
  mk_state (stdin s) (stdout s) (queues s) (workers s) (reader s) v (main s).
Definition set_main (v : main_pc) (s : state) : state :=
  mk_state (stdin s) (stdout s) (queues s) (workers s) (reader s) (writer s) v.

Definition goto (pc : worker_pc) (w : worker) : worker :=
  mk_worker pc (stop_requested w).

(** One step of [process_thread] of plugin [p], between the queues [qin]
    and [qout]: the worker's next state and the queues' ([None]: parked in
    [pthread_cond_wait], or returned). *)
Definition process_thread (p : plugin) (mem : alloc) (w : worker)
  (qin qout : queue_t cstring)
  : option (worker * queue_t cstring * queue_t cstring) :=
  match w_pc w with
  | WLoop =>
      Some (goto (if stop_requested w then WReturn else WPop) w, qin, qout)
  | WPop =>
      match queue_pop qin with
      | Wait => None
      | Ret (ret, str) qin' => Some (goto (WCheck ret str) w, qin', qout)
      end
  | WCheck ret str =>
      if (ret =? QUEUE_SHUTDOWN) || stop_requested w then
        (* if (str) free(str); *)
        match plugin_kind_of p with
        | Generated => Some (goto WShutdown w, qin, qout)
        | TestUpper => Some (goto WReturn w, qin, qout)
        end
      else
        match ret =? 0, str with
        | true, Some s =>
            match plugin_transform p mem s with
            | Some transformed => Some (goto (WPush transformed) w, qin, qout)
            | None => Some (goto WLoop w, qin, qout)
            end
        | _, _ => Some (goto WLoop w, qin, qout)
        end
  | WShutdown => Some (goto WReturn w, qin, queue_shutdown qout)
  | WPush transformed =>
      match queue_push (strdup (mem 0%nat)) qout (Some transformed) with
      | Wait => None
      | Ret _ qout' => Some (goto WLoop w, qin, qout')
      end
  | WReturn => None
  end.

(** One step of [input_thread] on the stream [input] and the first queue. *)
Definition input_thread (mem : alloc) (pc : reader_pc) (input : list ascii)
  (q : queue_t cstring) : option (reader_pc * list ascii * queue_t cstring) :=
  match pc with
  | RFgets =>
      match fgets MAX_LINE_LENGTH input with
      | None => Some (RReturn, input, q)
      | Some (chunk, rest) =>
          let line := chomp chunk in
          if cstring_eqb line END_MARK then Some (RShutdown, rest, q)
          else Some (RPush line, rest, q)
      end
  | RPush line =>
      match queue_push (strdup (mem 0%nat)) q (Some line) with
      | Wait => None
      | Ret _ q' => Some (RFgets, input, q')
      end
  | RShutdown => Some (RReturn, input, queue_shutdown q)
  | RReturn => None
  end.

(** One step of [output_thread]: a pop and, on success, the [printf]. *)
Definition output_thread (pc : writer_pc) (out : list (option cstring))
  (q : queue_t cstring)
  : option (writer_pc * list (option cstring) * queue_t cstring) :=
  match pc with
  | OPop =>
      match queue_pop q with
      | Wait => None
      | Ret (ret, str) q' =>
          if ret =? 0 then Some (OPop, out ++ [str], q')
          else Some (OReturn, out, q')
      end
  | OReturn => None
  end.

(** One step of [main] once the plugins are loaded and both I/O threads are
    created; a join is enabled when the joined thread has returned. *)
Definition main_thread (plugin_count : nat) (s : state) : option state :=
  match main s with
  | MJoinInput =>
      match reader s with
      | RReturn => Some (set_main MJoinOutput s)
      | _ => None
      end
  | MJoinOutput =>
      match writer s with
      | OReturn => Some (set_main (MRequestStop 0) s)
      | _ => None
      end
  | MRequestStop i =>
      if (i <? plugin_count)%nat then
        match workers s !! i with
        | Some w =>
            Some (set_main (MRequestStop (S i))
                    (set_worker i (mk_worker (w_pc w) true) s))
        | None => None
        end
      else Some (set_main (MDestroy 0) s)
  | MDestroy i =>
      if (i <? plugin_count)%nat then
        match workers s !! i with
        | Some w =>
            Some (set_main (MDestroyShutdown i)
                    (set_worker i (mk_worker (w_pc w) true) s))
        | None => None
        end
      else Some (set_main MCleanup s)
  | MDestroyShutdown i =>
      match queues s !! i with
      | Some q => Some (set_main (MDestroyJoin i) (set_queue i (queue_shutdown q) s))
      | None => None
      end
  | MDestroyJoin i =>
      match w_pc <$> workers s !! i with
      | Some WReturn => Some (set_main (MDestroy (S i)) s)
      | _ => None
      end
  | MCleanup => Some (set_main (MReturn 0) s)
  | MReturn _ => None
  end.

(** One atomic step of thread [t]; [None] when [t] is parked, has returned,
    or the process has exited. *)
Definition step (plugins : list plugin) (mem : alloc) (t : thread) (s : state)
  : option state :=
  match main s with
  | MReturn _ => None
  | _ =>
      match t with
      | Main => main_thread (length plugins) s
      | Reader =>
          match queues s !! 0%nat with
          | Some q =>
              match input_thread mem (reader s) (stdin s) q with
              | Some (pc, input, q') =>
                  Some (set_reader pc (set_stdin input (set_queue 0 q' s)))
              | None => None
              end
          | None => None
          end
      | Writer =>
          match queues s !! length plugins with
          | Some q =>
              match output_thread (writer s) (stdout s) q with
              | Some (pc, out, q') =>
                  Some (set_writer pc
                          (set_stdout out (set_queue (length plugins) q' s)))
              | None => None
              end
          | None => None
          end
      | Worker i =>
          match plugins !! i, workers s !! i, queues s !! i, queues s !! S i with
          | Some p, Some w, Some qin, Some qout =>
              match process_thread p mem w qin qout with
              | Some (w', qin', qout') =>
                  Some (set_worker i w'
                          (set_queue (S i) qout' (set_queue i qin' s)))
              | None => None
              end
          | _, _, _, _ => None
          end
      end
  end.

(** Executions under a scheduler: the threads in the order they move, each
    with the outcome of its allocations. *)
Fixpoint run (plugins : list plugin) (sched : list (thread * alloc))
  (s : state) : option state :=
  match sched with
  | [] => Some s
  | (t, mem) :: sched' =>
      match step plugins mem t s with
      | Some s' => run plugins sched' s'
      | None => None
      end
  end.

(** Executions in which no allocation fails. *)
Definition run_ok (plugins : list plugin) (sched : list thread) (s : state)
  : option state :=
  run plugins ((λ t, (t, all_ok)) <$> sched) s.

Definition banner (p : plugin) : cstring :=
  list_ascii_of_string "Loaded plugin: " ++ plugin_name p.

(** The process when [main] has loaded every plugin and created the two I/O
    threads.  While [main] loads, a worker already created can only reach
    its first pop and park there, which it may as well do afterwards; so the
    workers start at the head of their loops. *)
Definition start (plugins : list plugin) (input : list ascii) : state :=
  match plugins, queue_init QUEUE_CAPACITY true with
  | _ :: _, Some q =>
      {| stdin := input;
         stdout := (λ p, Some (banner p)) <$> plugins;
         queues := replicate (S (length plugins)) q;
         workers := replicate (length plugins) (mk_worker WLoop false);
         reader := RFgets;
         writer := OPop;
         main := MJoinInput |}
  | _, _ =>
      (* argc < 2, or a queue could not be initialised: return 1 *)
      {| stdin := input; stdout := []; queues := []; workers := [];
         reader := RReturn; writer := OReturn; main := MReturn 1 |}
  end.

(** The standard input of a well-formed session: the lines, each followed by
    a newline, then the sentinel line and whatever follows it. *)
Definition feed (lines : list cstring) (after : list ascii) : list ascii :=
  concat ((λ l, l ++ [NEWLINE]) <$> lines) ++ END_MARK ++ NEWLINE :: after.

(** The stages from the [j]-th on, applied in order to one line; a stage
    whose transform returns NULL drops the line. *)
Fixpoint chain (stages : list plugin) (x : cstring) : option cstring :=
  match stages with
  | [] => Some x
  | p :: stages' =>
      match plugin_transform p all_ok x with
      | Some y => chain stages' y
      | None => None
      end
  end.

(** ** Sequences of queue operations

    Every queue function is one critical section, so what one producer and
    one consumer do to a queue is a sequence of calls; a call that would
    block leaves the queue alone and is observed as such. *)

Section queue_runs.
Context {A : Type}.

Inductive op : Type :=
| Push (x : A) (copy_ok : bool)
| Pop
| Close.

Inductive obs : Type :=
| PushOk (x : A)
| PushClosed
| PushError
| PushBlocked
| PopOk (x : option A)
| PopEnd
| PopBlocked
| Closed.

Definition copy (ok : bool) (x : A) : option A :=
  if ok then Some x else None.

Definition queue_do (o : op) (q : queue_t A) : obs * queue_t A :=
  match o with
  | Push x ok =>
      match queue_push (copy ok) q (Some x) with
      | Wait => (PushBlocked, q)
      | Ret r q' =>
          (if r =? QUEUE_SUCCESS then PushOk x
           else if r =? QUEUE_SHUTDOWN then PushClosed
           else PushError, q')
      end
  | Pop =>
      match queue_pop q with
      | Wait => (PopBlocked, q)
      | Ret (r, out_str) q' =>
          (if r =? QUEUE_SUCCESS then PopOk out_str else PopEnd, q')
      end
  | Close => (Closed, queue_shutdown q)
  end.

Fixpoint queue_run (ops : list op) (q : queue_t A) : list obs * queue_t A :=
  match ops with
  | [] => ([], q)
  | o :: ops' =>
      let '(e, q') := queue_do o q in
      let '(es, q'') := queue_run ops' q' in
      (e :: es, q'')
  end.

(** The values the producer pushed with success, and those the consumer
    popped with success, in the order of the calls. *)
Definition pushed (es : list obs) : list (option A) :=
  omap (λ e, match e with PushOk x => Some (Some x) | _ => None end) es.

Definition popped (es : list obs) : list (option A) :=
  omap (λ e, match e with PopOk x => Some x | _ => None end) es.

End queue_runs.

Global Arguments op : clear implicits.
Global Arguments obs : clear implicits.

(** ** The buffer of the specification (section 4.2), as a list *)

Module Spec.
Section buffer.
Context {A : Type}.

Record buffer : Type := mk_buffer {
items : list (option A);
cap : Z;
closed : bool
}.

Definition empty (C : Z) : buffer :=
{| items := []; cap := C; closed := false |}.

(** push(item): closed on entry, or closed on wake: [closed]; full and
  open: wait; otherwise enqueue at the tail. *)
Definition push (x : A) (copy_ok : bool) (b : buffer) : obs A * buffer :=
if closed b then (PushClosed, b)
else if Z.of_nat (length (items b)) =? cap b then (PushBlocked, b)
else if copy_ok then
  (PushOk x, {| items := items b ++ [Some x]; cap := cap b;
                closed := closed b |})
else (PushError, b).

(** pop(): empty and open: wait; non-empty: dequeue the head; empty and
  closed: [end]. *)
Definition pop (b : buffer) : obs A * buffer :=
match items b with
| x :: rest =>
    (PopOk x, {| items := rest; cap := cap b; closed := closed b |})
| [] => if closed b then (PopEnd, b) else (PopBlocked, b)
end.

Definition close (b : buffer) : obs A * buffer :=
(Closed, {| items := items b; cap := cap b; closed := true |}).

Definition do (o : op A) (b : buffer) : obs A * buffer :=
match o with
| Push x ok => push x ok b
| Pop => pop b
| Close => close b
end.

Fixpoint run (ops : list (op A)) (b : buffer) : list (obs A) * buffer :=
match ops with
| [] => ([], b)
| o :: ops' =>
    let '(e, b') := do o b in
    let '(es, b'') := run ops' b' in
    (e :: es, b'')
end.

End buffer.
Global Arguments buffer : clear implicits.
End Spec.

(** The list buffer a ring stands for. *)
Definition abstract {A : Type} (q : queue_t A) : Spec.buffer A :=
  {| Spec.items := contents q; Spec.cap := capacity q;
     Spec.closed := shutdown q |}.

(** ** The queue over pointers: who owns which string

    Here a slot holds the address of a heap block; [h !! p] is the string
    stored at [p].  The allocator's answer to the [strdup] of [queue_push]
    is the argument [fresh]: [None] when it fails, else an unused address. *)

Module Mem.

Abbreviation heap := (gmap Z cstring) (only parsing).

(** [queue_push(queue, str)] on the heap [h]. *)
Definition push (h : gmap Z cstring) (q : queue_t Z) (str : Z)
  (fresh : option Z) : call Z Z * gmap Z cstring :=
  let r := queue_push (λ _, fresh) q
             (if str =? 0 then None else Some str) in
  (r,
   match r, fresh, h !! str with
   | Ret 0 _, Some p, Some s => <[p := s]> h
   | _, _, _ => h
   end).

(** [free(p)]. *)
Definition free (h : gmap Z cstring) (p : Z) : gmap Z cstring := delete p h.

(** The strings the queue holds. *)
Definition deref (h : gmap Z cstring) (q : queue_t Z)
  : list (option cstring) :=
  (λ slot, slot ≫= (h !!.)) <$> contents q.

End Mem.

(** ** Well-formed sessions, and what is in flight

    The vocabulary of the end-to-end argument.  A line the reader takes
    whole: no NUL, no newline, room for it and its newline in the line
    buffer, and not the sentinel. *)

Definition short_line (l : cstring) : Prop :=
  (NUL ∉ l) ∧ (NEWLINE ∉ l)
  ∧ (length l < MAX_LINE_LENGTH - 1)%nat ∧ l ≠ END_MARK.

Definition generated_only (plugins : list plugin) : Prop :=
  Forall (λ p, plugin_kind_of p = Generated) plugins.

(** What the stages from the [j]-th on make of a list of strings. *)
Definition flow (plugins : list plugin) (j : nat) (xs : list cstring)
  : list cstring :=
  omap (chain (drop j plugins)) xs.
Global Arguments flow : simpl never.

Definition qflow (plugins : list plugin) (j : nat) (q : queue_t cstring)
  : list cstring :=
  omap (λ slot, slot ≫= chain (drop j plugins)) (contents q).

(** The string a worker holds between its pop and its push. *)
Definition hand (plugins : list plugin) (i : nat) (pc : worker_pc)
  : list cstring :=
  match pc with
  | WCheck _ (Some x) => flow plugins i [x]
  | WPush t => flow plugins (S i) [t]
  | _ => []
  end.

Definition rhand (pc : reader_pc) : list cstring :=
  match pc with
  | RPush l => [l]
  | _ => []
  end.

Definition queue_flow (plugins : list plugin) (s : state) (j : nat)
  : list cstring :=
  from_option (qflow plugins j) [] (queues s !! j).

Definition hand_flow (plugins : list plugin) (s : state) (i : nat)
  : list cstring :=
  from_option (λ w, hand plugins i (w_pc w)) [] (workers s !! i).

(** The final form of everything between the first queue and the [n]-th,
    oldest first. *)
Fixpoint in_flight (plugins : list plugin) (s : state) (n : nat)
  : list cstring :=
  match n with
  | O => queue_flow plugins s 0
  | S i => queue_flow plugins s (S i) ++ hand_flow plugins s i
           ++ in_flight plugins s i
  end.

Definition closed_at (s : state) (k : nat) : Prop :=
  shutdown <$> queues s !! k = Some true.

Definition drained_at (s : state) (k : nat) : Prop :=
  ∃ q, queues s !! k = Some q ∧ shutdown q = true ∧ size q = 0.

Definition all_done (s : state) : Prop :=
  reader s = RReturn ∧ writer s = OReturn
  ∧ ∀ i w, workers s !! i = Some w → w_pc w = WReturn.

(** The shape every reachable state has. *)
Definition well_formed (plugins : list plugin) (s : state) : Prop :=
  length (queues s) = S (length plugins)
  ∧ length (workers s) = length plugins
  ∧ ∀ k q, queues s !! k = Some q → queue_wf q.

(** What holds of worker [i] while [main] waits for the I/O threads. *)
Definition worker_ok (s : state) (i : nat) (w : worker) : Prop :=
  stop_requested w = false
  ∧ match w_pc w with
    | WCheck ret str =>
        (ret = QUEUE_SUCCESS ∧ is_Some str)
        ∨ (ret = QUEUE_SHUTDOWN ∧ str = None ∧ drained_at s i)
    | WShutdown => drained_at s i
    | WReturn => drained_at s i ∧ closed_at s (S i)
    | _ => True
    end
  ∧ (closed_at s (S i) → w_pc w = WReturn).

(** What holds of the reader; [rem] are the lines still to read. *)
Definition reader_ok (after : list ascii) (s : state) (rem : list cstring)
  : Prop :=
  Forall short_line rem
  ∧ match reader s with
    | RFgets | RPush _ => stdin s = feed rem after
    | RShutdown | RReturn => rem = []
    end
  ∧ (closed_at s 0 ↔ reader s = RReturn).

(** The invariant while [main] waits for the reader and the writer. *)
Definition running (plugins : list plugin) (lines : list cstring)
  (after : list ascii) (s : state) : Prop :=
  ∃ out rem : list cstring,
    well_formed plugins s
    ∧ (main s = MJoinInput ∨ (main s = MJoinOutput ∧ reader s = RReturn))
    ∧ stdout s = Some <$> ((banner <$> plugins) ++ out)
    ∧ reader_ok after s rem
    ∧ out ++ in_flight plugins s (length plugins)
          ++ flow plugins 0 (rhand (reader s) ++ rem)
      = flow plugins 0 lines
    ∧ (∀ i w, workers s !! i = Some w → worker_ok s i w)
    ∧ (writer s = OReturn → drained_at s (length plugins)).

(** The invariant once both joins are through. *)
Definition winding_up (plugins : list plugin) (lines : list cstring)
  (s : state) : Prop :=
  well_formed plugins s
  ∧ all_done s
  ∧ stdout s = Some <$> ((banner <$> plugins) ++ flow plugins 0 lines)
  ∧ match main s with
    | MJoinInput | MJoinOutput => False
    | MRequestStop i | MDestroy i => (i ≤ length plugins)%nat
    | MDestroyShutdown i | MDestroyJoin i => (i < length plugins)%nat
    | MCleanup => True
    | MReturn code => code = 0
    end.

Definition invariant (plugins : list plugin) (lines : list cstring)
  (after : list ascii) (s : state) : Prop :=
  running plugins lines after s ∨ winding_up plugins lines s.

(** ** A measure of the work left *)

(** Steps still owed to a string that sits in queue [j] of [N + 1]. *)
Definition weight (N j : nat) : nat := 4 * (N - j) + 1.

Definition worker_rank (N i : nat) (pc : worker_pc) : nat :=
  match pc with
  | WLoop => 5
  | WPop => 4
  | WCheck ret _ => if ret =? QUEUE_SHUTDOWN then 3 else weight N (S i) + 7
  | WPush _ => weight N (S i) + 6
  | WShutdown => 1
  | WReturn => 0
  end.

Definition reader_rank (N : nat) (pc : reader_pc) : nat :=
  match pc with
  | RFgets => 2
  | RPush _ => weight N 0 + 3
  | RShutdown => 1
  | RReturn => 0
  end.

Definition writer_rank (pc : writer_pc) : nat :=
  match pc with
  | OPop => 1
  | OReturn => 0
  end.

Definition main_rank (N : nat) (pc : main_pc) : nat :=
  match pc with
  | MJoinInput => 4 * N + 6
  | MJoinOutput => 4 * N + 5
  | MRequestStop i => 3 * N + 4 + (N - i)
  | MDestroy i => 3 * (N - i) + 3
  | MDestroyShutdown i => 3 * (N - i) + 2
  | MDestroyJoin i => 3 * (N - i) + 1
  | MCleanup => 1
  | MReturn _ => 0
  end.

(** [f k x] summed over the elements [x] of a list, [k] their index. *)
Fixpoint sum_from {X : Type} (f : nat → X → nat) (k : nat) (l : list X) : nat :=
  match l with
  | [] => 0
  | x :: l' => f k x + sum_from f (S k) l'
  end.

Definition measure (plugins : list plugin) (s : state) : nat :=
  let N := length plugins in
  main_rank N (main s) + reader_rank N (reader s) + writer_rank (writer s)
  + (weight N 0 + 2) * length (stdin s)
  + sum_from (λ i w, worker_rank N i (w_pc w)) 0 (workers s)
  + sum_from (λ j q, (weight N j * Z.to_nat (size q))%nat) 0 (queues s).


(** * The rest of the code

    What the sections above leave out of the files they embed:
    [queue_destroy] and the heap, the transforms byte by byte, one stage on
    its own, the [main] of [main_backup.c], and the barrier of the tests. *)

(** ** queue.c: [queue_push] and [queue_pop] on their C arguments

    [queue_push] and [queue_pop] above are the two functions on a valid
    [queue_t*] and a valid [out_str], which is how every caller under
    [src/] calls them.  Here they are with the test each starts with,
    [if (!queue || !str)] and [if (!queue || !out_str)], which returns -1:
    [None] is a NULL pointer, [out_str = Some v] the address of a cell that
    holds [v].  [errno] is not modelled, here or above. *)

(** Outcome of a call that may have been given no queue: parked on a
    condition variable, or returned [r] leaving what [queue] points to, if
    anything, as [queue]. *)
Inductive outcome (A R : Type) : Type :=
| Parked
| Returned (r : R) (queue : option (queue_t A)).
Global Arguments Parked {A R}.
Global Arguments Returned {A R} r queue.

Definition queue_push_args {A : Type} (strdup : A → option A)
  (queue : option (queue_t A)) (str : option A) : outcome A Z :=
  match queue with
  | None => Returned (-1) None
  | Some q =>
      match queue_push strdup q str with
      | Wait => Parked
      | Ret r q' => Returned r (Some q')
      end
  end.

(** The result carries the return code and the cell behind [out_str] as
    the call leaves it. *)
Definition queue_pop_args {A : Type} (queue : option (queue_t A))
  (out_str : option (option A)) : outcome A (Z * option (option A)) :=
  match queue, out_str with
  | Some q, Some _ =>
      match queue_pop q with
      | Wait => Parked
      | Ret (r, item) q' => Returned (r, Some item) (Some q')
      end
  | _, _ => Returned (-1, out_str) queue
  end.

(** ** queue_destroy, and the blocks a queue owns *)

(** [free(p)]: nothing on NULL; undefined (here [None]) on an address that
    is not a live block. *)
Definition free_block (h : gmap Z cstring) (p : option Z)
  : option (gmap Z cstring) :=
  match p with
  | None => Some h
  | Some a =>
      match h !! a with
      | Some _ => Some (Mem.free h a)
      | None => None
      end
  end.

(** The loop of [queue_destroy]: [while (queue->size > 0)], at most [n]
    turns. *)
Fixpoint queue_destroy_loop (n : nat) (h : gmap Z cstring) (q : queue_t Z)
  : option (gmap Z cstring * queue_t Z) :=
  match n with
  | O => Some (h, q)
  | S n' =>
      if 0 <? size q then
        match free_block h (slot_read (buffer q) (head q)) with
        | Some h' =>
            queue_destroy_loop n' h'
              {| buffer := slot_write (buffer q) (head q) None;
                 capacity := capacity q;
                 size := size_wrap (size q - 1);
                 head := size_wrap (head q + 1) mod capacity q;
                 tail := tail q;
                 shutdown := shutdown q |}
        | None => None
        end
      else Some (h, q)
  end.

(** [queue_destroy]: each turn of the loop takes one off [size], so [size]
    turns are all it can make; then the slot array is released and
    [buffer] set to NULL. *)
Definition queue_destroy (h : gmap Z cstring) (q : queue_t Z)
  : option (gmap Z cstring * queue_t Z) :=
  match queue_destroy_loop (Z.to_nat (size q)) h q with
  | Some (h', q') =>
      Some (h', {| buffer := []; capacity := capacity q'; size := size q';
                   head := head q'; tail := tail q';
                   shutdown := shutdown q' |})
  | None => None
  end.

(** The addresses a queue holds, oldest first. *)
Definition held (q : queue_t Z) : list Z := omap id (contents q).

(** What a producer and a consumer do to a queue of heap strings: a push of
    the string at [str], the allocator answering its [strdup] with [fresh];
    a pop whose caller releases what it got ([if (ret == 0 && item)
    free(item)]); a shutdown. *)
Inductive mem_op : Type :=
| MemPush (str : Z) (fresh : option Z)
| MemPopFree
| MemShutdown.

Definition mem_do (o : mem_op) (h : gmap Z cstring) (q : queue_t Z)
  : option (gmap Z cstring * queue_t Z) :=
  match o with
  | MemPush str fresh =>
      match Mem.push h q str fresh with
      | (Wait, h') => Some (h', q)
      | (Ret _ q', h') => Some (h', q')
      end
  | MemPopFree =>
      match queue_pop q with
      | Wait => Some (h, q)
      | Ret (ret, item) q' =>
          if ret =? 0 then
            match free_block h item with
            | Some h' => Some (h', q')
            | None => None
            end
          else Some (h, q')
      end
  | MemShutdown => Some (h, queue_shutdown q)
  end.

Fixpoint mem_run (ops : list mem_op) (h : gmap Z cstring) (q : queue_t Z)
  : option (gmap Z cstring * queue_t Z) :=
  match ops with
  | [] => Some (h, q)
  | o :: ops' =>
      match mem_do o h q with
      | Some (h', q') => mem_run ops' h' q'
      | None => None
      end
  end.

(** What the callers and the allocator owe: a pushed pointer is NULL or a
    live string, and [strdup] answers NULL or the address of a block that
    was not in use. *)
Definition mem_op_ok (o : mem_op) (h : gmap Z cstring) : Prop :=
  match o with
  | MemPush str fresh =>
      (str = 0 ∨ is_Some (h !! str))
      ∧ match fresh with
        | Some p => h !! p = None
        | None => True
        end
  | _ => True
  end.

Fixpoint mem_ops_ok (ops : list mem_op) (h : gmap Z cstring) (q : queue_t Z)
  : Prop :=
  match ops with
  | [] => True
  | o :: ops' =>
      mem_op_ok o h
      ∧ match mem_do o h q with
        | Some (h', q') => mem_ops_ok ops' h' q'
        | None => True
        end
  end.

(** The blocks of the heap [h] that are not in [h0] are exactly the copies
    the queue holds, each once. *)
Definition owns (h0 h : gmap Z cstring) (q : queue_t Z) : Prop :=
  queue_wf q ∧ NoDup (held q)
  ∧ (∀ p, p ∈ held q → h0 !! p = None ∧ is_Some (h !! p))
  ∧ (∀ p, p ∉ held q → h !! p = h0 !! p).

(** ** The case folds, byte by byte *)

Definition fold_upper (c : ascii) : ascii := to_char (toupper (code c)).

Definition fold_lower (c : ascii) : ascii := to_char (tolower (code c)).

(** White space, as [isspace] sees it. *)
Definition space (c : ascii) : Prop := isspace (code c) = true.

(** ** What every execution of the process keeps *)

(** What the shutdown flags and the threads have to do with each other in
    any execution: a queue is closed only once the one before it is, a
    worker that has seen the end of its input or a stop request has a
    closed input queue, the writer returns on a closed queue only, and
    [main] gets past its joins only when every queue is closed. *)
Definition propagation (plugins : list plugin) (s : state) : Prop :=
  (∀ k, closed_at s (S k) → closed_at s k)
  ∧ (∀ i w, workers s !! i = Some w →
       stop_requested w = true ∨ w_pc w = WShutdown ∨ w_pc w = WReturn
       ∨ (∃ str, w_pc w = WCheck QUEUE_SHUTDOWN str) →
       closed_at s i)
  ∧ (writer s = OReturn → closed_at s (length plugins))
  ∧ (reader s = RReturn → closed_at s 0 ∨ stdin s = [])
  ∧ match main s with
    | MJoinInput | MJoinOutput => True
    | _ => ∀ k, (k ≤ length plugins)%nat → closed_at s k
    end.

(** The reader has not met the sentinel and will not meet it. *)
Definition no_sentinel (s : state) : Prop :=
  reader s ≠ RShutdown
  ∧ (reader s = RReturn → stdin s = [])
  ∧ (CallShutdown ∉ input_thread_calls (stdin s))
  ∧ ¬ closed_at s 0.

(** ** One stage on its own *)

(** [n] steps of one worker on its own, between its two queues. *)
Fixpoint worker_alone (n : nat) (p : plugin) (mem : alloc) (w : worker)
  (qin qout : queue_t cstring)
  : option (worker * queue_t cstring * queue_t cstring) :=
  match n with
  | O => Some (w, qin, qout)
  | S n' =>
      match process_thread p mem w qin qout with
      | Some (w', qin', qout') => worker_alone n' p mem w' qin' qout'
      | None => None
      end
  end.

Definition set_stage (i : nat) (w : worker) (qin qout : queue_t cstring)
  (s : state) : state :=
  set_worker i w (set_queue (S i) qout (set_queue i qin s)).

(** ** main_backup.c: the older assembler

    [main_backup.c] has the reader, the writer and the loading of the
    plugins of [main.c]; what differs is [main] once the I/O threads run.
    Its program points: *)
Inductive backup_pc : Type :=
| BJoinInput                 (* pthread_join(input_tid, NULL) *)
| BShutdown (i : nat)        (* for (i <= plugin_count): queue_shutdown(&queues[i]) *)
| BRequestStop (i : nat)     (* for: interface.request_stop(context) *)
| BDestroy (i : nat)         (* for: plugin_destroy: p->stop_requested = 1 *)
| BDestroyShutdown (i : nat) (*      queue_shutdown(p->input) *)
| BDestroyJoin (i : nat)     (*      pthread_join(p->thread, NULL) *)
| BJoinOutput                (* pthread_join(output_tid, NULL) *)
| BCleanup                   (* queue_destroy of every queue, free *)
| BReturn (code : Z).

(** The process of [main_backup.c]: where its [main] stands, and the
    streams, queues and other threads as in [state] (whose [main] field is
    left at its first value: this [main] is not the one it describes). *)
Record backup_state : Type := mk_backup {
  b_pc : backup_pc;
  b_proc : state
}.

(** One step of the [main] of [main_backup.c]. *)
Definition main_backup (plugin_count : nat) (pc : backup_pc) (s : state)
  : option (backup_pc * state) :=
  match pc with
  | BJoinInput =>
      match reader s with
      | RReturn => Some (BShutdown 0, s)
      | _ => None
      end
  | BShutdown i =>
      if (i <=? plugin_count)%nat then
        match queues s !! i with
        | Some q => Some (BShutdown (S i), set_queue i (queue_shutdown q) s)
        | None => None
        end
      else Some (BRequestStop 0, s)
  | BRequestStop i =>
      if (i <? plugin_count)%nat then
        match workers s !! i with
        | Some w =>
            Some (BRequestStop (S i), set_worker i (mk_worker (w_pc w) true) s)
        | None => None
        end
      else Some (BDestroy 0, s)
  | BDestroy i =>
      if (i <? plugin_count)%nat then
        match workers s !! i with
        | Some w =>
            Some (BDestroyShutdown i, set_worker i (mk_worker (w_pc w) true) s)
        | None => None
        end
      else Some (BJoinOutput, s)
  | BDestroyShutdown i =>
      match queues s !! i with
      | Some q => Some (BDestroyJoin i, set_queue i (queue_shutdown q) s)
      | None => None
      end
  | BDestroyJoin i =>
      match w_pc <$> workers s !! i with
      | Some WReturn => Some (BDestroy (S i), s)
      | _ => None
      end
  | BJoinOutput =>
      match writer s with
      | OReturn => Some (BCleanup, s)
      | _ => None
      end
  | BCleanup => Some (BReturn 0, s)
  | BReturn _ => None
  end.

Definition backup_step (plugins : list plugin) (mem : alloc) (t : thread)
  (b : backup_state) : option backup_state :=
  match b_pc b with
  | BReturn _ => None
  | pc =>
      match t with
      | Main =>
          match main_backup (length plugins) pc (b_proc b) with
          | Some (pc', s') => Some (mk_backup pc' s')
          | None => None
          end
      | _ =>
          match step plugins mem t (b_proc b) with
          | Some s' => Some (mk_backup pc s')
          | None => None
          end
      end
  end.

Fixpoint backup_run (plugins : list plugin) (sched : list (thread * alloc))
  (b : backup_state) : option backup_state :=
  match sched with
  | [] => Some b
  | (t, mem) :: sched' =>
      match backup_step plugins mem t b with
      | Some b' => backup_run plugins sched' b'
      | None => None
      end
  end.

(** The process when [main] has loaded every plugin and created the two I/O
    threads: this part of [main] is the same in both files. *)
Definition backup_start (plugins : list plugin) (input : list ascii)
  : backup_state :=
  let s := start plugins input in
  mk_backup (match main s with MReturn c => BReturn c | _ => BJoinInput end) s.

Definition backup_rank (N : nat) (pc : backup_pc) : nat :=
  match pc with
  | BJoinInput => 5 * N + 7
  | BShutdown i => 4 * N + 5 + (S N - i)
  | BRequestStop i => 3 * N + 4 + (N - i)
  | BDestroy i => 3 * (N - i) + 3
  | BDestroyShutdown i => 3 * (N - i) + 2
  | BDestroyJoin i => 3 * (N - i) + 1
  | BJoinOutput => 2
  | BCleanup => 1
  | BReturn _ => 0
  end.

Definition backup_measure (plugins : list plugin) (b : backup_state) : nat :=
  backup_rank (length plugins) (b_pc b) + measure plugins (b_proc b).

(** What holds of the process at each program point of this [main]. *)
Definition backup_ok (plugins : list plugin) (b : backup_state) : Prop :=
  well_formed plugins (b_proc b)
  ∧ main (b_proc b) = MJoinInput
  ∧ match b_pc b with
    | BJoinInput => propagation plugins (b_proc b)
    | BShutdown i =>
        (i ≤ S (length plugins))%nat ∧ ∀ k, (k < i)%nat → closed_at (b_proc b) k
    | BRequestStop i | BDestroy i =>
        (i ≤ length plugins)%nat
        ∧ ∀ k, (k ≤ length plugins)%nat → closed_at (b_proc b) k
    | BDestroyShutdown i | BDestroyJoin i =>
        (i < length plugins)%nat
        ∧ ∀ k, (k ≤ length plugins)%nat → closed_at (b_proc b) k
    | BJoinOutput | BCleanup =>
        ∀ k, (k ≤ length plugins)%nat → closed_at (b_proc b) k
    | BReturn c => c = 0
    end.

(** ** barrier.h: the barrier of the test programs

    The implementation used where [pthread_barrier_t] is not declared: a
    counter of arrived threads and a generation number, under a mutex. *)

Definition UINT_MAX : Z := 4294967295.

Definition uint_wrap (z : Z) : Z := z mod (UINT_MAX + 1).

Record barrier_t : Type := mk_barrier {
  bar_count : Z;
  bar_waiting : Z;
  bar_generation : Z
}.

(** [barrier_init]; [resources] tells whether the mutex and the condition
    variable could be initialised. *)
Definition barrier_init (count : Z) (resources : bool) : option barrier_t :=
  if count =? 0 then None
  else if negb resources then None
  else Some {| bar_count := count; bar_waiting := 0; bar_generation := 0 |}.

(** Where a thread stands in [barrier_wait]: before the call, parked in the
    waiting loop with the generation it read, or returned. *)
Inductive barrier_pc : Type :=
| BwCall
| BwWait (gen : Z)
| BwReturn (ret : Z).

(** One critical section of [barrier_wait]: the arrival, or a wake-up in
    the loop [while (gen == barrier->generation)]; [None] when the thread
    stays parked or has returned. *)
Definition barrier_wait (pc : barrier_pc) (b : barrier_t)
  : option (barrier_pc * barrier_t) :=
  match pc with
  | BwCall =>
      let gen := bar_generation b in
      let waiting := uint_wrap (bar_waiting b + 1) in
      if waiting =? bar_count b then
        Some (BwReturn 1,
              {| bar_count := bar_count b; bar_waiting := 0;
                 bar_generation := uint_wrap (bar_generation b + 1) |})
      else
        Some (BwWait gen,
              {| bar_count := bar_count b; bar_waiting := waiting;
                 bar_generation := bar_generation b |})
  | BwWait gen =>
      if gen =? bar_generation b then None else Some (BwReturn 0, b)
  | BwReturn _ => None
  end.

(** Threads around one barrier. *)
Record barrier_sys : Type := mk_barrier_sys {
  bar : barrier_t;
  bar_threads : list barrier_pc
}.

Definition barrier_step (i : nat) (σ : barrier_sys) : option barrier_sys :=
  match bar_threads σ !! i with
  | Some pc =>
      match barrier_wait pc (bar σ) with
      | Some (pc', b') => Some (mk_barrier_sys b' (<[i := pc']> (bar_threads σ)))
      | None => None
      end
  | None => None
  end.

Fixpoint barrier_run (sched : list nat) (σ : barrier_sys) : option barrier_sys :=
  match sched with
  | [] => Some σ
  | i :: sched' =>
      match barrier_step i σ with
      | Some σ' => barrier_run sched' σ'
      | None => None
      end
  end.

(** How many threads of a list satisfy a test. *)
Definition count_pc (f : barrier_pc → bool) (l : list barrier_pc) : nat :=
  sum_from (λ _ pc, if f pc then 1%nat else 0%nat) 0 l.

Definition arrived (pc : barrier_pc) : bool :=
  match pc with BwCall => false | _ => true end.

Definition serial (pc : barrier_pc) : bool :=
  match pc with BwReturn 1 => true | _ => false end.

Definition returned (pc : barrier_pc) : bool :=
  match pc with BwReturn _ => true | _ => false end.

(** The barrier of [n] threads that started at generation [g0]. *)
Definition barrier_inv (n : nat) (g0 : Z) (σ : barrier_sys) : Prop :=
  length (bar_threads σ) = n
  ∧ bar_count (bar σ) = Z.of_nat n
  ∧ let k := count_pc arrived (bar_threads σ) in
    if decide (k < n)%nat then
      bar_waiting (bar σ) = Z.of_nat k
      ∧ bar_generation (bar σ) = g0
      ∧ Forall (λ pc, pc = BwCall ∨ pc = BwWait g0) (bar_threads σ)
    else
      bar_waiting (bar σ) = 0
      ∧ bar_generation (bar σ) = uint_wrap (g0 + 1)
      ∧ count_pc serial (bar_threads σ) = 1%nat
      ∧ Forall (λ pc, pc = BwWait g0 ∨ pc = BwReturn 0 ∨ pc = BwReturn 1)
          (bar_threads σ).

(** ** A process of one stage *)

(** A small process for the examples: one plugin, two queues of two
    slots. *)
Definition small_state (q0 q1 : queue_t cstring) (w : worker)
  (pc : main_pc) : state :=
  mk_state [] [] [q0; q1] [w] RReturn OPop pc.

(** * Properties of the queue *)

Lemma size_wrap_small (z : Z) : 0 ≤ z ≤ SIZE_MAX → size_wrap z = z.
Proof. intros Hz. unfold size_wrap. apply Z.mod_small. lia. Qed.

Lemma ring_index_ne (a b c : Z) :
  0 ≤ a < b → b < a + c → a mod c ≠ b mod c.
Proof.
  intros Hab Hbc Heq.
  assert (Hc : 0 < c) by lia.
  pose proof (Z.mod_pos_bound a c Hc) as Ha.
  pose proof (Z.mod_pos_bound b c Hc) as Hb.
  pose proof (Z.div_mod a c ltac:(lia)) as Ea.
  pose proof (Z.div_mod b c ltac:(lia)) as Eb.
  assert (Hd : b - a = c * (b / c - a / c)) by lia.
  assert (b / c - a / c = 0 ∨ 1 ≤ b / c - a / c ∨ b / c - a / c ≤ -1) as [H0|[H1|H1]]
    by lia; nia.
Qed.

Section queue_facts.
Context {A : Type}.
Implicit Types (q : queue_t A) (x : A).

Lemma nth_slot_write_ne q (i : Z) (p : option A) (k : nat) h :
  0 < capacity q →
  0 ≤ i < capacity q →
  0 ≤ h →
  i ≠ (h + Z.of_nat k) mod capacity q →
  slot_read (slot_write (buffer q) i p) ((h + Z.of_nat k) mod capacity q)
  = slot_read (buffer q) ((h + Z.of_nat k) mod capacity q).
Proof.
  intros Hc Hi Hh Hne. unfold slot_read, slot_write.
  rewrite list_lookup_insert_ne; [done|].
  pose proof (Z.mod_pos_bound (h + Z.of_nat k) (capacity q) Hc). lia.
Qed.

Lemma slot_read_write q (i : Z) (p : option A) :
  queue_wf q → 0 ≤ i < capacity q →
  slot_read (slot_write (buffer q) i p) i = p.
Proof.
  intros Hwf Hi. unfold slot_read, slot_write.
  rewrite list_lookup_insert_eq; [done|].
  rewrite (wf_buffer _ Hwf). lia.
Qed.

Lemma queue_init_wf (C : Z) q :
  0 < C ≤ SIZE_MAX → queue_init C true = Some q →
  queue_wf q ∧ contents q = [] ∧ capacity q = C ∧ size q = 0
  ∧ shutdown q = false.
Proof.
  intros HC. unfold queue_init.
  destruct (Z.eqb_spec C 0) as [->|Hne]; [lia|]. simpl.
  intros [= <-]. split_and!; try done.
  split; simpl; try lia.
  - by rewrite length_replicate.
  - rewrite Z.mod_small; lia.
Qed.

Lemma queue_shutdown_wf q : queue_wf q → queue_wf (queue_shutdown q).
Proof. intros [? ? ? ? ? ?]. by split. Qed.

Lemma queue_shutdown_contents q : contents (queue_shutdown q) = contents q.
Proof. done. Qed.

(** The four ways [queue_push_resume] can go on a well-formed queue. *)
Lemma queue_push_resume_cases (dup : A → option A) q x :
  queue_wf q →
  (queue_push_resume dup q x = Wait
   ∧ size q = capacity q ∧ shutdown q = false)
  ∨ (queue_push_resume dup q x = Ret QUEUE_SHUTDOWN q ∧ shutdown q = true)
  ∨ (queue_push_resume dup q x = Ret QUEUE_ERROR q
     ∧ shutdown q = false ∧ size q < capacity q ∧ dup x = None)
  ∨ (∃ c q',
       dup x = Some c
       ∧ queue_push_resume dup q x = Ret QUEUE_SUCCESS q'
       ∧ shutdown q = false ∧ size q < capacity q
       ∧ queue_wf q'
       ∧ contents q' = contents q ++ [Some c]
       ∧ capacity q' = capacity q
       ∧ size q' = size q + 1
       ∧ shutdown q' = false).
Proof.
  intros Hwf. pose proof Hwf as [Hc Hb Hs Hh Ht Hsl].
  unfold queue_push_resume.
  destruct (shutdown q) eqn:Hsd.
  { right; left. by rewrite andb_false_r. }
  rewrite andb_true_r.
  destruct (Z.leb_spec (capacity q) (size q)) as [Hfull|Hroom].
  { left. split_and!; [done|lia|done]. }
  destruct (dup x) as [c|] eqn:Hdup.
  2:{ right; right; left. done. }
  right; right; right. eexists c, _. split_and!; try done.
  - (* well-formedness of the new ring *)
    assert (Ht1 : size_wrap (tail q + 1) = tail q + 1).
    { apply size_wrap_small. rewrite Ht.
      pose proof (Z.mod_pos_bound (head q + size q) (capacity q)). lia. }
    assert (Hs1 : size_wrap (size q + 1) = size q + 1)
      by (apply size_wrap_small; lia).
    split; simpl; rewrite ?Hs1, ?Ht1; try lia.
    + unfold slot_write. by rewrite length_insert.
    + rewrite Ht, Z.add_mod_idemp_l by lia. f_equal; lia.
    + intros k Hk. unfold nth_slot; simpl.
      destruct (decide (Z.of_nat k = size q)) as [Hlast|Hin].
      * rewrite Hlast, <- Ht, slot_read_write; [by eexists|done|].
        rewrite Ht. apply Z.mod_pos_bound; lia.
      * rewrite nth_slot_write_ne; try lia.
        -- apply Hsl; lia.
        -- rewrite Ht. pose proof (Z.mod_pos_bound (head q + size q) (capacity q)). lia.
        -- rewrite Ht. apply not_eq_sym, ring_index_ne; lia.
  - unfold contents; simpl.
    rewrite size_wrap_small by lia.
    replace (Z.to_nat (size q + 1)) with (S (Z.to_nat (size q))) by lia.
    rewrite seq_S, fmap_app. simpl. f_equal.
    + apply list_fmap_ext. intros i k Hk.
      apply lookup_seq in Hk as [-> Hlt]. simpl.
      unfold nth_slot; simpl.
      apply nth_slot_write_ne; try lia.
      * rewrite Ht. pose proof (Z.mod_pos_bound (head q + size q) (capacity q)). lia.
      * rewrite Ht. apply not_eq_sym, ring_index_ne; lia.
    + unfold nth_slot; simpl. rewrite Z2Nat.id by lia.
      rewrite <- Ht, slot_read_write; [done|done|].
      rewrite Ht. apply Z.mod_pos_bound; lia.
  - simpl. apply size_wrap_small; lia.
Qed.
End queue_facts.

Section queue_facts_pop.
Context {A : Type}.
Implicit Types (q : queue_t A) (x : A).

Lemma queue_push_cases (dup : A → option A) q x :
  queue_push dup q (Some x) = queue_push_resume dup q x.
Proof.
  unfold queue_push, queue_push_resume.
  destruct (shutdown q); [|done]. by rewrite andb_false_r.
Qed.

Lemma contents_nil q : size q = 0 → contents q = [].
Proof. intros H. unfold contents. by rewrite H. Qed.

Lemma contents_length q : queue_wf q → Z.of_nat (length (contents q)) = size q.
Proof.
  intros Hwf. unfold contents. rewrite length_fmap, length_seq.
  pose proof (wf_size _ Hwf). lia.
Qed.

(** The three ways [queue_pop] can go on a well-formed queue. *)
Lemma queue_pop_cases q :
  queue_wf q →
  (queue_pop q = Wait ∧ size q = 0 ∧ shutdown q = false)
  ∨ (queue_pop q = Ret (QUEUE_SHUTDOWN, None) q
     ∧ shutdown q = true ∧ size q = 0)
  ∨ (∃ x q',
       queue_pop q = Ret (QUEUE_SUCCESS, Some x) q'
       ∧ contents q = Some x :: contents q'
       ∧ queue_wf q'
       ∧ capacity q' = capacity q
       ∧ size q' = size q - 1
       ∧ shutdown q' = shutdown q).
Proof.
  intros Hwf. pose proof Hwf as [Hc Hb Hs Hh Ht Hsl].
  unfold queue_pop.
  destruct (Z.eqb_spec (size q) 0) as [Hz|Hnz].
  { destruct (shutdown q); simpl; [right; left|left]; split_and!; done. }
  simpl. rewrite andb_false_r.
  right; right.
  assert (Hpos : 0 < size q) by lia.
  destruct (Hsl 0%nat ltac:(lia)) as [x Hx].
  unfold nth_slot in Hx. rewrite Z.add_0_r, Z.mod_small in Hx by lia.
  assert (Hh1 : size_wrap (head q + 1) = head q + 1)
    by (apply size_wrap_small; lia).
  assert (Hs1 : size_wrap (size q - 1) = size q - 1)
    by (apply size_wrap_small; lia).
  assert (Hslot : ∀ k : nat, Z.of_nat k < size q - 1 →
    slot_read (slot_write (buffer q) (head q) None)
      (((head q + 1) mod capacity q + Z.of_nat k) mod capacity q)
    = nth_slot q (S k)).
  { intros k Hk. rewrite Z.add_mod_idemp_l by lia.
    replace (head q + 1 + Z.of_nat k) with (head q + Z.of_nat (S k)) by lia.
    unfold nth_slot. apply nth_slot_write_ne; try lia.
    rewrite <- (Z.mod_small (head q) (capacity q)) at 1 by lia.
    apply ring_index_ne; lia. }
  eexists x, _. split; [by rewrite Hx|]. split_and!; try done.
  - unfold contents at 1.
    replace (Z.to_nat (size q)) with (S (Z.to_nat (size q - 1))) by lia.
    simpl. f_equal.
    + unfold nth_slot. by rewrite Z.add_0_r, Z.mod_small by lia.
    + unfold contents; simpl. rewrite Hs1, Hh1.
      rewrite <- fmap_S_seq, <- list_fmap_compose.
      apply list_fmap_ext. intros i k Hk.
      apply lookup_seq in Hk as [-> Hlt]. simpl.
      symmetry. apply Hslot. lia.
  - split; simpl; rewrite ?Hs1, ?Hh1; try lia.
    + unfold slot_write. by rewrite length_insert.
    + apply Z.mod_pos_bound; lia.
    + rewrite Z.add_mod_idemp_l, Ht by lia. f_equal; lia.
    + intros k Hk. unfold nth_slot; simpl. rewrite Hslot by lia.
      apply Hsl. lia.
Qed.

(** [queue_wf] and the capacity are kept by every operation. *)
Lemma queue_push_wf (dup : A → option A) q x r q' :
  queue_wf q → queue_push_resume dup q x = Ret r q' →
  queue_wf q' ∧ capacity q' = capacity q.
Proof.
  intros Hwf Hp.
  destruct (queue_push_resume_cases dup q x Hwf)
    as [[E _]|[[E _]|[[E _]|(c & q1 & _ & E & _ & _ & Hwf' & _ & Hc & _)]]];
    rewrite E in Hp; try done; by injection Hp as <- <-.
Qed.

Lemma queue_pop_wf q r q' :
  queue_wf q → queue_pop q = Ret r q' →
  queue_wf q' ∧ capacity q' = capacity q.
Proof.
  intros Hwf Hp.
  destruct (queue_pop_cases q Hwf)
    as [[E _]|[[E _]|(c & q1 & E & _ & Hwf' & Hc & _)]];
    rewrite E in Hp; try done; by injection Hp as <- <-.
Qed.
End queue_facts_pop.

Section queue_runs_facts.
Context {A : Type}.
Implicit Types (q : queue_t A) (x : A) (o : op A).

(** One operation on the ring is the same operation on the list it
    stands for. *)
Lemma queue_do_abstract o q :
  queue_wf q →
  queue_wf (queue_do o q).2
  ∧ Spec.do o (abstract q) = ((queue_do o q).1, abstract (queue_do o q).2).
Proof.
  intros Hwf. pose proof (contents_length q Hwf) as Hlen.
  pose proof (wf_size _ Hwf) as Hsz.
  destruct o as [x ok| |]; unfold queue_do, Spec.do.
  - rewrite queue_push_cases. unfold Spec.push; simpl.
    destruct (queue_push_resume_cases (copy ok) q x Hwf)
      as [(E & Hfull & Hsd)|[(E & Hsd)|[(E & Hsd & Hroom & Hdup)
         |(c & q' & Hdup & E & Hsd & Hroom & Hwf' & Hcont & Hcap & Hsz' & Hsd')]]];
      rewrite E; simpl; rewrite Hsd; try done.
    + split; [done|]. rewrite Hlen, Hfull, Z.eqb_refl. done.
    + split; [done|].
      destruct (Z.eqb_spec (Z.of_nat (length (contents q))) (capacity q)); [lia|].
      destruct ok; [done|]. done.
    + split; [done|].
      destruct (Z.eqb_spec (Z.of_nat (length (contents q))) (capacity q)); [lia|].
      destruct ok; [|done]. injection Hdup as <-.
      unfold abstract. by rewrite Hcont, Hcap, Hsd'.
  - unfold Spec.pop; simpl.
    destruct (queue_pop_cases q Hwf)
      as [(E & Hz & Hsd)|[(E & Hsd & Hz)|(x & q' & E & Hcont & Hwf' & Hcap & Hsz' & Hsd')]];
      rewrite E; simpl.
    + by rewrite (contents_nil q Hz), Hsd.
    + by rewrite (contents_nil q Hz), Hsd.
    + split; [done|]. rewrite Hcont. unfold abstract. by rewrite Hcap, Hsd'.
  - split; [by apply queue_shutdown_wf|done].
Qed.

Lemma queue_run_abstract (ops : list (op A)) q :
  queue_wf q →
  queue_wf (queue_run ops q).2
  ∧ Spec.run ops (abstract q)
    = ((queue_run ops q).1, abstract (queue_run ops q).2).
Proof.
  revert q. induction ops as [|o ops IH]; intros q Hwf; simpl; [done|].
  destruct (queue_do_abstract o q Hwf) as [Hwf1 E1]. rewrite E1.
  destruct (queue_do o q) as [e q1]; simpl in *.
  destruct (IH q1 Hwf1) as [Hwf2 E2]. rewrite E2.
  by destruct (queue_run ops q1) as [es q2].
Qed.

(** First in, first out, on the list buffer: what was inside followed by
    what went in is what came out followed by what is left. *)
Lemma spec_run_fifo (ops : list (op A)) (b : Spec.buffer A) :
  Spec.items b ++ pushed (Spec.run ops b).1
  = popped (Spec.run ops b).1 ++ Spec.items (Spec.run ops b).2.
Proof.
  revert b. induction ops as [|o ops IH]; intros b; simpl.
  { by rewrite app_nil_r. }
  destruct (Spec.do o b) as [e b1] eqn:Hdo.
  specialize (IH b1). destruct (Spec.run ops b1) as [es b2]; simpl in *.
  unfold pushed, popped in *.
  destruct o as [x ok| |]; simpl in Hdo.
  - unfold Spec.push in Hdo.
    destruct (Spec.closed b), (Z.of_nat (length (Spec.items b)) =? Spec.cap b), ok;
      injection Hdo as He Hb; subst e b1; simpl in *; try done.
    by rewrite <- IH, <- app_assoc.
  - unfold Spec.pop in Hdo.
    destruct (Spec.items b) as [|y rest] eqn:Hit, (Spec.closed b);
      injection Hdo as He Hb; subst e b1; simpl in *;
      rewrite ?Hit in IH; simpl in *; by rewrite <- IH.
  - injection Hdo as He Hb; subst e b1. done.
Qed.

Lemma queue_run_cons o (ops : list (op A)) q :
  (queue_run (o :: ops) q).1
  = (queue_do o q).1 :: (queue_run ops (queue_do o q).2).1.
Proof.
  simpl. destruct (queue_do o q) as [e q1]. simpl.
  by destruct (queue_run ops q1) as [es q2].
Qed.

(** After a shutdown, the pops hand out what is left, then the end. *)
Lemma queue_drain (n : nat) q :
  queue_wf q → shutdown q = true → length (contents q) = n →
  (queue_run (replicate (S n) Pop) q).1
  = (PopOk <$> contents q) ++ [PopEnd].
Proof.
  revert q. induction n as [|n IH]; intros q Hwf Hsd Hlen.
  - pose proof (contents_length q Hwf) as Hl. rewrite Hlen in Hl.
    apply nil_length_inv in Hlen. rewrite Hlen. simpl.
    destruct (queue_pop_cases q Hwf)
      as [(E & Hz & Hsd')|[(E & _ & Hz)|(x & q' & E & Hcont & _)]].
    + congruence.
    + by rewrite E.
    + by rewrite Hlen in Hcont.
  - change (replicate (S (S n)) Pop) with (Pop :: replicate (S n) (@Pop A)).
    destruct (queue_pop_cases q Hwf)
      as [(E & Hz & Hsd')|[(E & _ & Hz)|(x & q' & E & Hcont & Hwf' & Hcap & Hsz' & Hsd')]].
    + congruence.
    + by rewrite (contents_nil q Hz) in Hlen.
    + rewrite queue_run_cons. unfold queue_do at 1 2. rewrite E.
      rewrite Hcont in Hlen. injection Hlen as Hlen.
      cbn [fst snd Z.eqb QUEUE_SUCCESS].
      rewrite (IH q' Hwf' ltac:(congruence) Hlen), Hcont. done.
Qed.
End queue_runs_facts.

Section queue_claims.
Context {A : Type}.
Implicit Types (q : queue_t A) (x : A) (o : op A).

Lemma queue_init_some (C : Z) :
  0 < C ≤ SIZE_MAX → ∃ q0 : queue_t A, queue_init C true = Some q0.
Proof.
  intros HC. unfold queue_init.
  destruct (Z.eqb_spec C 0); [lia|]. by eexists.
Qed.

Lemma queue_run_wf (ops : list (op A)) q :
  queue_wf q →
  queue_wf (queue_run ops q).2
  ∧ capacity (queue_run ops q).2 = capacity q.
Proof.
  intros Hwf. destruct (queue_run_abstract ops q Hwf) as [Hwf' E].
  split; [done|].
  assert (Hcap : ∀ (l : list (op A)) (b : Spec.buffer A),
             Spec.cap (Spec.run l b).2 = Spec.cap b).
  { induction l as [|o l IH]; intros b; simpl; [done|].
    destruct (Spec.do o b) as [e b1] eqn:Hdo.
    specialize (IH b1). destruct (Spec.run l b1) as [es b2]. simpl in *.
    rewrite IH.
    destruct o as [x ok| |];
      unfold Spec.do, Spec.push, Spec.pop, Spec.close in Hdo;
      repeat case_match; by simplify_eq. }
  specialize (Hcap ops (abstract q)). by rewrite E in Hcap.
Qed.

Lemma queue_drain_end (n : nat) q :
  queue_wf q → shutdown q = true → length (contents q) = n →
  let qn := (queue_run (replicate n Pop) q).2 in
  (queue_run (replicate n Pop) q).1 = PopOk <$> contents q
  ∧ queue_pop qn = Ret (QUEUE_SHUTDOWN, None) qn.
Proof.
  revert q. induction n as [|n IH]; intros q Hwf Hsd Hlen.
  - apply nil_length_inv in Hlen as Hnil. rewrite Hnil. simpl.
    split; [done|].
    destruct (queue_pop_cases q Hwf)
      as [(E & Hz & Hsd')|[(E & _ & Hz)|(x & q' & E & Hcont & _)]];
      [congruence|done|by rewrite Hnil in Hcont].
  - destruct (queue_pop_cases q Hwf)
      as [(E & Hz & Hsd')|[(E & _ & Hz)|(x & q' & E & Hcont & Hwf' & Hcap & Hsz' & Hsd')]].
    + congruence.
    + by rewrite (contents_nil q Hz) in Hlen.
    + rewrite Hcont in Hlen. injection Hlen as Hlen.
      destruct (IH q' Hwf' ltac:(congruence) Hlen) as [IH1 IH2].
      cbn [replicate]. simpl. rewrite E. simpl.
      destruct (queue_run (replicate n Pop) q') as [es q2].
      simpl in *. by rewrite IH1, Hcont.
Qed.

(** C1 -- Post-close drain.  For every well-formed queue holding the items
    [contents q] when [queue_shutdown] is called: the shutdown removes
    nothing (buffer, size, head and tail are the same), the next
    [length (contents q)] pops return exactly those items in FIFO order,
    and the pop after them returns [QUEUE_SHUTDOWN] with a NULL string. *)
Theorem post_close_drain q :
  queue_wf q →
  let q' := queue_shutdown q in
  let m := length (contents q) in
  let qm := (queue_run (replicate m Pop) q').2 in
  (buffer q' = buffer q ∧ size q' = size q ∧ head q' = head q
   ∧ tail q' = tail q ∧ contents q' = contents q)
  ∧ (queue_run (replicate m Pop) q').1 = PopOk <$> contents q
  ∧ queue_pop qm = Ret (QUEUE_SHUTDOWN, None) qm.
Proof.
  intros Hwf q' m qm. split; [done|].
  apply (queue_drain_end m q'); [by apply queue_shutdown_wf|done|done].
Qed.

(** C4 -- A closed queue rejects pushes.  If the shutdown flag is set when
    [queue_push] is entered, or is found set when a pusher parked in the
    waiting loop is woken (after any number of wake-ups that found the
    queue still full and open), the call returns [QUEUE_SHUTDOWN] and hands
    back the very same queue: items, size, head and tail are untouched. *)
Theorem push_on_closed_queue (dup : A → option A) q x :
  shutdown q = true →
  queue_push dup q (Some x) = Ret QUEUE_SHUTDOWN q
  ∧ queue_push_resume dup q x = Ret QUEUE_SHUTDOWN q
  ∧ ∀ parked later : list (queue_t A),
      Forall (λ q0, queue_push_resume dup q0 x = Wait) parked →
      queue_push_woken dup x (parked ++ q :: later) = Ret QUEUE_SHUTDOWN q.
Proof.
  intros Hsd.
  assert (Hr : queue_push_resume dup q x = Ret QUEUE_SHUTDOWN q).
  { unfold queue_push_resume. rewrite Hsd. by rewrite andb_false_r. }
  split_and!; [by unfold queue_push; rewrite Hsd|done|].
  intros parked later Hparked.
  induction Hparked as [|q0 parked Hq0 _ IH]; simpl.
  - by rewrite Hr.
  - by rewrite Hq0.
Qed.

(** C5 -- The ring is a bounded FIFO list.  From a queue initialised with
    capacity [C], any sequence of calls by a producer and a consumer is
    observed exactly as on the list buffer of the specification, the ring
    stands for that list throughout, and the values pushed with success
    are, in order, the values popped followed by those still enqueued: once
    the queue is empty again, the consumer has seen exactly the sequence
    the producer pushed. *)
Theorem ring_refines_fifo (C : Z) (ops : list (op A)) :
  0 < C ≤ SIZE_MAX →
  ∃ q0 : queue_t A,
    queue_init C true = Some q0
    ∧ abstract q0 = Spec.empty C
    ∧ (queue_run ops q0).1 = (Spec.run ops (Spec.empty C)).1
    ∧ abstract (queue_run ops q0).2 = (Spec.run ops (Spec.empty C)).2
    ∧ pushed (queue_run ops q0).1
      = popped (queue_run ops q0).1 ++ contents (queue_run ops q0).2
    ∧ (contents (queue_run ops q0).2 = [] →
       popped (queue_run ops q0).1 = pushed (queue_run ops q0).1).
Proof.
  intros HC. destruct (queue_init_some C HC) as [q0 Hq0].
  destruct (queue_init_wf C q0 HC Hq0) as (Hwf & Hcont & Hcap & Hsz & Hsd).
  assert (Habs : abstract q0 = Spec.empty C).
  { unfold abstract, Spec.empty. by rewrite Hcont, Hcap, Hsd. }
  destruct (queue_run_abstract ops q0 Hwf) as [_ E].
  pose proof (spec_run_fifo ops (abstract q0)) as Hfifo.
  rewrite E in Hfifo. simpl in Hfifo. rewrite Hcont in Hfifo.
  exists q0. rewrite <- Habs, E. split_and!; try done.
  intros Hempty. simpl in Hfifo. by rewrite Hfifo, Hempty, app_nil_r.
Qed.

(** C6 -- Capacity invariant.  A queue initialised with capacity [C > 0]
    has, after any sequence of pushes, pops and shutdowns, capacity [C]
    and [0 <= size <= C]; and when [size = C] a push parks or is refused
    as closed, leaving the queue as it is. *)
Theorem capacity_invariant (C : Z) (ops : list (op A)) :
  0 < C ≤ SIZE_MAX →
  ∃ q0 : queue_t A,
    queue_init C true = Some q0
    ∧ size q0 = 0
    ∧ let q := (queue_run ops q0).2 in
      capacity q = C
      ∧ 0 ≤ size q ≤ C
      ∧ (size q = C → ∀ dup x,
           queue_push dup q (Some x) = Wait
           ∨ queue_push dup q (Some x) = Ret QUEUE_SHUTDOWN q).
Proof.
  intros HC. destruct (queue_init_some C HC) as [q0 Hq0].
  destruct (queue_init_wf C q0 HC Hq0) as (Hwf & Hcont & Hcap & Hsz & Hsd).
  exists q0. split_and!; [done|done|]. intros q.
  destruct (queue_run_wf ops q0 Hwf) as [Hwf' Hcap']. fold q in Hwf', Hcap'.
  pose proof (wf_size _ Hwf') as Hs.
  split_and!; [congruence|lia|lia|].
  intros Hfull dup x. rewrite queue_push_cases.
  destruct (queue_push_resume_cases dup q x Hwf')
    as [(E & _)|[(E & _)|[(_ & _ & Hroom & _)|(c & q' & _ & _ & _ & Hroom & _)]]];
    [by left|by right|lia|lia].
Qed.
End queue_claims.

Lemma post_close_drain_witness :
  let q := mk_queue [Some 7%nat; Some 8%nat] 2 2 0 0 false in
  queue_wf q
  ∧ (queue_run (replicate 2 Pop) (queue_shutdown q)).1
    = [PopOk (Some 7%nat); PopOk (Some 8%nat)]
  ∧ queue_pop (queue_run (replicate 2 Pop) (queue_shutdown q)).2
    = Ret (QUEUE_SHUTDOWN, None)
        (queue_run (replicate 2 Pop) (queue_shutdown q)).2.
Proof.
  intros q.
  assert (Hwf : queue_wf q).
  { split; simpl; unfold SIZE_MAX; try lia; try done.
    intros [|[|k]] Hk; [by eexists|by eexists|lia]. }
  split; [exact Hwf|].
  exact (proj2 (post_close_drain q Hwf)).
Defined.

Lemma push_on_closed_queue_witness :
  let q := mk_queue [None; None] 2 0 0 0 true in
  shutdown q = true
  ∧ queue_push (copy true) q (Some 5%nat) = Ret QUEUE_SHUTDOWN q
  ∧ queue_push_resume (copy true) q 5%nat = Ret QUEUE_SHUTDOWN q.
Proof.
  intros q. split; [reflexivity|].
  destruct (push_on_closed_queue (copy true) q 5%nat eq_refl) as (H1 & H2 & _).
  split; [exact H1|exact H2].
Defined.

Lemma ring_refines_fifo_witness :
  0 < 2 ≤ SIZE_MAX
  ∧ ∃ q0 : queue_t nat,
      queue_init 2 true = Some q0
      ∧ pushed (queue_run [Push 1%nat true; Push 2%nat true; Pop; Pop] q0).1
        = popped (queue_run [Push 1%nat true; Push 2%nat true; Pop; Pop] q0).1
          ++ contents (queue_run [Push 1%nat true; Push 2%nat true; Pop; Pop] q0).2.
Proof.
  assert (HC : 0 < 2 ≤ SIZE_MAX) by (unfold SIZE_MAX; lia).
  split; [exact HC|].
  destruct (ring_refines_fifo 2 [Push 1%nat true; Push 2%nat true; Pop; Pop] HC)
    as (q0 & H0 & _ & _ & _ & H & _).
  exists q0. split; [exact H0|exact H].
Defined.

Lemma capacity_invariant_witness :
  0 < 2 ≤ SIZE_MAX
  ∧ ∃ q0 : queue_t nat,
      queue_init 2 true = Some q0
      ∧ size (queue_run [Push 1%nat true; Push 2%nat true; Push 3%nat true] q0).2 ≤ 2.
Proof.
  assert (HC : 0 < 2 ≤ SIZE_MAX) by (unfold SIZE_MAX; lia).
  split; [exact HC|].
  destruct (capacity_invariant 2 [Push 1%nat true; Push 2%nat true; Push 3%nat true] HC)
    as (q0 & H0 & _ & H).
  exists q0. split; [exact H0|]. cbv zeta in H.
  destruct H as (_ & [_ Hs] & _). exact Hs.
Defined.

(** * Properties of the transforms *)

Lemma code_bounds (c : ascii) : 0 ≤ code c < 256.
Proof.
  unfold code. pose proof (N_ascii_bounded c). lia.
Qed.

Lemma to_char_code (c : ascii) : to_char (code c) = c.
Proof.
  unfold to_char. rewrite Z.mod_small by apply code_bounds.
  unfold code. rewrite N2Z.id. apply ascii_N_embedding.
Qed.

Lemma code_to_char (z : Z) : 0 ≤ z < 256 → code (to_char z) = z.
Proof.
  intros Hz. unfold code, to_char. rewrite Z.mod_small by done.
  rewrite N_ascii_embedding by lia. lia.
Qed.

(** Case folding touches the ASCII letters only. *)
Lemma toupper_other (c : ascii) :
  islower (code c) = false → to_char (toupper (code c)) = c.
Proof. intros H. unfold toupper. rewrite H. apply to_char_code. Qed.

Lemma tolower_other (c : ascii) :
  isupper (code c) = false → to_char (tolower (code c)) = c.
Proof. intros H. unfold tolower. rewrite H. apply to_char_code. Qed.

Lemma toupper_letter (c : ascii) :
  islower (code c) = true →
  code (to_char (toupper (code c))) = code c - 32
  ∧ isupper (code c - 32) = true.
Proof.
  intros H. unfold toupper. rewrite H. unfold islower, isupper in *.
  rewrite code_to_char; lia.
Qed.

Lemma tolower_letter (c : ascii) :
  isupper (code c) = true →
  code (to_char (tolower (code c))) = code c + 32
  ∧ islower (code c + 32) = true.
Proof.
  intros H. unfold tolower. rewrite H. unfold islower, isupper in *.
  rewrite code_to_char; lia.
Qed.

(** C9 -- Transform composition.  The six transforms applied in the order
    trim, upper, reverse, prefix, suffix, lower to the line ["  hello  "]
    give ["prefix:olleh:suffix"], stage by stage; and [upper] / [lower] keep
    the length of their input, map each lower-case (upper-case) ASCII letter
    to the letter 32 below (above) it, and leave every other byte as it
    is. *)
Theorem transform_composition :
  (transform_trim all_ok (list_ascii_of_string "  hello  ")
   = Some (list_ascii_of_string "hello")
   ∧ transform_upper all_ok (list_ascii_of_string "hello")
     = Some (list_ascii_of_string "HELLO")
   ∧ transform_reverse all_ok (list_ascii_of_string "HELLO")
     = Some (list_ascii_of_string "OLLEH")
   ∧ transform_prefix all_ok (list_ascii_of_string "OLLEH")
     = Some (list_ascii_of_string "PREFIX:OLLEH")
   ∧ transform_suffix all_ok (list_ascii_of_string "PREFIX:OLLEH")
     = Some (list_ascii_of_string "PREFIX:OLLEH:SUFFIX")
   ∧ transform_lower all_ok (list_ascii_of_string "PREFIX:OLLEH:SUFFIX")
     = Some (list_ascii_of_string "prefix:olleh:suffix"))
  ∧ chain [trim_so; upper_so; reverse_so; prefix_so; suffix_so; lower_so]
      (list_ascii_of_string "  hello  ")
    = Some (list_ascii_of_string "prefix:olleh:suffix")
  ∧ ∀ input : cstring,
      ∃ up lo : cstring,
        transform_upper all_ok input = Some up
        ∧ transform_lower all_ok input = Some lo
        ∧ length up = length input
        ∧ length lo = length input
        ∧ ∀ (i : nat) (c : ascii), input !! i = Some c →
            (islower (code c) = false → up !! i = Some c)
            ∧ (isupper (code c) = false → lo !! i = Some c)
            ∧ (islower (code c) = true →
               ∃ u, up !! i = Some u ∧ code u = code c - 32
                    ∧ isupper (code u) = true)
            ∧ (isupper (code c) = true →
               ∃ l, lo !! i = Some l ∧ code l = code c + 32
                    ∧ islower (code l) = true).
Proof.
  split; [by vm_compute|]. split; [by vm_compute|].
  intros input. eexists _, _. split; [reflexivity|]. split; [reflexivity|].
  rewrite !length_fmap. split; [done|]. split; [done|].
  intros i c Hi. rewrite !list_lookup_fmap, Hi. simpl.
  split_and!.
  - intros H. by rewrite toupper_other.
  - intros H. by rewrite tolower_other.
  - intros H. eexists. split; [done|].
    destruct (toupper_letter c H) as [E1 E2]. by rewrite E1.
  - intros H. eexists. split; [done|].
    destruct (tolower_letter c H) as [E1 E2]. by rewrite E1.
Qed.

(** * Properties of the input reader *)

Lemma c_str_no_nul (s : list ascii) : NUL ∉ s → c_str s = s.
Proof.
  induction s as [|c s IH]; intros Hn; simpl; [done|].
  apply not_elem_of_cons in Hn as [Hc Hs].
  destruct (Ascii.eqb_spec c NUL) as [->|_]; [done|]. by rewrite IH.
Qed.

Lemma fgets_bytes_line (k : nat) (line rest : list ascii) :
  NEWLINE ∉ line → (length line < k)%nat →
  fgets_bytes k (line ++ NEWLINE :: rest) = (line ++ [NEWLINE], rest).
Proof.
  revert k. induction line as [|c line IH]; intros k Hn Hk; simpl in *.
  - destruct k; [lia|]. done.
  - apply not_elem_of_cons in Hn as [Hc Hl].
    destruct k as [|k]; [lia|]. simpl.
    destruct (Ascii.eqb_spec c NEWLINE) as [->|_]; [done|].
    rewrite IH by (done || lia). done.
Qed.


Lemma fgets_bytes_split (k : nat) (input : list ascii) :
  (fgets_bytes k input).1 ++ (fgets_bytes k input).2 = input.
Proof.
  revert input. induction k as [|k IH]; intros [|c input]; simpl; try done.
  destruct (Ascii.eqb c NEWLINE); [done|].
  specialize (IH input). destruct (fgets_bytes k input). simpl in *.
  by rewrite IH.
Qed.

Lemma fgets_bytes_nonempty (k : nat) (c : ascii) (input : list ascii) :
  (0 < k)%nat → (fgets_bytes k (c :: input)).1 ≠ [].
Proof.
  intros Hk. destruct k as [|k]; [lia|]. simpl.
  destruct (Ascii.eqb c NEWLINE); [done|].
  by destruct (fgets_bytes k input).
Qed.

(** A successful [fgets] consumes at least one byte. *)
Lemma fgets_consumes (input chunk rest : list ascii) :
  fgets MAX_LINE_LENGTH input = Some (chunk, rest) →
  chunk ++ rest = input ∧ (length rest < length input)%nat.
Proof.
  unfold fgets. destruct input as [|c input]; [done|].
  intros H0.
  assert (H : fgets_bytes (MAX_LINE_LENGTH - 1) (c :: input) = (chunk, rest))
    by congruence.
  clear H0.
  pose proof (fgets_bytes_split (MAX_LINE_LENGTH - 1) (c :: input)) as Hs.
  pose proof (fgets_bytes_nonempty (MAX_LINE_LENGTH - 1) c input
                ltac:(unfold MAX_LINE_LENGTH; lia)) as Hne.
  rewrite H in Hs, Hne. cbn [fst snd] in Hs, Hne. split; [done|].
  rewrite <- Hs, length_app. destruct chunk; [done|]. cbn [length]. lia.
Qed.

(** More fuel than bytes changes nothing. *)
Lemma input_thread_loop_fuel (fuel : nat) (input : list ascii) :
  (length input < fuel)%nat →
  input_thread_loop fuel input = input_thread_calls input.
Proof.
  unfold input_thread_calls.
  remember (length input) as n eqn:Hn.
  revert fuel input Hn.
  induction n as [n IH] using lt_wf_ind. intros fuel input Hn Hf.
  destruct fuel as [|fuel]; [lia|]. simpl.
  destruct (fgets MAX_LINE_LENGTH input) as [[chunk rest]|] eqn:Hg; [|done].
  destruct (cstring_eqb (chomp chunk) END_MARK); [done|]. f_equal.
  destruct (fgets_consumes _ _ _ Hg) as [_ Hlt].
  rewrite (IH (length rest) ltac:(lia) fuel rest eq_refl ltac:(lia)).
  rewrite (IH (length rest) ltac:(lia) n rest eq_refl ltac:(lia)). done.
Qed.

Lemma chomp_line (line : list ascii) :
  NUL ∉ line → NEWLINE ∉ line → chomp (line ++ [NEWLINE]) = line.
Proof.
  intros Hn Hl. unfold chomp.
  rewrite c_str_no_nul.
  2:{ rewrite elem_of_app, list_elem_of_singleton. intros [?|?]; done. }
  rewrite length_app. simpl.
  replace (length line + 1 - 1)%nat with (length line) by lia.
  rewrite lookup_app_r, Nat.sub_diag by lia. simpl.
  destruct (Nat.ltb_spec 0 (length line + 1)); [|lia]. simpl.
  by rewrite take_app_length.
Qed.

Lemma chomp_no_newline (s : list ascii) :
  NUL ∉ s → NEWLINE ∉ s → chomp s = s.
Proof.
  intros Hn Hl. unfold chomp. rewrite c_str_no_nul by done.
  destruct (0 <? length s)%nat eqn:Hlen; [|done]. simpl.
  destruct (s !! (length s - 1)%nat) as [c|] eqn:Hc; simpl; [|done].
  destruct (Ascii.eqb_spec c NEWLINE) as [->|_]; [|done].
  exfalso. apply Hl. by eapply list_elem_of_lookup_2.
Qed.

Lemma fgets_nonempty (input : list ascii) :
  input ≠ [] →
  fgets MAX_LINE_LENGTH input
  = Some (fgets_bytes (MAX_LINE_LENGTH - 1) input).
Proof. by destruct input. Qed.

(** One iteration of the reader's loop. *)
Lemma input_thread_calls_step (input chunk rest : list ascii) :
  fgets MAX_LINE_LENGTH input = Some (chunk, rest) →
  input_thread_calls input
  = if cstring_eqb (chomp chunk) END_MARK then [CallShutdown]
    else CallPush (chomp chunk) :: input_thread_calls rest.
Proof.
  intros Hg. unfold input_thread_calls at 1. cbn [input_thread_loop].
  rewrite Hg. destruct (cstring_eqb (chomp chunk) END_MARK); [done|].
  f_equal. apply input_thread_loop_fuel.
  by destruct (fgets_consumes _ _ _ Hg).
Qed.

Lemma input_thread_calls_short (line rest : list ascii) :
  NUL ∉ line → NEWLINE ∉ line → (length line < MAX_LINE_LENGTH - 1)%nat →
  input_thread_calls (line ++ NEWLINE :: rest)
  = if cstring_eqb line END_MARK then [CallShutdown]
    else CallPush line :: input_thread_calls rest.
Proof.
  intros Hn Hl Hlen.
  rewrite (input_thread_calls_step _ (line ++ [NEWLINE]) rest).
  - by rewrite chomp_line.
  - rewrite fgets_nonempty by (by destruct line).
    by rewrite fgets_bytes_line.
Qed.






(** * The two threads that leave their queue open *)

(** C3 -- The reader at end of file.  When [fgets] meets the end of the
    input without [<END>] having been read, [input_thread] returns and the
    first queue is as it was: nobody has closed it.  On the input
    ["hello"] followed by a newline and the end of file, the process with
    the [upper] plugin prints [HELLO] and then hangs: the reader has
    returned, the first queue is open, [main] waits for the writer and no
    thread can move. *)
Theorem reader_eof_leaves_queue_open :
  (∀ mem q, input_thread mem RFgets [] q = Some (RReturn, [], q))
  ∧ ∃ sched s,
      run_ok [upper_so] sched
        (start [upper_so] (list_ascii_of_string "hello" ++ [NEWLINE]))
      = Some s
      ∧ reader s = RReturn
      ∧ shutdown <$> queues s !! 0%nat = Some false
      ∧ stdout s = [Some (banner upper_so);
                    Some (list_ascii_of_string "HELLO")]
      ∧ main s = MJoinOutput
      ∧ ∀ t mem, step [upper_so] mem t s = None.
Proof.
  split; [done|].
  exists [Reader; Reader; Reader; Worker 0; Worker 0; Worker 0; Worker 0;
          Worker 0; Writer; Main].
  eexists. split; [vm_compute; reflexivity|].
  split_and!; try reflexivity.
  intros [| | |[|i]] mem; reflexivity.
Qed.

(** C2 -- The worker of plugins/test_upper.c.  When its pop has returned
    [QUEUE_SHUTDOWN], this [process_thread] goes straight to its [return]:
    the output queue is as it was.  On the input [hello], [<END>] the
    process with this plugin prints [HELLO] and then hangs: the worker has
    returned, its output queue is open, the writer is parked on it. *)
Theorem test_upper_leaves_output_open :
  (∀ mem w qin qout str,
     w_pc w = WCheck QUEUE_SHUTDOWN str →
     process_thread test_upper_so mem w qin qout
     = Some (goto WReturn w, qin, qout))
  ∧ ∃ sched s,
      run_ok [test_upper_so] sched
        (start [test_upper_so]
           (feed [list_ascii_of_string "hello"] []))
      = Some s
      ∧ w_pc <$> workers s !! 0%nat = Some WReturn
      ∧ shutdown <$> queues s !! 0%nat = Some true
      ∧ shutdown <$> queues s !! 1%nat = Some false
      ∧ stdout s = [Some (banner test_upper_so);
                    Some (list_ascii_of_string "HELLO")]
      ∧ writer s = OPop
      ∧ main s = MJoinOutput
      ∧ ∀ t mem, step [test_upper_so] mem t s = None.
Proof.
  split.
  { intros mem w qin qout str Hpc. unfold process_thread. by rewrite Hpc. }
  exists [Reader; Reader; Reader; Reader; Worker 0; Worker 0; Worker 0;
          Worker 0; Worker 0; Worker 0; Worker 0; Writer; Main].
  eexists. split; [vm_compute; reflexivity|].
  split_and!; try reflexivity.
  intros [| | |[|i]] mem; reflexivity.
Qed.

(** * Ownership of a pushed string *)

Lemma queue_pops_all {A : Type} (n : nat) (q : queue_t A) :
  queue_wf q → length (contents q) = n →
  (queue_run (replicate n Pop) q).1 = PopOk <$> contents q.
Proof.
  revert q. induction n as [|n IH]; intros q Hwf Hlen.
  - apply nil_length_inv in Hlen. by rewrite Hlen.
  - destruct (queue_pop_cases q Hwf)
      as [(E & Hz & _)|[(E & _ & Hz)|(x & q' & E & Hcont & Hwf' & _)]].
    + by rewrite (contents_nil q Hz) in Hlen.
    + by rewrite (contents_nil q Hz) in Hlen.
    + rewrite Hcont in Hlen. injection Hlen as Hlen.
      cbn [replicate]. rewrite queue_run_cons. unfold queue_do at 1 2.
      rewrite E. cbn [fst snd Z.eqb QUEUE_SUCCESS].
      by rewrite (IH q' Hwf' Hlen), Hcont.
Qed.

Lemma mem_push_success (h : gmap Z cstring) (q : queue_t Z) (p a : Z)
  (s : cstring) :
  queue_wf q → shutdown q = false → size q < capacity q →
  p ≠ 0 → h !! p = Some s →
  ∃ q', Mem.push h q p (Some a) = (Ret QUEUE_SUCCESS q', <[a := s]> h)
        ∧ queue_wf q'
        ∧ contents q' = contents q ++ [Some a].
Proof.
  intros Hwf Hsd Hroom Hp Hs. unfold Mem.push.
  destruct (Z.eqb_spec p 0) as [|_]; [done|].
  rewrite queue_push_cases.
  destruct (queue_push_resume_cases (λ _, Some a) q p Hwf)
    as [(_ & Hfull & _)|[(_ & Hsd')|[(_ & _ & _ & Hdup)
       |(c & q' & Hdup & E & _ & _ & Hwf' & Hcont & _)]]];
    [lia|congruence|done|].
  injection Hdup as <-. rewrite E. cbn [QUEUE_SUCCESS]. rewrite Hs.
  by exists q'.
Qed.

(** The strings a queue of pointers holds, before and after a push. *)
Lemma mem_push_deref (h : gmap Z cstring) (q : queue_t Z) (p a : Z)
  (s : cstring) (q' : queue_t Z) :
  h !! a = None →
  (∀ p', Some p' ∈ contents q → is_Some (h !! p')) →
  contents q' = contents q ++ [Some a] →
  Mem.deref (<[a := s]> h) q' = Mem.deref h q ++ [Some s].
Proof.
  intros Ha Hall Hcont. unfold Mem.deref. rewrite Hcont, fmap_app. simpl.
  rewrite lookup_insert_eq. f_equal.
  apply list_fmap_ext. intros i [p'|] Hi; simpl; [|done].
  rewrite lookup_insert_ne; [done|].
  intros ->. destruct (Hall p') as [? Hsome].
  { by eapply list_elem_of_lookup_2. }
  congruence.
Qed.


(** What every worker does with its transformed string:
    [queue_push(ctx->output, transformed); free(transformed);].  The queue
    still holds the string afterwards, because it holds the copy. *)
Lemma mem_push_then_free (h : gmap Z cstring) (q q' : queue_t Z) (p a : Z)
  (s : cstring) :
  h !! p = Some s → h !! a = None →
  (∀ p', Some p' ∈ contents q → is_Some (h !! p') ∧ p' ≠ p) →
  contents q' = contents q ++ [Some a] →
  Mem.deref (Mem.free (<[a := s]> h) p) q' = Mem.deref h q ++ [Some s]
  ∧ Mem.free (<[a := s]> h) p !! p = None.
Proof.
  intros Hp Ha Hall Hcont.
  assert (Hne : a ≠ p) by congruence.
  split; [|apply lookup_delete_eq].
  rewrite <- (mem_push_deref h q p a s q' Ha);
    [|intros p' Hp'; by destruct (Hall p' Hp')|done].
  unfold Mem.deref, Mem.free. apply list_fmap_ext. intros i [p'|] Hi; simpl; [|done].
  rewrite lookup_delete_ne; [done|]. intros <-.
  rewrite Hcont in Hi. apply list_elem_of_lookup_2 in Hi.
  apply elem_of_app in Hi as [Hi|Hi%list_elem_of_singleton].
  - by destruct (Hall _ Hi).
  - congruence.
Qed.

(** C7, as the code has it -- A successful push copies.  [queue_push]
    stores the address [a] of a fresh copy made by [strdup]; the caller's
    block [p] stays allocated with its string and is not in the queue, so
    the caller still owns it and must release it; the pop that follows the
    items already enqueued delivers the copy [a], a block other than [p]
    holding the same string. *)
Theorem push_copies_item (h : gmap Z cstring) (q : queue_t Z) (p a : Z)
  (s : cstring) :
  queue_wf q → shutdown q = false → size q < capacity q →
  p ≠ 0 → h !! p = Some s → h !! a = None →
  ∃ q', Mem.push h q p (Some a) = (Ret QUEUE_SUCCESS q', <[a := s]> h)
        ∧ contents q' = contents q ++ [Some a]
        ∧ a ≠ p
        ∧ (<[a := s]> h) !! a = Some s
        ∧ (<[a := s]> h) !! p = Some s
        ∧ (queue_run (replicate (S (length (contents q))) Pop) q').1
          = (PopOk <$> contents q) ++ [PopOk (Some a)].
Proof.
  intros Hwf Hsd Hroom Hp Hs Ha.
  destruct (mem_push_success h q p a s Hwf Hsd Hroom Hp Hs)
    as (q' & E & Hwf' & Hcont).
  assert (Hne : a ≠ p) by congruence.
  exists q'. split_and!; try done.
  - by rewrite lookup_insert_eq.
  - by rewrite lookup_insert_ne.
  - rewrite (queue_pops_all (S (length (contents q))) q' Hwf').
    + by rewrite Hcont, fmap_app.
    + rewrite Hcont, length_app. simpl. lia.
Qed.

Lemma push_copies_item_witness :
  let h : gmap Z cstring := {[ 1 := list_ascii_of_string "hi" ]} in
  let q : queue_t Z := mk_queue [None; None] 2 0 0 0 false in
  queue_wf q
  ∧ ∃ q', Mem.push h q 1 (Some 2)
          = (Ret QUEUE_SUCCESS q', <[2 := list_ascii_of_string "hi"]> h)
          ∧ contents q' = [Some 2].
Proof.
  intros h q.
  assert (Hwf : queue_wf q).
  { split; simpl; unfold SIZE_MAX; try lia; done. }
  split; [exact Hwf|].
  destruct (push_copies_item h q 1 2 (list_ascii_of_string "hi") Hwf
              eq_refl ltac:(simpl; lia) ltac:(lia) eq_refl eq_refl)
    as (q' & E & Hc & _).
  exists q'. split; [exact E|exact Hc].
Defined.

(** C7, as the specification words it, fails: after a successful push of
    the block at address 1 the queue holds address 2, and that is what the
    next pop delivers; block 1 is still allocated, still the caller's. *)
Lemma push_does_not_take_the_item :
  let h : gmap Z cstring := {[ 1 := list_ascii_of_string "hi" ]} in
  let q : queue_t Z := mk_queue [None; None] 2 0 0 0 false in
  ∃ q' h' q'',
    Mem.push h q 1 (Some 2) = (Ret QUEUE_SUCCESS q', h')
    ∧ (Some 1 ∉ contents q')
    ∧ queue_pop q' = Ret (QUEUE_SUCCESS, Some 2) q''
    ∧ ¬ (∃ q3, queue_pop q' = Ret (QUEUE_SUCCESS, Some 1) q3)
    ∧ h' !! 1 = Some (list_ascii_of_string "hi").
Proof.
  intros h q. eexists _, _, _. split; [reflexivity|].
  split_and!.
  - cbv [contents nth_slot slot_read slot_write]. simpl.
    rewrite list_elem_of_singleton. congruence.
  - reflexivity.
  - intros [q3 H]. discriminate H.
  - reflexivity.
Qed.

(** * Properties of the pipeline *)

Lemma sum_from_insert {X : Type} (f : nat → X → nat) (k : nat) (l : list X)
  (i : nat) (x y : X) :
  l !! i = Some x →
  (sum_from f k (<[i := y]> l) + f (k + i)%nat x
   = sum_from f k l + f (k + i)%nat y)%nat.
Proof.
  revert k i. induction l as [|z l IH]; intros k i Hi; [done|].
  destruct i as [|i]; simpl in *.
  - injection Hi as ->. rewrite Nat.add_0_r. lia.
  - specialize (IH (S k) i Hi).
    replace (k + S i)%nat with (S k + i)%nat by lia. lia.
Qed.

Lemma weight_succ (N i : nat) :
  (i < N)%nat → weight N i = (weight N (S i) + 4)%nat.
Proof. unfold weight. lia. Qed.

(** ** The local effect of each thread's step *)

Lemma process_thread_local (N i : nat) (p : plugin) (mem : alloc) (w : worker)
  (qin qout : queue_t cstring) w' qin' qout' :
  (i < N)%nat → queue_wf qin → queue_wf qout →
  process_thread p mem w qin qout = Some (w', qin', qout') →
  queue_wf qin' ∧ queue_wf qout'
  ∧ stop_requested w' = stop_requested w
  ∧ (shutdown qin = true → shutdown qin' = true)
  ∧ (shutdown qout = true → shutdown qout' = true)
  ∧ (worker_rank N i (w_pc w')
     + weight N i * Z.to_nat (size qin')
     + weight N (S i) * Z.to_nat (size qout')
     < worker_rank N i (w_pc w)
       + weight N i * Z.to_nat (size qin)
       + weight N (S i) * Z.to_nat (size qout))%nat.
Proof.
  intros Hi Hin Hout. unfold process_thread.
  pose proof (weight_succ N i Hi) as Hw.
  destruct (w_pc w) as [| |ret str| |t|] eqn:Hpc.
  - intros [= <- <- <-]. split_and!; try done.
    destruct (stop_requested w); simpl; lia.
  - destruct (queue_pop_cases qin Hin)
      as [(E & _)|[(E & Hsd & Hz)|(x & q' & E & _ & Hwf' & _ & Hsz & Hsd)]];
      rewrite E; [done| |].
    + intros [= <- <- <-]. split_and!; try done. simpl. lia.
    + intros [= <- <- <-]. split_and!; try done; [congruence|].
      simpl. pose proof (wf_size _ Hwf'). nia.
  - destruct ((ret =? QUEUE_SHUTDOWN) || stop_requested w) eqn:Hc.
    + destruct (plugin_kind_of p); intros [= <- <- <-];
        split_and!; try done; simpl; destruct (ret =? QUEUE_SHUTDOWN); lia.
    + apply orb_false_iff in Hc as [Hc _].
      destruct (ret =? 0), str as [x|];
        try (intros [= <- <- <-]; split_and!; try done; simpl; rewrite Hc; lia).
      destruct (plugin_transform p mem x);
        intros [= <- <- <-]; split_and!; try done; simpl; rewrite Hc; lia.
  - intros [= <- <- <-]. split_and!; try done.
    + by apply queue_shutdown_wf.
    + simpl. lia.
  - rewrite queue_push_cases.
    destruct (queue_push_resume_cases (strdup (mem 0%nat)) qout t Hout)
      as [(E & _)|[(E & _)|[(E & _)
         |(c & q' & _ & E & Hsd0 & _ & Hwf' & _ & _ & Hsz & Hsd)]]];
      rewrite E; [done| | |];
      intros [= <- <- <-]; split_and!; try done; simpl; try lia;
      congruence.
  - done.
Qed.

Lemma input_thread_local (N : nat) (mem : alloc) (pc : reader_pc)
  (input : list ascii) (q : queue_t cstring) pc' input' q' :
  queue_wf q →
  input_thread mem pc input q = Some (pc', input', q') →
  queue_wf q'
  ∧ (shutdown q = true → shutdown q' = true)
  ∧ (reader_rank N pc' + (weight N 0 + 2) * length input'
     + weight N 0 * Z.to_nat (size q')
     < reader_rank N pc + (weight N 0 + 2) * length input
       + weight N 0 * Z.to_nat (size q))%nat.
Proof.
  intros Hwf. unfold input_thread. destruct pc as [|line| |].
  - destruct (fgets MAX_LINE_LENGTH input) as [[chunk rest]|] eqn:Hg.
    + destruct (fgets_consumes _ _ _ Hg) as [_ Hlt].
      destruct (cstring_eqb (chomp chunk) END_MARK);
        intros [= <- <- <-]; split_and!; try done; simpl; nia.
    + intros [= <- <- <-]. split_and!; try done. simpl. lia.
  - rewrite queue_push_cases.
    destruct (queue_push_resume_cases (strdup (mem 0%nat)) q line Hwf)
      as [(E & _)|[(E & _)|[(E & _)
         |(c & q1 & _ & E & Hsd0 & _ & Hwf' & _ & _ & Hsz & Hsd)]]];
      rewrite E; [done| | |];
      intros [= <- <- <-]; split_and!; try done; simpl; try lia;
      congruence.
  - intros [= <- <- <-]. split_and!; try done.
    + by apply queue_shutdown_wf.
    + simpl. lia.
  - done.
Qed.

Lemma output_thread_local (pc : writer_pc) (out : list (option cstring))
  (q : queue_t cstring) pc' out' q' :
  queue_wf q →
  output_thread pc out q = Some (pc', out', q') →
  queue_wf q'
  ∧ (shutdown q = true → shutdown q' = true)
  ∧ (writer_rank pc' + Z.to_nat (size q')
     < writer_rank pc + Z.to_nat (size q))%nat.
Proof.
  intros Hwf. unfold output_thread. destruct pc; [|done].
  destruct (queue_pop_cases q Hwf)
    as [(E & _)|[(E & Hsd & Hz)|(x & q1 & E & _ & Hwf' & _ & Hsz & Hsd)]];
    rewrite E; [done| |]; simpl.
  - intros [= <- <- <-]. split_and!; try done. simpl. lia.
  - intros [= <- <- <-]. split_and!; try done; [congruence|].
    simpl. pose proof (wf_size _ Hwf'). lia.
Qed.

(** ** Anatomy of a step *)

Lemma step_unfold (plugins : list plugin) (mem : alloc) (t : thread)
  (s s' : state) :
  step plugins mem t s = Some s' →
  (∀ c, main s ≠ MReturn c)
  ∧ match t with
    | Main => main_thread (length plugins) s = Some s'
    | Reader =>
        ∃ q pc input q',
          queues s !! 0%nat = Some q
          ∧ input_thread mem (reader s) (stdin s) q = Some (pc, input, q')
          ∧ s' = set_reader pc (set_stdin input (set_queue 0 q' s))
    | Writer =>
        ∃ q pc out q',
          queues s !! length plugins = Some q
          ∧ output_thread (writer s) (stdout s) q = Some (pc, out, q')
          ∧ s' = set_writer pc
                   (set_stdout out (set_queue (length plugins) q' s))
    | Worker i =>
        ∃ p w qin qout w' qin' qout',
          plugins !! i = Some p
          ∧ workers s !! i = Some w
          ∧ queues s !! i = Some qin
          ∧ queues s !! S i = Some qout
          ∧ process_thread p mem w qin qout = Some (w', qin', qout')
          ∧ s' = set_worker i w'
                   (set_queue (S i) qout' (set_queue i qin' s))
    end.
Proof.
  unfold step. intros Hstep.
  assert (Hm : ∀ c, main s ≠ MReturn c).
  { intros c Hc. by rewrite Hc in Hstep. }
  split; [done|].
  assert (Hbody :
    match t with
    | Main => main_thread (length plugins) s
    | Reader =>
        match queues s !! 0%nat with
        | Some q =>
            match input_thread mem (reader s) (stdin s) q with
            | Some (pc, input, q') =>
                Some (set_reader pc (set_stdin input (set_queue 0 q' s)))
            | None => None
            end
        | None => None
        end
    | Writer =>
        match queues s !! length plugins with
        | Some q =>
            match output_thread (writer s) (stdout s) q with
            | Some (pc, out, q') =>
                Some (set_writer pc
                        (set_stdout out (set_queue (length plugins) q' s)))
            | None => None
            end
        | None => None
        end
    | Worker i =>
        match plugins !! i, workers s !! i, queues s !! i, queues s !! S i with
        | Some p, Some w, Some qin, Some qout =>
            match process_thread p mem w qin qout with
            | Some (w', qin', qout') =>
                Some (set_worker i w'
                        (set_queue (S i) qout' (set_queue i qin' s)))
            | None => None
            end
        | _, _, _, _ => None
        end
    end = Some s').
  { destruct (main s); try done. }
  clear Hstep. destruct t as [| | |i].
  - done.
  - destruct (queues s !! 0%nat) as [q|]; [|done].
    destruct (input_thread _ _ _ _) as [[[pc input] q']|] eqn:E; [|done].
    injection Hbody as <-. by eexists _, _, _, _.
  - destruct (queues s !! length plugins) as [q|]; [|done].
    destruct (output_thread _ _ _) as [[[pc out] q']|] eqn:E; [|done].
    injection Hbody as <-. by eexists _, _, _, _.
  - destruct (plugins !! i) as [p|]; [|done].
    destruct (workers s !! i) as [w|]; [|done].
    destruct (queues s !! i) as [qin|]; [|done].
    destruct (queues s !! S i) as [qout|]; [|done].
    destruct (process_thread _ _ _ _ _) as [[[w' qin'] qout']|] eqn:E; [|done].
    injection Hbody as <-. by eexists _, _, _, _, _, _, _.
Qed.

Lemma step_fold (plugins : list plugin) (mem : alloc) (t : thread)
  (s : state) :
  (∀ c, main s ≠ MReturn c) →
  step plugins mem t s
  = match t with
    | Main => main_thread (length plugins) s
    | Reader =>
        match queues s !! 0%nat with
        | Some q =>
            match input_thread mem (reader s) (stdin s) q with
            | Some (pc, input, q') =>
                Some (set_reader pc (set_stdin input (set_queue 0 q' s)))
            | None => None
            end
        | None => None
        end
    | Writer =>
        match queues s !! length plugins with
        | Some q =>
            match output_thread (writer s) (stdout s) q with
            | Some (pc, out, q') =>
                Some (set_writer pc
                        (set_stdout out (set_queue (length plugins) q' s)))
            | None => None
            end
        | None => None
        end
    | Worker i =>
        match plugins !! i, workers s !! i, queues s !! i, queues s !! S i with
        | Some p, Some w, Some qin, Some qout =>
            match process_thread p mem w qin qout with
            | Some (w', qin', qout') =>
                Some (set_worker i w'
                        (set_queue (S i) qout' (set_queue i qin' s)))
            | None => None
            end
        | _, _, _, _ => None
        end
    end.
Proof.
  intros Hm. unfold step. destruct (main s) eqn:E; try done.
  exfalso. by eapply Hm.
Qed.

Lemma main_thread_cases (N : nat) (s s' : state) :
  length (workers s) = N →
  main_thread N s = Some s' →
  (∃ pc, s' = set_main pc s
         ∧ (main_rank N pc < main_rank N (main s))%nat)
  ∨ (∃ i w pc, workers s !! i = Some w
               ∧ s' = set_main pc (set_worker i (mk_worker (w_pc w) true) s)
               ∧ (main_rank N pc < main_rank N (main s))%nat)
  ∨ (∃ i q pc, queues s !! i = Some q
               ∧ s' = set_main pc (set_queue i (queue_shutdown q) s)
               ∧ (main_rank N pc < main_rank N (main s))%nat).
Proof.
  intros HN. unfold main_thread.
  destruct (main s) as [| |i|i|i|i| |c] eqn:Hm.
  - destruct (reader s); try done. intros [= <-]. left. eexists.
    split; [done|]. simpl. lia.
  - destruct (writer s); try done. intros [= <-]. left. eexists.
    split; [done|]. simpl. lia.
  - destruct (Nat.ltb_spec i N).
    + destruct (workers s !! i) as [w|] eqn:Hw; [|done]. intros [= <-].
      right; left. eexists _, _, _. split; [done|]. split; [done|].
      simpl. lia.
    + intros [= <-]. left. eexists. split; [done|]. simpl. lia.
  - destruct (Nat.ltb_spec i N).
    + destruct (workers s !! i) as [w|] eqn:Hw; [|done]. intros [= <-].
      right; left. eexists _, _, _. split; [done|]. split; [done|].
      simpl. lia.
    + intros [= <-]. left. eexists. split; [done|]. simpl. lia.
  - destruct (queues s !! i) as [q|] eqn:Hq; [|done]. intros [= <-].
    right; right. eexists _, _, _. split; [done|]. split; [done|].
    simpl. lia.
  - destruct (workers s !! i) as [w|] eqn:Hw; [|done]. simpl.
    destruct (w_pc w); try done. intros [= <-].
    left. eexists. split; [done|]. simpl.
    apply lookup_lt_Some in Hw. lia.
  - intros [= <-]. left. eexists. split; [done|]. simpl. lia.
  - done.
Qed.

(** ** Every step keeps the shape and uses up some of the measure *)

Lemma queues_wf_insert (qs : list (queue_t cstring)) (i : nat)
  (q' : queue_t cstring) :
  (∀ k q, qs !! k = Some q → queue_wf q) → queue_wf q' →
  ∀ k q, <[i := q']> qs !! k = Some q → queue_wf q.
Proof.
  intros Hall Hq' k q Hk.
  destruct (decide (i = k)) as [->|Hne].
  - destruct (decide (k < length qs)%nat) as [Hlt|Hge].
    + rewrite list_lookup_insert_eq in Hk by done. by injection Hk as <-.
    + rewrite list_insert_ge in Hk by lia. by eapply Hall.
  - rewrite list_lookup_insert_ne in Hk by done. by eapply Hall.
Qed.

Lemma step_well_formed (plugins : list plugin) (mem : alloc) (t : thread)
  (s s' : state) :
  well_formed plugins s → step plugins mem t s = Some s' →
  well_formed plugins s'.
Proof.
  intros (Hlq & Hlw & Hwf) Hstep.
  apply step_unfold in Hstep as [_ Hstep]. destruct t as [| | |i].
  - destruct (main_thread_cases _ _ _ Hlw Hstep)
      as [(pc & -> & _)|[(i & w & pc & Hw & -> & _)
         |(i & q & pc & Hq & -> & _)]];
      split_and!; simpl; rewrite ?length_insert; try done.
    apply queues_wf_insert; [done|]. apply queue_shutdown_wf. by eapply Hwf.
  - destruct Hstep as (q & pc & input & q' & Hq & Hin & ->).
    destruct (input_thread_local 0 _ _ _ _ _ _ _ (Hwf _ _ Hq) Hin) as (Hq' & _).
    split_and!; simpl; rewrite ?length_insert; try done.
    by apply queues_wf_insert.
  - destruct Hstep as (q & pc & out & q' & Hq & Hout & ->).
    destruct (output_thread_local _ _ _ _ _ _ (Hwf _ _ Hq) Hout) as (Hq' & _).
    split_and!; simpl; rewrite ?length_insert; try done.
    by apply queues_wf_insert.
  - destruct Hstep as (p & w & qin & qout & w' & qin' & qout'
                       & Hp & Hw & Hqi & Hqo & Hpt & ->).
    apply lookup_lt_Some in Hp as Hi.
    destruct (process_thread_local _ i _ _ _ _ _ _ _ _ Hi
                (Hwf _ _ Hqi) (Hwf _ _ Hqo) Hpt) as (Hi' & Ho' & _).
    split_and!; simpl; rewrite ?length_insert; try done.
    apply queues_wf_insert; [|done]. by apply queues_wf_insert.
Qed.

Lemma step_measure (plugins : list plugin) (mem : alloc) (t : thread)
  (s s' : state) :
  well_formed plugins s → step plugins mem t s = Some s' →
  (measure plugins s' < measure plugins s)%nat.
Proof.
  intros (Hlq & Hlw & Hwf) Hstep.
  apply step_unfold in Hstep as [_ Hstep]. unfold measure.
  destruct t as [| | |i].
  - destruct (main_thread_cases _ _ _ Hlw Hstep)
      as [(pc & -> & Hr)|[(i & w & pc & Hw & -> & Hr)
         |(i & q & pc & Hq & -> & Hr)]]; simpl.
    + lia.
    + pose proof (sum_from_insert
        (λ i w, worker_rank (length plugins) i (w_pc w)) 0 (workers s) i w
        (mk_worker (w_pc w) true) Hw) as Hs. simpl in Hs. lia.
    + pose proof (sum_from_insert
        (λ j q, (weight (length plugins) j * Z.to_nat (size q))%nat)
        0 (queues s) i q (queue_shutdown q) Hq) as Hs. simpl in Hs. lia.
  - destruct Hstep as (q & pc & input & q' & Hq & Hin & ->).
    destruct (input_thread_local (length plugins) _ _ _ _ _ _ _
                (Hwf _ _ Hq) Hin) as (_ & _ & Hm).
    pose proof (sum_from_insert
      (λ j q, (weight (length plugins) j * Z.to_nat (size q))%nat)
      0 (queues s) 0 q q' Hq) as Hs. simpl in *. lia.
  - destruct Hstep as (q & pc & out & q' & Hq & Hout & ->).
    destruct (output_thread_local _ _ _ _ _ _ (Hwf _ _ Hq) Hout)
      as (_ & _ & Hm).
    pose proof (sum_from_insert
      (λ j q, (weight (length plugins) j * Z.to_nat (size q))%nat)
      0 (queues s) (length plugins) q q' Hq) as Hs.
    simpl in *.
    assert (Hw1 : weight (length plugins) (length plugins) = 1%nat)
      by (unfold weight; lia).
    rewrite Hw1 in Hs. lia.
  - destruct Hstep as (p & w & qin & qout & w' & qin' & qout'
                       & Hp & Hw & Hqi & Hqo & Hpt & ->).
    apply lookup_lt_Some in Hp as Hi.
    destruct (process_thread_local (length plugins) i _ _ _ _ _ _ _ _ Hi
                (Hwf _ _ Hqi) (Hwf _ _ Hqo) Hpt) as (_ & _ & _ & _ & _ & Hm).
    pose proof (sum_from_insert
      (λ i w, worker_rank (length plugins) i (w_pc w)) 0 (workers s) i w w'
      Hw) as Hs1.
    pose proof (sum_from_insert
      (λ j q, (weight (length plugins) j * Z.to_nat (size q))%nat)
      0 (queues s) i qin qin' Hqi) as Hs2.
    assert (Hqo' : <[i := qin']> (queues s) !! S i = Some qout)
      by (rewrite list_lookup_insert_ne by lia; done).
    pose proof (sum_from_insert
      (λ j q, (weight (length plugins) j * Z.to_nat (size q))%nat)
      0 (<[i := qin']> (queues s)) (S i) qout qout' Hqo') as Hs3.
    simpl in *. lia.
Qed.

(** Executions keep the shape and are no longer than the measure of the
    state they start from. *)
Lemma run_well_formed (plugins : list plugin) (sched : list (thread * alloc))
  (s s' : state) :
  well_formed plugins s → run plugins sched s = Some s' →
  well_formed plugins s'
  ∧ (length sched + measure plugins s' ≤ measure plugins s)%nat.
Proof.
  revert s. induction sched as [|[t mem] sched IH]; intros s Hwf Hrun.
  - injection Hrun as <-. split; [done|simpl; lia].
  - simpl in Hrun.
    destruct (step plugins mem t s) as [s1|] eqn:Hstep; [|done].
    pose proof (step_well_formed _ _ _ _ _ Hwf Hstep) as Hwf1.
    pose proof (step_measure _ _ _ _ _ Hwf Hstep) as Hm.
    destruct (IH s1 Hwf1 Hrun) as [Hwf' Hlen].
    split; [done|]. simpl. lia.
Qed.

(** ** What is in flight, and how a step moves it *)

Section in_flight_facts.
Context (plugins : list plugin).

Lemma chain_drop (i : nat) (p : plugin) (x : cstring) :
  plugins !! i = Some p →
  chain (drop i plugins) x
  = match plugin_transform p all_ok x with
    | Some y => chain (drop (S i) plugins) y
    | None => None
    end.
Proof. intros Hp. by rewrite (drop_S _ _ _ Hp). Qed.

Lemma chain_drop_all (x : cstring) :
  chain (drop (length plugins) plugins) x = Some x.
Proof. by rewrite drop_all. Qed.

Lemma flow_app (j : nat) (xs ys : list cstring) :
  flow plugins j (xs ++ ys) = flow plugins j xs ++ flow plugins j ys.
Proof. apply omap_app. Qed.

Lemma qflow_push (j : nat) (q q' : queue_t cstring) (c : cstring) :
  contents q' = contents q ++ [Some c] →
  qflow plugins j q' = qflow plugins j q ++ flow plugins j [c].
Proof. intros H. unfold qflow. by rewrite H, omap_app. Qed.

Lemma qflow_pop (j : nat) (q q' : queue_t cstring) (x : cstring) :
  contents q = Some x :: contents q' →
  qflow plugins j q = flow plugins j [x] ++ qflow plugins j q'.
Proof.
  intros H. unfold qflow, flow. rewrite H. simpl.
  by destruct (chain (drop j plugins) x).
Qed.

Lemma qflow_empty (j : nat) (q : queue_t cstring) :
  size q = 0 → qflow plugins j q = [].
Proof. intros H. unfold qflow. by rewrite contents_nil. Qed.

Lemma in_flight_ext (s s' : state) (n : nat) :
  (∀ j, (j ≤ n)%nat → queue_flow plugins s' j = queue_flow plugins s j) →
  (∀ i, (i < n)%nat → hand_flow plugins s' i = hand_flow plugins s i) →
  in_flight plugins s' n = in_flight plugins s n.
Proof.
  induction n as [|n IH]; intros HQ HH; simpl.
  - apply HQ. lia.
  - rewrite HQ, HH by lia. rewrite IH; [done| |]; intros; [apply HQ|apply HH]; lia.
Qed.

Lemma in_flight_above (s s' : state) (k n : nat) :
  (k ≤ n)%nat →
  in_flight plugins s' k = in_flight plugins s k →
  (∀ j, (k < j ≤ n)%nat → queue_flow plugins s' j = queue_flow plugins s j) →
  (∀ i, (k ≤ i < n)%nat → hand_flow plugins s' i = hand_flow plugins s i) →
  in_flight plugins s' n = in_flight plugins s n.
Proof.
  intros Hk Hbase HQ HH. induction n as [|n IH].
  - by replace k with 0%nat in Hbase by lia.
  - destruct (decide (k = S n)) as [->|Hne]; [done|]. simpl.
    rewrite HQ, HH by lia. rewrite IH; [done|lia| |]; intros; [apply HQ|apply HH]; lia.
Qed.

Lemma in_flight_above_hand (s s' : state) (k n : nat) :
  (k < n)%nat →
  hand_flow plugins s' k ++ in_flight plugins s' k
  = hand_flow plugins s k ++ in_flight plugins s k →
  (∀ j, (k < j ≤ n)%nat → queue_flow plugins s' j = queue_flow plugins s j) →
  (∀ i, (k < i < n)%nat → hand_flow plugins s' i = hand_flow plugins s i) →
  in_flight plugins s' n = in_flight plugins s n.
Proof.
  intros Hk Hbase HQ HH.
  apply (in_flight_above s s' (S k) n); [lia| |intros; apply HQ; lia
                                          |intros; apply HH; lia].
  simpl. rewrite Hbase, HQ by lia. done.
Qed.

Lemma in_flight_bottom (s s' : state) (n : nat) (f : list cstring) :
  queue_flow plugins s' 0 = queue_flow plugins s 0 ++ f →
  (∀ j, (0 < j ≤ n)%nat → queue_flow plugins s' j = queue_flow plugins s j) →
  (∀ i, (i < n)%nat → hand_flow plugins s' i = hand_flow plugins s i) →
  in_flight plugins s' n = in_flight plugins s n ++ f.
Proof.
  intros H0 HQ HH. induction n as [|n IH]; simpl; [done|].
  rewrite HQ, HH by lia. rewrite IH; [|intros; apply HQ; lia|intros; apply HH; lia].
  by rewrite !app_assoc.
Qed.

Lemma in_flight_top (s s' : state) (n : nat) (a : list cstring) :
  queue_flow plugins s n = a ++ queue_flow plugins s' n →
  (∀ j, (j < n)%nat → queue_flow plugins s' j = queue_flow plugins s j) →
  (∀ i, (i < n)%nat → hand_flow plugins s' i = hand_flow plugins s i) →
  in_flight plugins s n = a ++ in_flight plugins s' n.
Proof.
  intros Hn HQ HH. destruct n as [|n]; simpl; [done|].
  rewrite Hn, HH by lia.
  rewrite (in_flight_ext s s' n); [by rewrite <- app_assoc| |];
    intros; [apply HQ|apply HH]; lia.
Qed.

(** The flows of a state with one queue or one worker replaced. *)
Lemma queue_flow_set_queue_ne (s : state) (k j : nat) (q : queue_t cstring) :
  k ≠ j →
  queue_flow plugins (set_queue k q s) j = queue_flow plugins s j.
Proof.
  intros Hne. unfold queue_flow. simpl. by rewrite list_lookup_insert_ne.
Qed.

Lemma queue_flow_set_queue_eq (s : state) (k : nat) (q q0 : queue_t cstring) :
  queues s !! k = Some q0 →
  queue_flow plugins (set_queue k q s) k = qflow plugins k q.
Proof.
  intros Hk. unfold queue_flow. simpl.
  rewrite list_lookup_insert_eq; [done|]. by eapply lookup_lt_Some.
Qed.

Lemma queue_flow_lookup (s : state) (k : nat) (q : queue_t cstring) :
  queues s !! k = Some q → queue_flow plugins s k = qflow plugins k q.
Proof. intros Hk. unfold queue_flow. by rewrite Hk. Qed.

Lemma hand_flow_set_worker_ne (s : state) (i j : nat) (w : worker) :
  i ≠ j →
  hand_flow plugins (set_worker i w s) j = hand_flow plugins s j.
Proof.
  intros Hne. unfold hand_flow. simpl. by rewrite list_lookup_insert_ne.
Qed.

Lemma hand_flow_set_worker_eq (s : state) (i : nat) (w w0 : worker) :
  workers s !! i = Some w0 →
  hand_flow plugins (set_worker i w s) i = hand plugins i (w_pc w).
Proof.
  intros Hi. unfold hand_flow. simpl.
  rewrite list_lookup_insert_eq; [done|]. by eapply lookup_lt_Some.
Qed.

Lemma hand_flow_lookup (s : state) (i : nat) (w : worker) :
  workers s !! i = Some w → hand_flow plugins s i = hand plugins i (w_pc w).
Proof. intros Hi. unfold hand_flow. by rewrite Hi. Qed.

End in_flight_facts.

Lemma set_queue_id (s : state) (k : nat) (q : queue_t cstring) :
  queues s !! k = Some q → set_queue k q s = s.
Proof.
  intros Hk. destruct s. unfold set_queue. simpl in *.
  by rewrite list_insert_id.
Qed.

(** Closed and drained queues, from one state to the next. *)
Lemma closed_at_set_queue (s : state) (k j : nat) (q q0 : queue_t cstring) :
  queues s !! k = Some q0 →
  closed_at (set_queue k q s) j
  ↔ (if decide (k = j) then shutdown q = true else closed_at s j).
Proof.
  intros Hk. unfold closed_at. simpl. case_decide as Hd.
  - subst j. rewrite list_lookup_insert_eq by (by eapply lookup_lt_Some).
    simpl. split; congruence.
  - by rewrite list_lookup_insert_ne.
Qed.

Lemma drained_at_set_queue (s : state) (k j : nat) (q q0 : queue_t cstring) :
  queues s !! k = Some q0 →
  drained_at (set_queue k q s) j
  ↔ (if decide (k = j) then shutdown q = true ∧ size q = 0
     else drained_at s j).
Proof.
  intros Hk. unfold drained_at. simpl. case_decide as Hd.
  - subst j. rewrite list_lookup_insert_eq by (by eapply lookup_lt_Some).
    split; [by intros (q1 & [= <-] & ? & ?)|intros [? ?]; by exists q].
  - by rewrite list_lookup_insert_ne.
Qed.

Lemma drained_closed (s : state) (k : nat) : drained_at s k → closed_at s k.
Proof. intros (q & Hq & Hsd & _). unfold closed_at. by rewrite Hq, <- Hsd. Qed.

Lemma worker_ok_mono (s s' : state) (i : nat) (w : worker) :
  (∀ k, drained_at s k → drained_at s' k) →
  (∀ k, closed_at s k → closed_at s' k) →
  (closed_at s' (S i) → closed_at s (S i)) →
  worker_ok s i w → worker_ok s' i w.
Proof.
  intros Hd Hc Hc' (Hstop & Hpc & Hcl). split_and!; [done| |by intros ?%Hc'%Hcl].
  destruct (w_pc w); try done.
  - destruct Hpc as [?|(? & ? & ?%Hd)]; [by left|by right].
  - by apply Hd.
  - destruct Hpc as [?%Hd ?%Hc]. done.
Qed.

(** ** The reader on a well-formed input *)

Lemma feed_nil (after : list ascii) :
  feed [] after = END_MARK ++ NEWLINE :: after.
Proof. done. Qed.

Lemma feed_cons (l : cstring) (rem : list cstring) (after : list ascii) :
  feed (l :: rem) after = l ++ NEWLINE :: feed rem after.
Proof. unfold feed. simpl. by rewrite <- !app_assoc. Qed.

Lemma fgets_line (l rest : list ascii) :
  NEWLINE ∉ l → (length l < MAX_LINE_LENGTH - 1)%nat →
  fgets MAX_LINE_LENGTH (l ++ NEWLINE :: rest) = Some (l ++ [NEWLINE], rest).
Proof.
  intros Hl Hlen. rewrite fgets_nonempty by (by destruct l).
  by rewrite fgets_bytes_line.
Qed.

Lemma fgets_feed_nil (after : list ascii) :
  fgets MAX_LINE_LENGTH (feed [] after) = Some (END_MARK ++ [NEWLINE], after)
  ∧ chomp (END_MARK ++ [NEWLINE]) = END_MARK.
Proof.
  split; [|by vm_compute].
  rewrite feed_nil. apply fgets_line.
  - refine (bool_decide_unpack _ _). by vm_compute.
  - change (length END_MARK) with 5%nat. unfold MAX_LINE_LENGTH. lia.
Qed.

Lemma fgets_feed_cons (l : cstring) (rem : list cstring) (after : list ascii) :
  short_line l →
  fgets MAX_LINE_LENGTH (feed (l :: rem) after)
  = Some (l ++ [NEWLINE], feed rem after)
  ∧ chomp (l ++ [NEWLINE]) = l
  ∧ cstring_eqb l END_MARK = false.
Proof.
  intros (Hn & Hl & Hlen & Hend). split_and!.
  - rewrite feed_cons. by apply fgets_line.
  - by apply chomp_line.
  - unfold cstring_eqb. by rewrite bool_decide_eq_false_2.
Qed.

(** ** The invariant is kept *)

Section invariant_facts.
Context (plugins : list plugin) (lines : list cstring) (after : list ascii).

Lemma closed_at_queues (s s' : state) (k : nat) :
  queues s' = queues s → closed_at s' k ↔ closed_at s k.
Proof. intros H. unfold closed_at. by rewrite H. Qed.

Lemma drained_at_queues (s s' : state) (k : nat) :
  queues s' = queues s → drained_at s' k ↔ drained_at s k.
Proof. intros H. unfold drained_at. by rewrite H. Qed.

Lemma in_flight_same (s s' : state) (n : nat) :
  queues s' = queues s → workers s' = workers s →
  in_flight plugins s' n = in_flight plugins s n.
Proof.
  intros Hq Hw. apply in_flight_ext; intros; unfold queue_flow, hand_flow;
    by rewrite ?Hq, ?Hw.
Qed.

Lemma workers_ok_same (s s' : state) :
  queues s' = queues s → workers s' = workers s →
  (∀ i w, workers s !! i = Some w → worker_ok s i w) →
  ∀ i w, workers s' !! i = Some w → worker_ok s' i w.
Proof.
  intros Hq Hw Hall i w Hi. rewrite Hw in Hi.
  apply (worker_ok_mono s s'); [| | |by apply Hall].
  - intros k. by rewrite (drained_at_queues s s').
  - intros k. by rewrite (closed_at_queues s s').
  - by rewrite (closed_at_queues s s').
Qed.

Lemma running_step_reader (s : state) (q : queue_t cstring) pc input q' :
  running plugins lines after s →
  queues s !! 0%nat = Some q →
  input_thread all_ok (reader s) (stdin s) q = Some (pc, input, q') →
  well_formed plugins (set_reader pc (set_stdin input (set_queue 0 q' s))) →
  running plugins lines after
    (set_reader pc (set_stdin input (set_queue 0 q' s))).
Proof.
  intros (out & rem & Hwf & Hmain & Hout & (Hshort & Hrd & Hcl0) & Hstream
          & Hworkers & Hwriter) Hq Hin Hwf'.
  assert (Hm : main s = MJoinInput ∨ reader s = RReturn)
    by (destruct Hmain as [?|[_ ?]]; [by left|by right]).
  unfold input_thread in Hin. destruct (reader s) as [|l| |] eqn:Hr.
  - (* fgets *)
    destruct Hm as [Hm|?]; [|done].
    assert (Hopen : ¬ closed_at s 0) by (intros ?%Hcl0; done).
    assert (Hnext : ∀ pc' input' rem',
      pc' ≠ RReturn → Forall short_line rem' →
      match pc' with
      | RFgets | RPush _ => input' = feed rem' after
      | _ => rem' = []
      end →
      rhand pc' ++ rem' = rem →
      well_formed plugins (set_reader pc' (set_stdin input' s)) →
      running plugins lines after (set_reader pc' (set_stdin input' s))).
    { intros pc' input' rem' Hpc' Hshort' Hrd' Hrem Hwf1.
      exists out, rem'. split_and!.
      - done.
      - by left.
      - done.
      - split_and!; [done|done|]. simpl.
        rewrite (closed_at_queues s) by done. split; [done|done].
      - rewrite (in_flight_same s) by done. simpl. by rewrite Hrem.
      - by apply (workers_ok_same s).
      - intros Hw. rewrite (drained_at_queues s) by done. by apply Hwriter. }
    destruct rem as [|l rem].
    + destruct (fgets_feed_nil after) as [Hg Hc].
      rewrite Hrd, Hg, Hc in Hin. injection Hin as <- <- <-.
      rewrite set_queue_id in * by done. by apply (Hnext _ _ []).
    + apply Forall_cons in Hshort as [Hl Hshort].
      destruct (fgets_feed_cons l rem after Hl) as (Hg & Hc & Hne).
      rewrite Hrd, Hg, Hc, Hne in Hin. injection Hin as <- <- <-.
      rewrite set_queue_id in * by done. by apply (Hnext _ _ rem).
  - (* queue_push *)
    destruct Hm as [Hm|?]; [|done].
    assert (Hopen : shutdown q = false).
    { destruct (shutdown q) eqn:Hsd; [|done].
      assert (closed_at s 0) as ?%Hcl0
        by (unfold closed_at; rewrite Hq; simpl; by rewrite Hsd).
      done. }
    destruct Hwf as (Hlq & Hlw & Hqwf).
    rewrite queue_push_cases in Hin.
    destruct (queue_push_resume_cases (strdup (all_ok 0%nat)) q l (Hqwf _ _ Hq))
      as [(E & _)|[(E & Hsd)|[(E & _ & _ & Hdup)
         |(c & q1 & Hdup & E & _ & _ & Hwf1 & Hcont & _ & _ & Hsd1)]]];
      [by rewrite E in Hin|congruence|done|].
    rewrite E in Hin. injection Hin as <- <- <-. injection Hdup as <-.
    assert (Hcl : ∀ k, closed_at (set_queue 0 q1 s) k ↔ closed_at s k).
    { intros k. rewrite (closed_at_set_queue s 0 k q1 q Hq).
      case_decide as Hk; [subst k|done].
      unfold closed_at. rewrite Hq. simpl. rewrite Hopen, Hsd1. done. }
    assert (Hdr : ∀ k, drained_at s k → drained_at (set_queue 0 q1 s) k).
    { intros k Hk. rewrite (drained_at_set_queue s 0 k q1 q Hq).
      case_decide as Hk0; [subst k|done].
      destruct Hk as (q0 & Hq0 & Hsd0 & _). congruence. }
    exists out, rem. split_and!.
    + done.
    + by left.
    + done.
    + split_and!; [done|done|]. simpl.
      split; [by intros ?%Hcl%Hcl0|done].
    + simpl.
      rewrite (in_flight_bottom plugins s _ _ (flow plugins 0 [l])).
      * simpl in Hstream.
        rewrite <- Hstream. rewrite <- !app_assoc. f_equal. f_equal.
        change (l :: rem) with ([l] ++ rem). by rewrite flow_app.
      * unfold queue_flow. simpl.
        rewrite list_lookup_insert_eq by (by eapply lookup_lt_Some).
        rewrite Hq. simpl. by apply qflow_push.
      * intros j Hj. unfold queue_flow. simpl.
        by rewrite list_lookup_insert_ne by lia.
      * done.
    + intros i w Hw.
      apply (worker_ok_mono s); [done|by intros k ?%Hcl|by intros ?%Hcl|].
      by apply Hworkers.
    + intros Hw. by apply Hdr, Hwriter.
  - (* queue_shutdown *)
    destruct Hm as [Hm|?]; [|done].
    injection Hin as <- <- <-. subst rem.
    assert (Hcl : ∀ k, closed_at (set_queue 0 (queue_shutdown q) s) k
                       ↔ (k = 0%nat ∨ closed_at s k)).
    { intros k. rewrite (closed_at_set_queue s 0 k _ q Hq).
      case_decide as Hk; [subst k|]; simpl; [by split; [left|]|].
      split; [by right|by intros [?|?]]. }
    assert (Hdr : ∀ k, drained_at s k
                       → drained_at (set_queue 0 (queue_shutdown q) s) k).
    { intros k Hk. rewrite (drained_at_set_queue s 0 k _ q Hq).
      case_decide as Hk0; [subst k|done].
      destruct Hk as (q0 & Hq0 & Hsd0 & Hz). simpl. split; [done|congruence]. }
    exists out, []. split_and!.
    + done.
    + by left.
    + done.
    + split_and!; [done|done|]. simpl. split; [done|]. intros _.
      apply Hcl. by left.
    + simpl.
      rewrite (in_flight_ext plugins s); [done| |done].
      intros j Hj. unfold queue_flow. simpl.
      destruct (decide (j = 0%nat)) as [->|Hne].
      * rewrite list_lookup_insert_eq by (by eapply lookup_lt_Some).
        by rewrite Hq.
      * by rewrite list_lookup_insert_ne.
    + intros i w Hw.
      apply (worker_ok_mono s); [done|intros k ?; apply Hcl; by right| |].
      * intros [?|?]%Hcl; [done|done].
      * by apply Hworkers.
    + intros Hw. by apply Hdr, Hwriter.
  - done.
Qed.


Lemma running_step_writer (s : state) (q : queue_t cstring) pc out1 q' :
  running plugins lines after s →
  queues s !! length plugins = Some q →
  output_thread (writer s) (stdout s) q = Some (pc, out1, q') →
  well_formed plugins
    (set_writer pc (set_stdout out1 (set_queue (length plugins) q' s))) →
  running plugins lines after
    (set_writer pc (set_stdout out1 (set_queue (length plugins) q' s))).
Proof.
  intros (out & rem & Hwf & Hmain & Hout & (Hshort & Hrd & Hcl0) & Hstream
          & Hworkers & Hwriter) Hq Hstep Hwf'.
  unfold output_thread in Hstep. destruct (writer s) eqn:Hwr; [|done].
  destruct Hwf as (Hlq & Hlw & Hqwf).
  destruct (queue_pop_cases q (Hqwf _ _ Hq))
    as [(E & _)|[(E & Hsd & Hz)|(x & q1 & E & Hcont & Hwf1 & _ & Hsz & Hsd)]];
    rewrite E in Hstep; [done| |]; simpl in Hstep;
    injection Hstep as <- <- <-.
  - (* end of stream *)
    rewrite set_queue_id in * by done.
    exists out, rem. split_and!.
    + done.
    + done.
    + done.
    + split_and!; [done|done|]. simpl.
      by rewrite (closed_at_queues s).
    + simpl. by rewrite (in_flight_same s).
    + by apply (workers_ok_same s).
    + intros _. rewrite (drained_at_queues s) by done. by exists q.
  - (* one more line printed *)
    assert (Hcl : ∀ k, closed_at (set_queue (length plugins) q1 s) k
                       ↔ closed_at s k).
    { intros k. rewrite (closed_at_set_queue s _ k q1 q Hq).
      case_decide as Hk; [subst k|done].
      unfold closed_at. rewrite Hq. simpl. rewrite Hsd. split; congruence. }
    assert (Hdr : ∀ k, drained_at s k
                       → drained_at (set_queue (length plugins) q1 s) k).
    { intros k Hk. rewrite (drained_at_set_queue s _ k q1 q Hq).
      case_decide as Hk0; [subst k|done].
      destruct Hk as (q0 & Hq0 & _ & Hz).
      assert (q0 = q) as -> by congruence.
      by rewrite (contents_nil q Hz) in Hcont. }
    exists (out ++ [x]), rem. split_and!.
    + done.
    + done.
    + simpl. rewrite Hout, !fmap_app. simpl. by rewrite <- !app_assoc.
    + split_and!; [done|done|]. simpl.
      split; [by intros ?%Hcl%Hcl0|by intros ?%Hcl0%Hcl].
    + simpl. rewrite <- Hstream.
      rewrite (in_flight_top plugins s
                 (set_writer OPop (set_stdout (stdout s ++ [Some x])
                    (set_queue (length plugins) q1 s)))
                 (length plugins) [x]).
      * by rewrite <- !app_assoc.
      * unfold queue_flow. simpl.
        rewrite list_lookup_insert_eq by (by eapply lookup_lt_Some).
        rewrite Hq. simpl. rewrite (qflow_pop plugins _ q q1 x Hcont).
        unfold flow. simpl. by rewrite chain_drop_all.
      * intros j Hj. unfold queue_flow. simpl.
        by rewrite list_lookup_insert_ne by lia.
      * done.
    + intros i w Hw.
      apply (worker_ok_mono s); [done|by intros k ?%Hcl|by intros ?%Hcl|].
      by apply Hworkers.
    + done.
Qed.

(** A worker's step seen from the invariant: what changes, and what has to
    be shown of it. *)
Lemma running_worker_update (s s' : state) (i : nat) (w w' : worker) :
  running plugins lines after s →
  workers s !! i = Some w →
  workers s' = <[i := w']> (workers s) →
  stdin s' = stdin s → stdout s' = stdout s → reader s' = reader s →
  writer s' = writer s → main s' = main s →
  well_formed plugins s' →
  (∀ j, drained_at s j → drained_at s' j) →
  (∀ j, closed_at s j → closed_at s' j) →
  (∀ j, closed_at s' j → closed_at s j ∨ j = S i) →
  worker_ok s' i w' →
  in_flight plugins s' (length plugins) = in_flight plugins s (length plugins) →
  running plugins lines after s'.
Proof.
  intros (out & rem & Hwf & Hmain & Hout & (Hshort & Hrd & Hcl0) & Hstream
          & Hworkers & Hwriter)
    Hw Hws Hin Hso Hr Hwr Hm Hwf' Hdr Hcl Hcl' Hok Hfl.
  exists out, rem. split_and!.
  - done.
  - by rewrite Hm, Hr.
  - by rewrite Hso.
  - split_and!; [done|by rewrite Hr, Hin|]. rewrite Hr, <- Hcl0.
    split; [|by apply Hcl]. by intros [?|?]%Hcl'.
  - by rewrite Hfl, Hr.
  - intros j wj Hj. rewrite Hws in Hj.
    destruct (decide (i = j)) as [->|Hne].
    + rewrite list_lookup_insert_eq in Hj by (by eapply lookup_lt_Some).
      by injection Hj as <-.
    + rewrite list_lookup_insert_ne in Hj by done.
      apply (worker_ok_mono s); [done|done| |by apply Hworkers].
      intros [?|?]%Hcl'; [done|congruence].
  - rewrite Hwr. intros ?%Hwriter. by apply Hdr.
Qed.

Lemma closed_at_step (s s' : state) (i : nat) qin qout qin' qout' :
  queues s !! i = Some qin → queues s !! S i = Some qout →
  queues s' = <[S i := qout']> (<[i := qin']> (queues s)) →
  ∀ j, closed_at s' j
       ↔ (if decide (j = i) then shutdown qin' = true
          else if decide (j = S i) then shutdown qout' = true
          else closed_at s j).
Proof.
  intros Hi Ho Hq j. unfold closed_at. rewrite Hq.
  apply lookup_lt_Some in Hi as Hli. apply lookup_lt_Some in Ho as Hlo.
  repeat case_decide; subst.
  - rewrite list_lookup_insert_ne, list_lookup_insert_eq by lia.
    simpl. split; congruence.
  - rewrite list_lookup_insert_eq by (rewrite length_insert; lia).
    simpl. split; congruence.
  - by rewrite !list_lookup_insert_ne by lia.
Qed.

Lemma drained_at_step (s s' : state) (i : nat) qin qout qin' qout' :
  queues s !! i = Some qin → queues s !! S i = Some qout →
  queues s' = <[S i := qout']> (<[i := qin']> (queues s)) →
  ∀ j, drained_at s' j
       ↔ (if decide (j = i) then shutdown qin' = true ∧ size qin' = 0
          else if decide (j = S i) then shutdown qout' = true ∧ size qout' = 0
          else drained_at s j).
Proof.
  intros Hi Ho Hq j. unfold drained_at. rewrite Hq.
  apply lookup_lt_Some in Hi as Hli. apply lookup_lt_Some in Ho as Hlo.
  repeat case_decide; subst.
  - rewrite list_lookup_insert_ne, list_lookup_insert_eq by lia.
    split; [by intros (q1 & [= <-] & ? & ?)|intros [? ?]; by eexists].
  - rewrite list_lookup_insert_eq by (rewrite length_insert; lia).
    split; [by intros (q1 & [= <-] & ? & ?)|intros [? ?]; by eexists].
  - by rewrite !list_lookup_insert_ne by lia.
Qed.


Lemma running_step_worker (s : state) (i : nat) (p : plugin) (w w' : worker)
  (qin qout qin' qout' : queue_t cstring) :
  generated_only plugins →
  running plugins lines after s →
  plugins !! i = Some p → workers s !! i = Some w →
  queues s !! i = Some qin → queues s !! S i = Some qout →
  process_thread p all_ok w qin qout = Some (w', qin', qout') →
  well_formed plugins
    (set_worker i w' (set_queue (S i) qout' (set_queue i qin' s))) →
  running plugins lines after
    (set_worker i w' (set_queue (S i) qout' (set_queue i qin' s))).
Proof.
  intros Hgen Hrun Hp Hw Hqi Hqo Hpt Hwf'.
  pose proof Hrun as (out & rem & (Hlq & Hlw & Hqwf) & Hmain & Hout
                      & Hreader & Hstream & Hworkers & Hwriter).
  assert (Hkind : plugin_kind_of p = Generated)
    by (by eapply (Forall_lookup_1 _ _ _ _ Hgen)).
  destruct (Hworkers i w Hw) as (Hstop & Hpc & Hcl).
  apply lookup_lt_Some in Hp as HiN.
  apply lookup_lt_Some in Hw as Hiw.
  apply lookup_lt_Some in Hqi as Hiq. apply lookup_lt_Some in Hqo as Hoq.
  set (s' := set_worker i w' (set_queue (S i) qout' (set_queue i qin' s))) in *.
  pose proof (closed_at_step s s' i qin qout qin' qout' Hqi Hqo eq_refl) as Hcs.
  pose proof (drained_at_step s s' i qin qout qin' qout' Hqi Hqo eq_refl) as Hds.
  assert (Hci : closed_at s i ↔ shutdown qin = true).
  { unfold closed_at. rewrite Hqi. simpl. split; congruence. }
  assert (Hco : closed_at s (S i) ↔ shutdown qout = true).
  { unfold closed_at. rewrite Hqo. simpl. split; congruence. }
  assert (Hdi : drained_at s i ↔ shutdown qin = true ∧ size qin = 0).
  { unfold drained_at. rewrite Hqi.
    split; [by intros (q1 & [= <-] & ? & ?)|intros [? ?]; by eexists]. }
  assert (Hdo : drained_at s (S i) ↔ shutdown qout = true ∧ size qout = 0).
  { unfold drained_at. rewrite Hqo.
    split; [by intros (q1 & [= <-] & ? & ?)|intros [? ?]; by eexists]. }
  (* the flows away from the worker and its two queues are untouched *)
  assert (Hqf : ∀ j, j ≠ i → j ≠ S i →
            queue_flow plugins s' j = queue_flow plugins s j).
  { intros j H1 H2. unfold queue_flow. simpl.
    by rewrite !list_lookup_insert_ne by done. }
  assert (Hqfi : queue_flow plugins s' i = qflow plugins i qin').
  { unfold queue_flow. simpl.
    rewrite list_lookup_insert_ne, list_lookup_insert_eq by lia. done. }
  assert (Hqfo : queue_flow plugins s' (S i) = qflow plugins (S i) qout').
  { unfold queue_flow. simpl.
    rewrite list_lookup_insert_eq by (rewrite length_insert; lia). done. }
  assert (Hhf : ∀ j, j ≠ i → hand_flow plugins s' j = hand_flow plugins s j).
  { intros j H1. unfold hand_flow. simpl.
    by rewrite list_lookup_insert_ne by done. }
  assert (Hhfi : hand_flow plugins s' i = hand plugins i (w_pc w')).
  { unfold hand_flow. simpl. by rewrite list_lookup_insert_eq by lia. }
  pose proof (queue_flow_lookup plugins s i qin Hqi) as Hqfi0.
  pose proof (queue_flow_lookup plugins s (S i) qout Hqo) as Hqfo0.
  pose proof (hand_flow_lookup plugins s i w Hw) as Hhfi0.
  (* a step that leaves both queues alone and keeps the flow in hand *)
  assert (Hmove : qin' = qin → qout' = qout →
            stop_requested w' = false →
            hand plugins i (w_pc w') = hand plugins i (w_pc w) →
            w_pc w ≠ WReturn → w_pc w' ≠ WReturn →
            match w_pc w' with
            | WCheck ret str =>
                (ret = QUEUE_SUCCESS ∧ is_Some str)
                ∨ (ret = QUEUE_SHUTDOWN ∧ str = None ∧ drained_at s i)
            | WShutdown => drained_at s i
            | _ => True
            end →
            running plugins lines after s').
  { intros -> -> Hst Hh Hnr Hnr' Hcase.
    assert (Hsame : queues s' = queues s).
    { simpl. rewrite (list_insert_id _ (S i)); by rewrite list_insert_id. }
    apply (running_worker_update s s' i w w'); try done.
    - intros j. by rewrite (drained_at_queues s s').
    - intros j. by rewrite (closed_at_queues s s').
    - intros j. rewrite (closed_at_queues s s') by done. by left.
    - split_and!; [done| |].
      + destruct (w_pc w'); try done.
        * destruct Hcase as [?|(? & ? & ?)]; [by left|right].
          by rewrite (drained_at_queues s s').
        * by rewrite (drained_at_queues s s').
      + rewrite (closed_at_queues s s') by done. by intros ?%Hcl.
    - apply in_flight_ext.
      + intros j _. unfold queue_flow. by rewrite Hsame.
      + intros j _. destruct (decide (j = i)) as [->|Hne]; [|by apply Hhf].
        by rewrite Hhfi, Hhfi0. }
  unfold process_thread in Hpt.
  destruct (w_pc w) as [| |ret str| |t|] eqn:Hpcw.
  - (* while (!ctx->stop_requested) *)
    rewrite Hstop in Hpt. injection Hpt as <- <- <-. by apply Hmove.
  - (* queue_pop *)
    destruct (queue_pop_cases qin (Hqwf _ _ Hqi))
      as [(E & _)|[(E & Hsd & Hz)
         |(x & q1 & E & Hcont & Hwf1 & _ & Hsz & Hsd)]];
      rewrite E in Hpt; [done| |]; injection Hpt as <- <- <-.
    + apply Hmove; try done. simpl. right. split_and!; try done.
      by apply Hdi.
    + assert (Hnz : size qin ≠ 0).
      { intros Hz. by rewrite (contents_nil qin Hz) in Hcont. }
      apply (running_worker_update s s' i w (goto (WCheck QUEUE_SUCCESS (Some x)) w));
        try done.
      * intros j Hj. apply Hds. repeat case_decide; subst; try done.
        -- apply Hdi in Hj as [_ ?]. done.
        -- by apply Hdo.
      * intros j Hj. apply Hcs. repeat case_decide; subst; try done.
        -- rewrite Hsd. by apply Hci.
        -- by apply Hco.
      * intros j Hj. apply Hcs in Hj. repeat case_decide; subst.
        -- left. apply Hci. by rewrite <- Hsd.
        -- by right.
        -- by left.
      * split_and!; [done|left; by split|].
        intros Hc. apply Hcs in Hc. repeat case_decide; try lia.
        by apply Hco, Hcl in Hc.
      * apply (in_flight_above_hand plugins s s' i); [done| | |].
        -- rewrite Hhfi, Hhfi0. simpl.
           rewrite (in_flight_top plugins s s' i (flow plugins i [x])); [done| | |].
           ++ rewrite Hqfi0, Hqfi. by apply qflow_pop.
           ++ intros j Hj. apply Hqf; lia.
           ++ intros j Hj. apply Hhf; lia.
        -- intros j Hj. destruct (decide (j = S i)) as [->|Hne].
           ++ by rewrite Hqfo, Hqfo0.
           ++ apply Hqf; lia.
        -- intros j Hj. apply Hhf; lia.
  - (* the two ifs after the pop *)
    rewrite Hstop, orb_false_r in Hpt.
    destruct Hpc as [[-> [x ->]]|(-> & -> & Hdr)]; simpl in Hpt.
    + destruct (plugin_transform p all_ok x) as [t|] eqn:Ht;
        injection Hpt as <- <- <-; apply Hmove; try done; simpl.
      * unfold flow. simpl. by rewrite (chain_drop plugins i p x Hp), Ht.
      * unfold flow. simpl. by rewrite (chain_drop plugins i p x Hp), Ht.
    + rewrite Hkind in Hpt. injection Hpt as <- <- <-. by apply Hmove.
  - (* queue_shutdown on the output *)
    injection Hpt as <- <- <-.
    apply Hdi in Hpc as Hdin.
    apply (running_worker_update s s' i w (goto WReturn w)); try done.
    + intros j Hj. apply Hds. repeat case_decide; subst; try done.
      apply Hdo in Hj as [_ ?]. by split.
    + intros j Hj. apply Hcs. repeat case_decide; subst; try done.
      by apply Hci.
    + intros j Hj. apply Hcs in Hj. repeat case_decide; subst.
      * left. by apply Hci.
      * by right.
      * by left.
    + split_and!; [done| |done]. simpl. split.
      * apply Hds. repeat case_decide; try lia. done.
      * apply Hcs. repeat case_decide; try lia. done.
    + apply in_flight_ext.
      * intros j _. destruct (decide (j = i)) as [->|Hne1];
          [by rewrite Hqfi, Hqfi0|].
        destruct (decide (j = S i)) as [->|Hne2];
          [by rewrite Hqfo, Hqfo0|by apply Hqf].
      * intros j _. destruct (decide (j = i)) as [->|Hne]; [|by apply Hhf].
        by rewrite Hhfi, Hhfi0.
  - (* queue_push to the output *)
    assert (Hopen : shutdown qout = false).
    { apply not_true_is_false. intros Hsd. by apply Hco, Hcl in Hsd. }
    rewrite queue_push_cases in Hpt.
    destruct (queue_push_resume_cases (strdup (all_ok 0%nat)) qout t (Hqwf _ _ Hqo))
      as [(E & _)|[(E & Hsd)|[(E & _ & _ & Hdup)
         |(c & q1 & Hdup & E & _ & _ & Hwf1 & Hcont & _ & _ & Hsd1)]]];
      [by rewrite E in Hpt|congruence|done|].
    rewrite E in Hpt. injection Hpt as <- <- <-. injection Hdup as <-.
    apply (running_worker_update s s' i w (goto WLoop w)); try done.
    + intros j Hj. apply Hds. repeat case_decide; subst; try done.
      * by apply Hdi.
      * apply Hdo in Hj as [? _]. congruence.
    + intros j Hj. apply Hcs. repeat case_decide; subst; try done.
      * by apply Hci.
      * apply Hco in Hj. congruence.
    + intros j Hj. apply Hcs in Hj. repeat case_decide; subst.
      * left. by apply Hci.
      * by right.
      * by left.
    + split_and!; [done|done|].
      intros Hc. apply Hcs in Hc. repeat case_decide; try lia. congruence.
    + apply (in_flight_above plugins s s' (S i)); [lia| | |].
      * simpl. rewrite Hqfo, Hqfo0, Hhfi, Hhfi0. simpl.
        rewrite (qflow_push plugins (S i) qout q1 t Hcont).
        rewrite <- app_assoc. f_equal. f_equal.
        apply in_flight_ext.
        -- intros j Hj. destruct (decide (j = i)) as [->|Hne];
             [by rewrite Hqfi, Hqfi0|apply Hqf; lia].
        -- intros j Hj. apply Hhf; lia.
      * intros j Hj. apply Hqf; lia.
      * intros j Hj. apply Hhf; lia.
  - done.
Qed.


(** Once the writer has returned, everything upstream has. *)
Lemma running_finished (s : state) :
  running plugins lines after s → writer s = OReturn →
  all_done s
  ∧ stdout s = Some <$> ((banner <$> plugins) ++ flow plugins 0 lines).
Proof.
  intros (out & rem & (Hlq & Hlw & Hqwf) & Hmain & Hout
          & (Hshort & Hrd & Hcl0) & Hstream & Hworkers & Hwriter) Hwr.
  specialize (Hwriter Hwr).
  assert (Hchain : ∀ k, (k ≤ length plugins)%nat → closed_at s k →
            reader s = RReturn
            ∧ ∀ i w, (i < k)%nat → workers s !! i = Some w →
                w_pc w = WReturn ∧ drained_at s i).
  { induction k as [|k IH]; intros Hk Hc.
    - split; [by apply Hcl0|]. intros; lia.
    - destruct (lookup_lt_is_Some_2 (workers s) k ltac:(lia)) as [wk Hwk].
      destruct (Hworkers k wk Hwk) as (_ & Hpc & Hret).
      specialize (Hret Hc). rewrite Hret in Hpc. destruct Hpc as [Hdk _].
      destruct (IH ltac:(lia) (drained_closed _ _ Hdk)) as [Hr Hbelow].
      split; [done|]. intros i w Hi Hw.
      destruct (decide (i = k)) as [->|Hne].
      + assert (w = wk) as -> by congruence. done.
      + apply Hbelow; [lia|done]. }
  destruct (Hchain (length plugins) ltac:(lia) (drained_closed _ _ Hwriter))
    as [Hr Hall].
  assert (Hdone : ∀ i w, workers s !! i = Some w → w_pc w = WReturn).
  { intros i w Hw. apply lookup_lt_Some in Hw as Hi.
    by apply (Hall i w ltac:(lia) Hw). }
  split; [done|].
  assert (Hqf : ∀ j, (j ≤ length plugins)%nat → queue_flow plugins s j = []).
  { intros j Hj.
    assert (Hd : drained_at s j).
    { destruct (decide (j = length plugins)) as [->|Hne]; [done|].
      destruct (lookup_lt_is_Some_2 (workers s) j ltac:(lia)) as [wj Hwj].
      by apply (Hall j wj ltac:(lia) Hwj). }
    destruct Hd as (q & Hq & _ & Hz).
    rewrite (queue_flow_lookup plugins s j q Hq). by apply qflow_empty. }
  assert (Hhf : ∀ i, hand_flow plugins s i = []).
  { intros i. unfold hand_flow.
    destruct (workers s !! i) as [w|] eqn:Hw; [|done]. simpl.
    by rewrite (Hdone i w Hw). }
  assert (Hfl : ∀ n, (n ≤ length plugins)%nat → in_flight plugins s n = []).
  { induction n as [|n IH]; intros Hn; simpl.
    - apply Hqf. lia.
    - rewrite Hqf, Hhf, IH by lia. done. }
  rewrite Hfl in Hstream by lia. rewrite Hr in Hrd, Hstream. subst rem.
  simpl in Hstream. rewrite app_nil_r in Hstream. by rewrite <- Hstream.
Qed.

Lemma start_running :
  plugins ≠ [] → Forall short_line lines →
  running plugins lines after (start plugins (feed lines after)).
Proof.
  intros Hne Hshort. unfold start. destruct plugins as [|p ps] eqn:Hpl; [done|].
  rewrite <- Hpl in *. clear Hne.
  destruct (queue_init_some (A:=cstring) QUEUE_CAPACITY
              ltac:(unfold QUEUE_CAPACITY, SIZE_MAX; lia)) as [q0 Hq0].
  rewrite Hq0.
  destruct (queue_init_wf QUEUE_CAPACITY q0
              ltac:(unfold QUEUE_CAPACITY, SIZE_MAX; lia) Hq0)
    as (Hwf0 & Hc0 & _ & Hz0 & Hsd0).
  set (qs := replicate (S (length plugins)) q0).
  set (ws := replicate (length plugins) (mk_worker WLoop false)).
  assert (Hopen : ∀ s k, queues s = qs → ¬ closed_at s k).
  { intros s k Hq. unfold closed_at. rewrite Hq. intros Hc.
    destruct (qs !! k) as [q|] eqn:Hk; [|done].
    apply lookup_replicate in Hk as [-> _]. simpl in Hc. congruence. }
  assert (Hfl : ∀ s n, queues s = qs → workers s = ws →
            in_flight plugins s n = []).
  { intros s n Hq Hw.
    assert (Hqf : ∀ j, queue_flow plugins s j = []).
    { intros j. unfold queue_flow. rewrite Hq.
      destruct (qs !! j) as [q|] eqn:Hk; [|done].
      apply lookup_replicate in Hk as [-> _]. by apply qflow_empty. }
    induction n as [|n IH]; simpl; [by apply Hqf|].
    rewrite IH, Hqf, app_nil_r. unfold hand_flow. rewrite Hw.
    destruct (ws !! n) as [w|] eqn:Hk; [|done].
    by apply lookup_replicate in Hk as [-> _]. }
  exists [], lines. split_and!.
  - split_and!; cbn [queues workers].
    + apply length_replicate.
    + apply length_replicate.
    + intros k q Hk. by apply lookup_replicate in Hk as [-> _].
  - by left.
  - cbn [stdout]. by rewrite app_nil_r, <- list_fmap_compose.
  - split_and!; [done|done|]. cbn [reader]. split; [|done].
    intros Hc. by apply Hopen in Hc.
  - cbn [reader rhand app]. by rewrite Hfl.
  - cbn [workers]. intros i w Hw. apply lookup_replicate in Hw as [-> _].
    split_and!; [done|done|]. intros Hc. by apply Hopen in Hc.
  - done.
Qed.

Lemma running_step_main (s s' : state) :
  running plugins lines after s →
  main_thread (length plugins) s = Some s' →
  well_formed plugins s' →
  invariant plugins lines after s'.
Proof.
  intros Hrun Hstep Hwf'.
  pose proof Hrun as (out & rem & Hwf & Hmain & Hout & Hreader & Hstream
                      & Hworkers & Hwriter).
  unfold main_thread in Hstep.
  destruct Hmain as [Hm|[Hm Hr]]; rewrite Hm in Hstep.
  - destruct (reader s) eqn:Hr; try done. injection Hstep as <-.
    left. exists out, rem. split_and!; try done.
    + by right.
    + simpl. rewrite Hr. by rewrite (in_flight_same s).
  - destruct (writer s) eqn:Hwr; try done. injection Hstep as <-.
    right. destruct (running_finished s Hrun Hwr) as [Hdone Hfinal].
    split_and!; try done. simpl. lia.
Qed.

Lemma winding_up_step (mem : alloc) (t : thread) (s s' : state) :
  winding_up plugins lines s →
  step plugins mem t s = Some s' →
  winding_up plugins lines s'.
Proof.
  intros (Hwf & (Hr & Hwr & Hws) & Hout & Hm) Hstep.
  pose proof (step_well_formed _ _ _ _ _ Hwf Hstep) as Hwf'.
  apply step_unfold in Hstep as [_ Hstep]. destruct t as [| | |i].
  - assert (Hflag : ∀ pc i w, workers s !! i = Some w →
              all_done (set_main pc
                          (set_worker i (mk_worker (w_pc w) true) s))).
    { intros pc i w Hw. split_and!; [done|done|]. simpl. intros j wj Hj.
      destruct (decide (i = j)) as [->|Hne].
      - rewrite list_lookup_insert_eq in Hj by (by eapply lookup_lt_Some).
        injection Hj as <-. simpl. by eapply Hws.
      - rewrite list_lookup_insert_ne in Hj by done. by eapply Hws. }
    assert (Hsame : ∀ pc, all_done (set_main pc s)) by done.
    unfold main_thread in Hstep.
    destruct (main s) as [| |i|i|i|i| |c] eqn:Hpc; try done.
    + destruct (Nat.ltb_spec i (length plugins)).
      * destruct (workers s !! i) as [w|] eqn:Hw; [|done].
        injection Hstep as <-.
        split_and!; [done|by apply Hflag|done|simpl; lia].
      * injection Hstep as <-.
        split_and!; [done|by apply Hsame|done|simpl; lia].
    + destruct (Nat.ltb_spec i (length plugins)).
      * destruct (workers s !! i) as [w|] eqn:Hw; [|done].
        injection Hstep as <-.
        split_and!; [done|by apply Hflag|done|simpl; lia].
      * injection Hstep as <-.
        split_and!; [done|by apply Hsame|done|done].
    + destruct (queues s !! i) as [q|] eqn:Hq; [|done].
      injection Hstep as <-. split_and!; [done|done|done|done].
    + destruct (workers s !! i) as [w|] eqn:Hw; [|done]. simpl in Hstep.
      destruct (w_pc w); try done. injection Hstep as <-.
      split_and!; [done|by apply Hsame|done|simpl; lia].
    + injection Hstep as <-.
      split_and!; [done|by apply Hsame|done|done].
  - destruct Hstep as (q & pc & input & q' & _ & Hin & _).
    by rewrite Hr in Hin.
  - destruct Hstep as (q & pc & out & q' & _ & Ho & _).
    by rewrite Hwr in Ho.
  - destruct Hstep as (p & w & qin & qout & w' & qin' & qout'
                       & _ & Hw & _ & _ & Hpt & _).
    unfold process_thread in Hpt. by rewrite (Hws i w Hw) in Hpt.
Qed.

(** The invariant holds along every execution without allocation failure
    of a chain of generated plugins. *)
Lemma invariant_step (t : thread) (s s' : state) :
  generated_only plugins →
  invariant plugins lines after s →
  step plugins all_ok t s = Some s' →
  invariant plugins lines after s'.
Proof.
  intros Hgen [Hrun|Hwind] Hstep.
  2:{ right. by eapply winding_up_step. }
  pose proof Hrun as (_ & _ & Hwf & _).
  pose proof (step_well_formed _ _ _ _ _ Hwf Hstep) as Hwf'.
  apply step_unfold in Hstep as [_ Hstep]. destruct t as [| | |i].
  - by eapply running_step_main.
  - destruct Hstep as (q & pc & input & q' & Hq & Hin & ->).
    left. by eapply running_step_reader.
  - destruct Hstep as (q & pc & out & q' & Hq & Ho & ->).
    left. by eapply running_step_writer.
  - destruct Hstep as (p & w & qin & qout & w' & qin' & qout'
                       & Hp & Hw & Hqi & Hqo & Hpt & ->).
    left. by eapply running_step_worker.
Qed.

Lemma invariant_run (sched : list thread) (s s' : state) :
  generated_only plugins →
  invariant plugins lines after s →
  run_ok plugins sched s = Some s' →
  invariant plugins lines after s'.
Proof.
  intros Hgen. unfold run_ok. revert s.
  induction sched as [|t sched IH]; intros s Hinv Hrun; simpl in Hrun.
  - by injection Hrun as <-.
  - destruct (step plugins all_ok t s) as [s1|] eqn:Hstep; [|done].
    eapply IH; [|done]. by eapply invariant_step.
Qed.


(** ** No deadlock *)

Lemma step_worker_enabled (mem : alloc) (s : state) (i : nat) p w qin qout :
  (∀ c, main s ≠ MReturn c) →
  plugins !! i = Some p → workers s !! i = Some w →
  queues s !! i = Some qin → queues s !! S i = Some qout →
  is_Some (process_thread p mem w qin qout) →
  ∃ s', step plugins mem (Worker i) s = Some s'.
Proof.
  intros Hm Hp Hw Hqi Hqo [[[w' qin'] qout'] Hpt].
  rewrite step_fold by done. rewrite Hp, Hw, Hqi, Hqo, Hpt. by eexists.
Qed.

Lemma step_reader_enabled (mem : alloc) (s : state) q :
  (∀ c, main s ≠ MReturn c) →
  queues s !! 0%nat = Some q →
  is_Some (input_thread mem (reader s) (stdin s) q) →
  ∃ s', step plugins mem Reader s = Some s'.
Proof.
  intros Hm Hq [[[pc input] q'] Hin].
  rewrite step_fold by done. rewrite Hq, Hin. by eexists.
Qed.

Lemma step_writer_enabled (mem : alloc) (s : state) q :
  (∀ c, main s ≠ MReturn c) →
  queues s !! length plugins = Some q →
  is_Some (output_thread (writer s) (stdout s) q) →
  ∃ s', step plugins mem Writer s = Some s'.
Proof.
  intros Hm Hq [[[pc out] q'] Ho].
  rewrite step_fold by done. rewrite Hq, Ho. by eexists.
Qed.

Lemma pop_enabled {A : Type} (q : queue_t A) :
  queue_wf q → size q ≠ 0 ∨ shutdown q = true →
  ∃ r q', queue_pop q = Ret r q'.
Proof.
  intros Hwf Hq.
  destruct (queue_pop_cases q Hwf)
    as [(E & Hz & Hsd)|[(E & _)|(x & q' & E & _)]]; [|by eauto..].
  destruct Hq; congruence.
Qed.

Lemma push_enabled {A : Type} (dup : A → option A) (q : queue_t A) (x : A) :
  queue_wf q → size q ≠ capacity q ∨ shutdown q = true →
  ∃ r q', queue_push dup q (Some x) = Ret r q'.
Proof.
  intros Hwf Hq. rewrite queue_push_cases.
  destruct (queue_push_resume_cases dup q x Hwf)
    as [(E & Hz & Hsd)|[(E & _)|[(E & _)|(c & q' & _ & E & _)]]];
    [|by eauto..].
  destruct Hq; congruence.
Qed.

(** A string in queue [j] can always move on: some thread downstream of it
    is able to step. *)
Lemma progress_downstream (s : state) :
  generated_only plugins →
  running plugins lines after s →
  ∀ d j q, (j + d = length plugins)%nat →
    queues s !! j = Some q → size q ≠ 0 →
    ∃ t s', step plugins all_ok t s = Some s'.
Proof.
  intros Hgen (out & rem & (Hlq & Hlw & Hqwf) & Hmain & Hout & Hreader
               & Hstream & Hworkers & Hwriter).
  assert (Hm : ∀ c, main s ≠ MReturn c)
    by (intros c; destruct Hmain as [?|[? _]]; congruence).
  induction d as [|d IH]; intros j q Hj Hq Hnz.
  - replace j with (length plugins) in * by lia.
    exists Writer. eapply step_writer_enabled; [done|done|].
    unfold output_thread. destruct (writer s) eqn:Hwr.
    + destruct (pop_enabled q (Hqwf _ _ Hq) ltac:(by left))
        as ([ret str] & q' & ->).
      by destruct (ret =? 0).
    + destruct (Hwriter eq_refl) as (q0 & Hq0 & _ & Hz). congruence.
  - destruct (lookup_lt_is_Some_2 plugins j ltac:(lia)) as [p Hp].
    destruct (lookup_lt_is_Some_2 (workers s) j ltac:(lia)) as [w Hw].
    destruct (lookup_lt_is_Some_2 (queues s) (S j) ltac:(lia)) as [qout Hqo].
    destruct (Hworkers j w Hw) as (Hstop & Hpc & Hcl).
    destruct (w_pc w) as [| |ret str| |t|] eqn:Hpcw.
    + exists (Worker j). eapply step_worker_enabled; try done.
      unfold process_thread. by rewrite Hpcw.
    + exists (Worker j). eapply step_worker_enabled; try done.
      unfold process_thread. rewrite Hpcw.
      by destruct (pop_enabled q (Hqwf _ _ Hq) ltac:(by left))
        as ([ret str] & q' & ->).
    + exists (Worker j). eapply step_worker_enabled; try done.
      unfold process_thread. rewrite Hpcw.
      repeat case_match; done.
    + exists (Worker j). eapply step_worker_enabled; try done.
      unfold process_thread. by rewrite Hpcw.
    + destruct (decide (size qout = capacity qout)) as [Hfull|Hroom].
      * apply (IH (S j) qout); [lia|done|].
        pose proof (wf_capacity _ (Hqwf _ _ Hqo)). lia.
      * exists (Worker j). eapply step_worker_enabled; try done.
        unfold process_thread. rewrite Hpcw.
        by destruct (push_enabled (strdup (all_ok 0%nat)) qout t
                       (Hqwf _ _ Hqo) ltac:(by left)) as (r & q' & ->).
    + destruct Hpc as [(q0 & Hq0 & _ & Hz) _]. congruence.
Qed.

(** An open, empty queue [j] will be fed or closed: once the reader has
    returned, some thread upstream of it is able to step. *)
Lemma progress_upstream (s : state) :
  generated_only plugins →
  running plugins lines after s →
  reader s = RReturn →
  ∀ j q, (j ≤ length plugins)%nat →
    queues s !! j = Some q → size q = 0 → shutdown q = false →
    ∃ t s', step plugins all_ok t s = Some s'.
Proof.
  intros Hgen (out & rem & (Hlq & Hlw & Hqwf) & Hmain & Hout
               & (Hshort & Hrd & Hcl0) & Hstream & Hworkers & Hwriter) Hr.
  assert (Hm : ∀ c, main s ≠ MReturn c)
    by (intros c; destruct Hmain as [?|[? _]]; congruence).
  induction j as [|j IH]; intros q Hj Hq Hempty Hopen.
  - apply Hcl0 in Hr. unfold closed_at in Hr. rewrite Hq in Hr.
    simpl in Hr. congruence.
  - destruct (lookup_lt_is_Some_2 plugins j ltac:(lia)) as [p Hp].
    destruct (lookup_lt_is_Some_2 (workers s) j ltac:(lia)) as [w Hw].
    destruct (lookup_lt_is_Some_2 (queues s) j ltac:(lia)) as [qin Hqi].
    destruct (Hworkers j w Hw) as (Hstop & Hpc & Hcl).
    destruct (w_pc w) as [| |ret str| |t|] eqn:Hpcw.
    + exists (Worker j). eapply step_worker_enabled; try done.
      unfold process_thread. by rewrite Hpcw.
    + destruct (decide (size qin = 0 ∧ shutdown qin = false)) as [[Hz Ho]|Hne].
      * by apply (IH qin); [lia|done|done|done].
      * exists (Worker j). eapply step_worker_enabled; try done.
        unfold process_thread. rewrite Hpcw.
        assert (Hen : size qin ≠ 0 ∨ shutdown qin = true).
        { destruct (decide (size qin = 0)); [|by left].
          right. destruct (shutdown qin); [done|]. by destruct Hne. }
        by destruct (pop_enabled qin (Hqwf _ _ Hqi) Hen)
          as ([ret str] & q' & ->).
    + exists (Worker j). eapply step_worker_enabled; try done.
      unfold process_thread. rewrite Hpcw.
      repeat case_match; done.
    + exists (Worker j). eapply step_worker_enabled; try done.
      unfold process_thread. by rewrite Hpcw.
    + exists (Worker j). eapply step_worker_enabled; try done.
      unfold process_thread. rewrite Hpcw.
      assert (Hroom : size q ≠ capacity q).
      { pose proof (wf_capacity _ (Hqwf _ _ Hq)). lia. }
      by destruct (push_enabled (strdup (all_ok 0%nat)) q t
                     (Hqwf _ _ Hq) ltac:(by left)) as (r & q' & ->).
    + destruct Hpc as [_ Hc]. unfold closed_at in Hc. rewrite Hq in Hc.
      simpl in Hc. congruence.
Qed.


(** Until [main] returns, some thread can step. *)
Lemma progress (s : state) :
  generated_only plugins →
  invariant plugins lines after s →
  (∀ c, main s ≠ MReturn c) →
  ∃ t s', step plugins all_ok t s = Some s'.
Proof.
  intros Hgen [Hrun|Hwind] Hm.
  - pose proof Hrun as (out & rem & (Hlq & Hlw & Hqwf) & Hmain & Hout
                        & (Hshort & Hrd & Hcl0) & Hstream & Hworkers
                        & Hwriter).
    destruct (lookup_lt_is_Some_2 (queues s) 0 ltac:(lia)) as [q0 Hq0].
    destruct (lookup_lt_is_Some_2 (queues s) (length plugins) ltac:(lia))
      as [qN HqN].
    destruct (reader s) as [|l| |] eqn:Hr.
    + exists Reader. eapply step_reader_enabled; [done|done|].
      rewrite Hr. unfold input_thread. repeat case_match; done.
    + destruct (decide (size q0 = capacity q0)) as [Hfull|Hroom].
      * apply (progress_downstream s Hgen Hrun (length plugins) 0 q0);
          [lia|done|].
        pose proof (wf_capacity _ (Hqwf _ _ Hq0)). lia.
      * exists Reader. eapply step_reader_enabled; [done|done|].
        rewrite Hr. unfold input_thread.
        by destruct (push_enabled (strdup (all_ok 0%nat)) q0 l
                       (Hqwf _ _ Hq0) ltac:(by left)) as (r & q' & ->).
    + exists Reader. eapply step_reader_enabled; [done|done|].
      by rewrite Hr.
    + destruct Hmain as [Hmain|[Hmain _]].
      { exists Main. rewrite step_fold by done. unfold main_thread.
        rewrite Hmain, Hr. by eexists. }
      destruct (writer s) eqn:Hwr.
      2:{ exists Main. rewrite step_fold by done. unfold main_thread.
          rewrite Hmain, Hwr. by eexists. }
      destruct (decide (size qN = 0 ∧ shutdown qN = false)) as [[Hz Ho]|Hne].
      * by apply (progress_upstream s Hgen Hrun Hr (length plugins) qN).
      * exists Writer. eapply step_writer_enabled; [done|done|].
        rewrite Hwr. unfold output_thread.
        assert (Hen : size qN ≠ 0 ∨ shutdown qN = true).
        { destruct (decide (size qN = 0)); [|by left].
          right. destruct (shutdown qN); [done|]. by destruct Hne. }
        destruct (pop_enabled qN (Hqwf _ _ HqN) Hen) as ([ret str] & q' & ->).
        by destruct (ret =? 0).
  - destruct Hwind as ((Hlq & Hlw & Hqwf) & (Hr & Hwr & Hws) & Hout & Hpc).
    exists Main. rewrite step_fold by done. unfold main_thread.
    destruct (main s) as [| |i|i|i|i| |c] eqn:Hmain; try done.
    + destruct (Nat.ltb_spec i (length plugins)); [|by eexists].
      destruct (lookup_lt_is_Some_2 (workers s) i ltac:(lia)) as [w ->].
      by eexists.
    + destruct (Nat.ltb_spec i (length plugins)); [|by eexists].
      destruct (lookup_lt_is_Some_2 (workers s) i ltac:(lia)) as [w ->].
      by eexists.
    + destruct (lookup_lt_is_Some_2 (queues s) i ltac:(lia)) as [q ->].
      by eexists.
    + destruct (lookup_lt_is_Some_2 (workers s) i ltac:(lia)) as [w Hw].
      rewrite Hw. simpl. rewrite (Hws i w Hw). by eexists.
    + by eexists.
    + by destruct (Hm c).
Qed.

(** Every execution can be carried on until [main] returns. *)
Lemma completion (s : state) :
  generated_only plugins →
  invariant plugins lines after s →
  well_formed plugins s →
  ∃ sched s', run_ok plugins sched s = Some s' ∧ ∃ c, main s' = MReturn c.
Proof.
  intros Hgen. remember (measure plugins s) as n eqn:Hn. revert s Hn.
  induction n as [n IH] using lt_wf_ind. intros s Hn Hinv Hwf.
  destruct (main s) as [| |i|i|i|i| |c] eqn:Hm.
  8:{ exists [], s. split; [done|by exists c]. }
  all: destruct (progress s Hgen Hinv ltac:(intros c; congruence))
         as (t & s1 & Hstep);
       pose proof (step_measure _ _ _ _ _ Hwf Hstep) as Hlt;
       pose proof (step_well_formed _ _ _ _ _ Hwf Hstep) as Hwf1;
       pose proof (invariant_step _ _ _ Hgen Hinv Hstep) as Hinv1;
       destruct (IH (measure plugins s1) ltac:(lia) s1 eq_refl Hinv1 Hwf1)
         as (sched & s' & Hrun & Hret);
       exists (t :: sched), s'; (split; [|done]);
       unfold run_ok in *; simpl; by rewrite Hstep.
Qed.

End invariant_facts.

Lemma omap_total {X Y : Type} (f : X → option Y) (l : list X) :
  Forall (λ x, is_Some (f x)) l →
  Forall2 (λ x y, f x = Some y) l (omap f l).
Proof.
  induction 1 as [|x l [y Hy] Hl IH]; simpl; [constructor|].
  rewrite Hy. by constructor.
Qed.

(** C8, as the code has it -- No loss, in order.  The process is the one
    [build.sh] builds: the [main] of the [main.c] it generates ([start],
    [step]), not the older [main] of [main_backup.c].  Take a chain of
    plugins generated by [build.sh], lines each shorter than 1023 bytes,
    free of NUL and newline and other than [<END>], and any execution,
    under any scheduling, in which no allocation fails, from the start of
    the process on these lines followed by [<END>].  Then: the execution is
    no longer
    than the measure of the initial state; if no thread can move any more,
    [main] has returned 0 and the standard output holds the
    [Loaded plugin:] banners followed by, in input order, what the chain
    makes of each line that no stage drops (one line per input line when no
    transform fails); and the execution can always be carried on to that
    end. *)
Theorem pipeline_no_loss (plugins : list plugin) (lines : list cstring)
  (after : list ascii) (sched : list thread) (s : state) :
  plugins ≠ [] → generated_only plugins → Forall short_line lines →
  run_ok plugins sched (start plugins (feed lines after)) = Some s →
  let expected :=
    Some <$> ((banner <$> plugins) ++ omap (chain plugins) lines) in
  (length sched ≤ measure plugins (start plugins (feed lines after)))%nat
  ∧ ((∀ t, step plugins all_ok t s = None) →
     main s = MReturn 0 ∧ stdout s = expected)
  ∧ (∃ sched' s',
       run_ok plugins sched' s = Some s'
       ∧ main s' = MReturn 0 ∧ stdout s' = expected)
  ∧ (Forall (λ x, is_Some (chain plugins x)) lines →
     Forall2 (λ x y, chain plugins x = Some y) lines
       (omap (chain plugins) lines)).
Proof.
  intros Hne Hgen Hshort Hrun expected.
  pose proof (start_running plugins lines after Hne Hshort) as Hstart.
  assert (Hinv0 : invariant plugins lines after
                    (start plugins (feed lines after))) by (by left).
  assert (Hwf0 : well_formed plugins (start plugins (feed lines after)))
    by (by destruct Hstart as (? & ? & ? & _)).
  pose proof (invariant_run plugins lines after sched _ s Hgen Hinv0 Hrun)
    as Hinv.
  destruct (run_well_formed plugins _ _ s Hwf0 Hrun) as [Hwf Hlen].
  rewrite length_fmap in Hlen.
  assert (Hend : ∀ s1, invariant plugins lines after s1 →
            ∀ c, main s1 = MReturn c → c = 0 ∧ stdout s1 = expected).
  { intros s1 [Hr|Hw] c Hc.
    - destruct Hr as (? & ? & _ & [Hm|[Hm _]] & _); congruence.
    - destruct Hw as (_ & _ & Hout & Hpc). rewrite Hc in Hpc. done. }
  split_and!.
  - lia.
  - intros Hstuck.
    destruct (main s) as [| |i|i|i|i| |c] eqn:Hm.
    8:{ destruct (Hend s Hinv c Hm) as [-> Hout]. done. }
    all: destruct (progress plugins lines after s Hgen Hinv
                     ltac:(intros c; congruence)) as (t & s1 & Hstep);
         by rewrite Hstuck in Hstep.
  - destruct (completion plugins lines after s Hgen Hinv Hwf)
      as (sched' & s' & Hrun' & c & Hc).
    pose proof (invariant_run plugins lines after sched' _ s' Hgen Hinv Hrun')
      as Hinv'.
    destruct (Hend s' Hinv' c Hc) as [-> Hout]. by exists sched', s'.
  - apply omap_total.
Qed.

Lemma pipeline_no_loss_witness :
  let plugins := [upper_so] in
  let lines := [list_ascii_of_string "hello"] in
  let sched := replicate 4 Reader ++ replicate 8 (Worker 0)
               ++ replicate 2 Writer ++ replicate 9 Main in
  plugins ≠ [] ∧ generated_only plugins ∧ Forall short_line lines
  ∧ ∃ s, run_ok plugins sched (start plugins (feed lines [])) = Some s
         ∧ main s = MReturn 0
         ∧ stdout s = [Some (banner upper_so);
                       Some (list_ascii_of_string "HELLO")].
Proof.
  intros plugins lines sched.
  assert (H1 : plugins ≠ []) by done.
  assert (H2 : generated_only plugins) by (by repeat constructor).
  assert (H3 : Forall short_line lines).
  { apply Forall_cons. split; [|by constructor]. split_and!.
    - refine (bool_decide_unpack _ _). by vm_compute.
    - refine (bool_decide_unpack _ _). by vm_compute.
    - unfold MAX_LINE_LENGTH. simpl. lia.
    - discriminate. }
  split; [exact H1|]. split; [exact H2|]. split; [exact H3|].
  eexists. split; [vm_compute; reflexivity|].
  eapply (proj1 (proj2 (pipeline_no_loss plugins lines [] sched _ H1 H2 H3
                          ltac:(vm_compute; reflexivity)))).
  intros t. reflexivity.
Defined.

(** C8, as the specification words it, fails on a line of 1023 bytes: with
    the [upper] plugin the process exits with code 0 having printed, after
    the banner, two lines for that one line of input: its 1023 bytes in
    upper case and an empty line. *)
Lemma long_line_is_split :
  let plugins := [upper_so] in
  let lines := [replicate 1023 "a"%char] in
  let sched := replicate 6 Reader ++ replicate 12 (Worker 0)
               ++ replicate 3 Writer ++ replicate 9 Main in
  ∃ s, run_ok plugins sched (start plugins (feed lines [])) = Some s
       ∧ main s = MReturn 0
       ∧ stdout s = [Some (banner upper_so);
                     Some (replicate 1023 "A"%char); Some []]
       ∧ chain plugins <$> lines = [Some (replicate 1023 "A"%char)]
       ∧ stdout s
         ≠ Some <$> ((banner <$> plugins) ++ omap (chain plugins) lines).
Proof.
  intros plugins lines sched.
  eexists. split; [vm_compute; reflexivity|].
  split; [reflexivity|]. split; [reflexivity|].
  split; [by vm_compute|]. intros H. apply (f_equal length) in H.
  vm_compute in H. discriminate H.
Qed.

(** ** Shutdown propagation by the generated plugins *)

Lemma step_closed_mono (plugins : list plugin) (mem : alloc) (t : thread)
  (s s' : state) :
  well_formed plugins s → step plugins mem t s = Some s' →
  ∀ k, closed_at s k → closed_at s' k.
Proof.
  intros (Hlq & Hlw & Hwf) Hstep k Hk.
  apply step_unfold in Hstep as [_ Hstep].
  assert (Hset : ∀ s0 j q q', queues s0 !! j = Some q →
            (shutdown q = true → shutdown q' = true) →
            closed_at s0 k → closed_at (set_queue j q' s0) k).
  { intros s0 j q q' Hq Hmono Hc.
    apply (closed_at_set_queue s0 j k q' q Hq). case_decide; [subst j|done].
    apply Hmono. unfold closed_at in Hc. rewrite Hq in Hc. simpl in Hc.
    congruence. }
  destruct t as [| | |i].
  - destruct (main_thread_cases _ _ _ Hlw Hstep)
      as [(pc & -> & _)|[(i & w & pc & Hw & -> & _)
         |(i & q & pc & Hq & -> & _)]]; try done.
    by apply (Hset s i q).
  - destruct Hstep as (q & pc & input & q' & Hq & Hin & ->).
    destruct (input_thread_local 0 _ _ _ _ _ _ _ (Hwf _ _ Hq) Hin)
      as (_ & Hmono & _).
    by apply (Hset s 0%nat q).
  - destruct Hstep as (q & pc & out & q' & Hq & Hout & ->).
    destruct (output_thread_local _ _ _ _ _ _ (Hwf _ _ Hq) Hout)
      as (_ & Hmono & _).
    by apply (Hset s (length plugins) q).
  - destruct Hstep as (p & w & qin & qout & w' & qin' & qout'
                       & Hp & Hw & Hqi & Hqo & Hpt & ->).
    apply lookup_lt_Some in Hp as Hi.
    destruct (process_thread_local (length plugins) i _ _ _ _ _ _ _ _ Hi
                (Hwf _ _ Hqi) (Hwf _ _ Hqo) Hpt)
      as (_ & _ & _ & Hmi & Hmo & _).
    apply (Hset (set_queue i qin' s) (S i) qout); [| |by apply (Hset s i qin)].
    + simpl. by rewrite list_lookup_insert_ne by lia.
    + done.
Qed.

(** For a plugin generated by [build.sh] (plugins/lower.c is one): once its
    pop has returned [QUEUE_SHUTDOWN], the worker's next two steps close the
    output queue and return; and in every execution from there, under any
    scheduling and whatever the allocator does, the worker is not found
    returned with its output queue open. *)
Lemma generated_worker_propagates (plugins : list plugin) (i : nat)
  (p : plugin) (s : state) (w : worker) (str : option cstring) :
  well_formed plugins s →
  (∀ c, main s ≠ MReturn c) →
  plugins !! i = Some p → plugin_kind_of p = Generated →
  workers s !! i = Some w → w_pc w = WCheck QUEUE_SHUTDOWN str →
  (∃ s', run_ok plugins [Worker i; Worker i] s = Some s'
         ∧ w_pc <$> workers s' !! i = Some WReturn
         ∧ closed_at s' (S i))
  ∧ ∀ sched s' w',
      run plugins sched s = Some s' →
      workers s' !! i = Some w' → w_pc w' = WReturn →
      closed_at s' (S i).
Proof.
  intros Hwf Hm Hp Hkind Hw Hpc.
  pose proof Hwf as (Hlq & Hlw & Hqwf).
  apply lookup_lt_Some in Hp as Hi.
  destruct (lookup_lt_is_Some_2 (queues s) i ltac:(lia)) as [qin Hqi].
  destruct (lookup_lt_is_Some_2 (queues s) (S i) ltac:(lia)) as [qout Hqo].
  split.
  - apply lookup_lt_Some in Hw as Hiw.
    apply lookup_lt_Some in Hqi as Hiq. apply lookup_lt_Some in Hqo as Hoq.
    set (s1 := set_worker i (goto WShutdown w)
                 (set_queue (S i) qout (set_queue i qin s))).
    set (s2 := set_worker i (goto WReturn (goto WShutdown w))
                 (set_queue (S i) (queue_shutdown qout) (set_queue i qin s1))).
    assert (Hs1 : step plugins all_ok (Worker i) s = Some s1).
    { rewrite step_fold by done. rewrite Hp, Hw, Hqi, Hqo.
      unfold process_thread. rewrite Hpc. simpl. by rewrite Hkind. }
    assert (Hs2 : step plugins all_ok (Worker i) s1 = Some s2).
    { rewrite step_fold by done. rewrite Hp.
      assert (workers s1 !! i = Some (goto WShutdown w)) as ->.
      { simpl. by rewrite list_lookup_insert_eq by lia. }
      assert (queues s1 !! i = Some qin) as ->.
      { simpl. by rewrite list_lookup_insert_ne, list_lookup_insert_eq by lia. }
      assert (queues s1 !! S i = Some qout) as ->.
      { simpl. by rewrite list_lookup_insert_eq by (rewrite length_insert; lia). }
      done. }
    exists s2. unfold run_ok. simpl. rewrite Hs1, Hs2.
    split; [done|]. split.
    + simpl. by rewrite list_lookup_insert_eq by (rewrite length_insert; lia).
    + unfold closed_at. simpl.
      by rewrite list_lookup_insert_eq by (rewrite !length_insert; lia).
  - assert (Hinv : ∀ sched s0 s',
      well_formed plugins s0 →
      (∃ w0, workers s0 !! i = Some w0
             ∧ ((∃ str0, w_pc w0 = WCheck QUEUE_SHUTDOWN str0)
                ∨ w_pc w0 = WShutdown
                ∨ (w_pc w0 = WReturn ∧ closed_at s0 (S i)))) →
      run plugins sched s0 = Some s' →
      ∃ w0, workers s' !! i = Some w0
            ∧ ((∃ str0, w_pc w0 = WCheck QUEUE_SHUTDOWN str0)
               ∨ w_pc w0 = WShutdown
               ∨ (w_pc w0 = WReturn ∧ closed_at s' (S i)))).
    { induction sched as [|[t mem] sched IH]; intros s0 s' Hwf0 Hj Hrun.
      { by injection Hrun as <-. }
      simpl in Hrun.
      destruct (step plugins mem t s0) as [s1|] eqn:Hstep; [|done].
      apply (IH s1 s' (step_well_formed _ _ _ _ _ Hwf0 Hstep)); [|done].
      pose proof (step_closed_mono _ _ _ _ _ Hwf0 Hstep (S i)) as Hmono.
      destruct Hj as (w0 & Hw0 & Hcase).
      pose proof Hwf0 as (_ & Hlw0 & _).
      apply step_unfold in Hstep as [_ Hstep].
      assert (Hkeep : workers s1 !! i = Some w0 →
                ∃ w1, workers s1 !! i = Some w1
                  ∧ ((∃ str0, w_pc w1 = WCheck QUEUE_SHUTDOWN str0)
                     ∨ w_pc w1 = WShutdown
                     ∨ (w_pc w1 = WReturn ∧ closed_at s1 (S i)))).
      { intros H1. exists w0. split; [done|].
        destruct Hcase as [?|[?|[? ?]]]; auto. }
      destruct t as [| | |j].
      - destruct (main_thread_cases _ _ _ Hlw0 Hstep)
          as [(pc & -> & _)|[(j & wj & pc & Hwj & -> & _)
             |(j & q & pc & Hq & -> & _)]]; try (by apply Hkeep).
        destruct (decide (j = i)) as [->|Hne].
        + assert (wj = w0) as -> by congruence.
          exists (mk_worker (w_pc w0) true). split.
          * simpl. rewrite list_lookup_insert_eq; [done|].
            by eapply lookup_lt_Some.
          * simpl. destruct Hcase as [?|[?|[? ?]]]; auto.
        + apply Hkeep. simpl. by rewrite list_lookup_insert_ne.
      - destruct Hstep as (q & pc & input & q' & Hq & Hin & ->).
        by apply Hkeep.
      - destruct Hstep as (q & pc & out & q' & Hq & Hout & ->).
        by apply Hkeep.
      - destruct Hstep as (p' & wj & qin' & qout' & w' & qin'' & qout''
                           & Hp' & Hwj & Hqi' & Hqo' & Hpt & ->).
        destruct (decide (j = i)) as [->|Hne].
        2:{ apply Hkeep. simpl. by rewrite list_lookup_insert_ne. }
        assert (wj = w0) as -> by congruence.
        assert (p' = p) as -> by congruence.
        exists w'. split.
        { simpl. rewrite list_lookup_insert_eq; [done|].
          by eapply lookup_lt_Some. }
        unfold process_thread in Hpt.
        destruct Hcase as [[str0 Hc]|[Hc|[Hc _]]]; rewrite Hc in Hpt.
        + simpl in Hpt. rewrite Hkind in Hpt. injection Hpt as <- <- <-.
          right; left. done.
        + injection Hpt as <- <- <-. right; right. split; [done|].
          unfold closed_at. simpl.
          rewrite list_lookup_insert_eq; [done|].
          rewrite length_insert. by eapply lookup_lt_Some.
        + done. }
    intros sched s' w' Hrun Hw' Hret.
    destruct (Hinv sched s s' Hwf ltac:(exists w; eauto) Hrun)
      as (w0 & Hw0 & Hcase).
    assert (w0 = w') as -> by congruence.
    destruct Hcase as [[? ?]|[?|[_ ?]]]; [congruence|congruence|done].
Qed.

(** None of the six transforms fails when its allocations succeed. *)
Lemma reserved_transforms_total (p : plugin) (x : cstring) :
  p ∈ [upper_so; lower_so; reverse_so; trim_so; prefix_so; suffix_so] →
  is_Some (plugin_transform p all_ok x).
Proof.
  intros Hp. repeat (apply elem_of_cons in Hp as [->|Hp]); try by eexists.
  by apply elem_of_nil in Hp.
Qed.

Lemma chain_total (plugins : list plugin) :
  Forall (λ p, ∀ x, is_Some (plugin_transform p all_ok x)) plugins →
  ∀ x, is_Some (chain plugins x).
Proof.
  induction 1 as [|p ps Hp _ IH]; intros x; simpl; [by eexists|].
  destruct (Hp x) as [y ->]. apply IH.
Qed.

(** * The transforms, as functions on strings *)

(** The swap loop of [reverse], [n] iterations from index [i] on: the
    [n] bytes from [i] on and the [n] bytes before [len - i] have changed
    places, mirrored. *)
Lemma reverse_loop_lookup (n i : nat) (l : cstring) (k : nat) :
  (2 * (i + n) ≤ length l)%nat → (k < length l)%nat →
  reverse_loop n i (length l) l !! k
  = if decide ((i ≤ k < i + n)%nat
               ∨ (length l - i - n ≤ k < length l - i)%nat)
    then l !! (length l - 1 - k)%nat
    else l !! k.
Proof.
  revert i l. induction n as [|n IH]; intros i l Hn Hk; simpl.
  { case_decide; [lia|done]. }
  set (j := (length l - 1 - i)%nat).
  assert (Hij : (i < j)%nat) by (unfold j; lia).
  destruct (lookup_lt_is_Some_2 l i ltac:(lia)) as [a Ha].
  destruct (lookup_lt_is_Some_2 l j ltac:(unfold j; lia)) as [b Hb].
  rewrite Ha, Hb. simpl.
  set (l2 := <[j := a]> (<[i := b]> l)).
  assert (Hlen : length l2 = length l) by (unfold l2; by rewrite !length_insert).
  rewrite <- Hlen at 1. rewrite IH by (rewrite Hlen; lia). rewrite Hlen.
  assert (Hl2 : ∀ m, (m < length l)%nat →
            l2 !! m = if decide (m = j) then Some a
                      else if decide (m = i) then Some b else l !! m).
  { intros m Hm. unfold l2. repeat case_decide; subst.
    - by rewrite list_lookup_insert_eq by (rewrite length_insert; lia).
    - by rewrite list_lookup_insert_ne, list_lookup_insert_eq by lia.
    - by rewrite !list_lookup_insert_ne by done. }
  rewrite !Hl2 by lia.
  repeat case_decide; subst; try lia; try done;
    try (rewrite <- Ha; f_equal; unfold j in *; lia);
    try (rewrite <- Hb; f_equal; unfold j in *; lia).
Qed.

Lemma transform_reverse_spec (mem : alloc) (input : cstring) :
  mem 0%nat = true → transform_reverse mem input = Some (reverse input).
Proof.
  intros Hm. unfold transform_reverse, strdup. rewrite Hm. f_equal.
  apply list_eq. intros k.
  destruct (decide (k < length input)%nat) as [Hk|Hk].
  - rewrite reverse_loop_lookup; [|pose proof (Nat.div_mod_eq (length input) 2); lia|done].
    rewrite reverse_lookup by done.
    pose proof (Nat.div_mod_eq (length input) 2) as Hd.
    pose proof (Nat.mod_upper_bound (length input) 2 ltac:(lia)) as Hu.
    case_decide as Hc.
    + f_equal. lia.
    + f_equal. lia.
  - rewrite !lookup_ge_None_2; [done| |].
    + rewrite length_reverse. lia.
    + assert (Hlen : ∀ n i len (l : cstring),
                length (reverse_loop n i len l) = length l).
      { induction n as [|n IH]; intros i len l; simpl; [done|].
        by rewrite IH, !length_insert. }
      rewrite Hlen. lia.
Qed.

(** One step of the reader thread, and one turn of its loop. *)
Lemma input_thread_fgets_calls (mem : alloc) (input : list ascii)
  (q : queue_t cstring) :
  match input_thread mem RFgets input q with
  | Some (RPush line, rest, q') =>
      q' = q ∧ input_thread_calls input
               = CallPush line :: input_thread_calls rest
  | Some (RShutdown, rest, q') =>
      q' = q ∧ input_thread_calls input = [CallShutdown]
  | Some (RReturn, rest, q') =>
      q' = q ∧ rest = input ∧ input_thread_calls input = []
  | _ => False
  end.
Proof.
  unfold input_thread.
  destruct (fgets MAX_LINE_LENGTH input) as [[chunk rest]|] eqn:Hg.
  - rewrite (input_thread_calls_step input chunk rest Hg).
    by destruct (cstring_eqb (chomp chunk) END_MARK).
  - split_and!; try done. unfold input_thread_calls.
    cbn [input_thread_loop]. by rewrite Hg.
Qed.

(** * More properties of the queue *)

Section queue_more.

Context {A : Type}.
Implicit Types (q : queue_t A) (x : A) (o : op A).

Lemma queue_run_app (ops1 ops2 : list (op A)) q :
  queue_run (ops1 ++ ops2) q
  = ((queue_run ops1 q).1 ++ (queue_run ops2 (queue_run ops1 q).2).1,
     (queue_run ops2 (queue_run ops1 q).2).2).
Proof.
  revert q. induction ops1 as [|o ops1 IH]; intros q; simpl.
  { by destruct (queue_run ops2 q). }
  destruct (queue_do o q) as [e q1]. rewrite IH.
  destruct (queue_run ops1 q1) as [es1 q2]. simpl.
  by destruct (queue_run ops2 q2).
Qed.

Lemma queue_do_shutdown o q :
  shutdown (queue_do o q).2
  = shutdown q || match o with Close => true | _ => false end.
Proof.
  destruct o as [x ok| |]; simpl.
  - unfold queue_push, queue_push_resume.
    destruct (shutdown q) eqn:Hs; simpl; [done|].
    rewrite andb_true_r. destruct (capacity q <=? size q); simpl; [by rewrite Hs|].
    destruct (copy ok x); simpl; by rewrite ?Hs.
  - unfold queue_pop.
    destruct (shutdown q) eqn:Hs; simpl.
    + rewrite andb_false_r. destruct (size q =? 0); simpl; by rewrite ?Hs.
    + rewrite andb_true_r. destruct (size q =? 0); simpl; by rewrite ?Hs.
  - by rewrite orb_true_r.
Qed.

Lemma queue_run_shutdown (ops : list (op A)) q :
  shutdown (queue_run ops q).2 = true ↔ shutdown q = true ∨ Close ∈ ops.
Proof.
  revert q. induction ops as [|o ops IH]; intros q; simpl.
  { split; [by left|]. intros [?|H]; [done|]. by apply elem_of_nil in H. }
  pose proof (queue_do_shutdown o q) as Hd.
  destruct (queue_do o q) as [e q1]. specialize (IH q1).
  destruct (queue_run ops q1) as [es q2]. simpl in *.
  rewrite IH, Hd, elem_of_cons, orb_true_iff.
  destruct o; simpl; intuition (try discriminate; auto).
Qed.

(** X1 -- Once closed, a queue blocks nobody and takes nothing in. *)
Theorem closed_queue_never_blocks (ops : list (op A)) q :
  queue_wf q → shutdown q = true →
  let es := (queue_run ops q).1 in
  let q' := (queue_run ops q).2 in
  shutdown q' = true
  ∧ Forall (λ e, e ≠ PushBlocked ∧ e ≠ PopBlocked ∧ ∀ x, e ≠ PushOk x) es
  ∧ (∀ i x ok, ops !! i = Some (Push x ok) → es !! i = Some PushClosed)
  ∧ contents q = popped es ++ contents q'.
Proof.
  intros Hwf Hsd es q'. subst es q'.
  revert q Hwf Hsd. induction ops as [|o ops IH]; intros q Hwf Hsd.
  { simpl. split_and!; [done|constructor|by intros []|done]. }
  simpl.
  destruct (queue_do o q) as [e q1] eqn:Hdo.
  assert (Hq1 : queue_wf q1 ∧ shutdown q1 = true
                ∧ e ≠ PushBlocked ∧ e ≠ PopBlocked ∧ (∀ x, e ≠ PushOk x)
                ∧ (∀ x ok, o = Push x ok → e = PushClosed)
                ∧ contents q = popped [e] ++ contents q1).
  { destruct o as [x ok| |]; simpl in Hdo.
    - unfold queue_push in Hdo. rewrite Hsd in Hdo. simpl in Hdo.
      injection Hdo as <- <-. by split_and!.
    - destruct (queue_pop_cases q Hwf)
        as [(_ & _ & ?)|[(E & _)|(x & q2 & E & Hc & Hwf2 & _ & _ & Hs)]];
        [congruence| |]; rewrite E in Hdo; simpl in Hdo;
        injection Hdo as <- <-; split_and!; try done; congruence.
    - injection Hdo as <- <-. split_and!; try done.
      by apply queue_shutdown_wf. }
  destruct Hq1 as (Hwf1 & Hsd1 & H1 & H2 & H3 & H4 & Hc).
  specialize (IH q1 Hwf1 Hsd1).
  destruct (queue_run ops q1) as [es q2]. simpl in *.
  destruct IH as (I1 & I2 & I3 & I4).
  split_and!; [done|by constructor| |].
  - intros [|i] x ok Hi; simpl in *; [|by eapply I3].
    injection Hi as ->. f_equal. by eapply H4.
  - rewrite Hc, I4. unfold popped. simpl.
    destruct e; simpl; by rewrite ?app_nil_l.
Qed.

End queue_more.

Lemma closed_queue_never_blocks_witness :
  let q := mk_queue [Some 7%nat; Some 8%nat] 2 2 0 0 true in
  queue_wf q ∧ shutdown q = true
  ∧ contents q
    = popped (queue_run [Push 9%nat true; Pop; Pop; Pop] q).1
      ++ contents (queue_run [Push 9%nat true; Pop; Pop; Pop] q).2.
Proof.
  intros q.
  assert (Hwf : queue_wf q).
  { split; simpl; unfold SIZE_MAX; try lia; try done.
    intros [|[|k]] Hk; [by eexists|by eexists|lia]. }
  split; [exact Hwf|]. split; [reflexivity|].
  exact (proj2 (proj2 (proj2
    (closed_queue_never_blocks [Push 9%nat true; Pop; Pop; Pop] q
       Hwf eq_refl)))).
Defined.

Section queue_capacity.

Context {A : Type}.
Implicit Types (q : queue_t A) (x : A) (o : op A).

Lemma queue_run_step o (ops : list (op A)) q :
  queue_run (o :: ops) q
  = ((queue_do o q).1 :: (queue_run ops (queue_do o q).2).1,
     (queue_run ops (queue_do o q).2).2).
Proof.
  cbn [queue_run]. destruct (queue_do o q) as [e q1]. cbn [fst snd].
  by destruct (queue_run ops q1).
Qed.

Lemma queue_do_push_ok x q q' :
  queue_push_resume (copy true) q x = Ret QUEUE_SUCCESS q' →
  queue_do (Push x true) q = (PushOk x, q').
Proof.
  intros E. unfold queue_do. rewrite queue_push_cases, E. reflexivity.
Qed.

Lemma queue_run_pushes (xs : list A) q :
  queue_wf q → shutdown q = false →
  size q + Z.of_nat (length xs) ≤ capacity q →
  let q' := (queue_run ((λ x, Push x true) <$> xs) q).2 in
  (queue_run ((λ x, Push x true) <$> xs) q).1 = PushOk <$> xs
  ∧ queue_wf q' ∧ shutdown q' = false
  ∧ capacity q' = capacity q
  ∧ size q' = size q + Z.of_nat (length xs)
  ∧ contents q' = contents q ++ (Some <$> xs).
Proof.
  revert q. induction xs as [|x xs IH]; intros q Hwf Hop Hroom.
  { simpl. split_and!; try done; [lia|by rewrite app_nil_r]. }
  rewrite length_cons in Hroom. rewrite !fmap_cons, queue_run_step.
  destruct (queue_push_resume_cases (copy true) q x Hwf)
    as [(_ & ? & _)|[(_ & ?)|[(_ & _ & _ & ?)
       |(c & q1 & Hc & E & _ & _ & Hwf1 & Hcont & Hcap & Hsz & Hop1)]]];
    [lia|congruence|done|].
  injection Hc as <-. rewrite (queue_do_push_ok x q q1 E).
  destruct (IH q1 Hwf1 Hop1 ltac:(lia)) as (I1 & I2 & I3 & I4 & I5 & I6).
  cbn [fst snd]. rewrite I1, I4, I5, I6, Hcont, Hcap, Hsz, length_cons.
  split_and!; try done; [lia|]. by rewrite <- app_assoc.
Qed.

(** X2 -- A queue of capacity [C] takes exactly [C] items: the pushes of any
    [C] strings on a fresh queue all succeed, [queue_is_full] then answers
    1 and one more push parks; a pop hands back the first string pushed,
    after which [queue_is_full] answers 0 and the push goes through. *)
Theorem queue_fills_to_capacity (C : Z) (xs : list A) (x0 y : A) :
  0 < C ≤ SIZE_MAX → Z.of_nat (length (x0 :: xs)) = C →
  ∃ q0 : queue_t A,
    queue_init C true = Some q0
    ∧ queue_is_empty q0 = true ∧ queue_is_full q0 = false
    ∧ queue_pop q0 = Wait
    ∧ let full := (queue_run ((λ x, Push x true) <$> x0 :: xs) q0).2 in
      (queue_run ((λ x, Push x true) <$> x0 :: xs) q0).1 = PushOk <$> x0 :: xs
      ∧ queue_is_full full = true ∧ queue_size full = C
      ∧ queue_push (copy true) full (Some y) = Wait
      ∧ ∃ q1 q2,
          queue_pop full = Ret (QUEUE_SUCCESS, Some x0) q1
          ∧ queue_is_full q1 = false
          ∧ queue_push (copy true) q1 (Some y) = Ret QUEUE_SUCCESS q2
          ∧ contents q2 = Some <$> (xs ++ [y])
          ∧ queue_is_full q2 = true.
Proof.
  intros HC Hlen. destruct (queue_init_some (A:=A) C HC) as [q0 Hq0].
  destruct (queue_init_wf C q0 HC Hq0) as (Hwf & Hcont & Hcap & Hsz & Hsd).
  exists q0.
  assert (Hpop0 : queue_pop q0 = Wait).
  { destruct (queue_pop_cases q0 Hwf)
      as [(E & _)|[(_ & ? & _)|(? & ? & _ & ? & _)]]; [done|congruence|].
    by rewrite Hcont in *. }
  split_and!; [done| | |done|].
  { unfold queue_is_empty. rewrite Hsz. done. }
  { unfold queue_is_full. rewrite Hsd, Hsz, Hcap.
    destruct (Z.leb_spec C 0); [lia|done]. }
  intros full.
  destruct (queue_run_pushes (x0 :: xs) q0 Hwf Hsd ltac:(lia))
    as (Hes & Hwff & Hopf & Hcapf & Hszf & Hcontf).
  fold full in Hwff, Hopf, Hcapf, Hszf, Hcontf.
  rewrite Hcont, Hsz, Hcap in *. simpl in Hcontf.
  assert (Hfull : queue_is_full full = true).
  { unfold queue_is_full. rewrite Hopf, Hcapf, Hszf.
    destruct (Z.leb_spec C (0 + Z.of_nat (length (x0 :: xs)))); [done|lia]. }
  split_and!; [done|done|unfold queue_size; lia| |].
  { rewrite queue_push_cases.
    destruct (queue_push_resume_cases (copy true) full y Hwff)
      as [(E & _)|[(_ & ?)|[(_ & _ & ? & _)|(? & ? & _ & _ & _ & ? & _)]]];
      [done|congruence|lia|lia]. }
  destruct (queue_pop_cases full Hwff)
    as [(_ & ? & _)|[(_ & _ & ?)
       |(x & q1 & E & Hc1 & Hwf1 & Hcap1 & Hsz1 & Hop1)]]; [lia|lia|].
  rewrite Hcontf in Hc1. injection Hc1 as <- Hc1.
  assert (Hnf : queue_is_full q1 = false).
  { unfold queue_is_full. destruct (Z.leb_spec (capacity q1) (size q1)); [lia|done]. }
  destruct (queue_push_resume_cases (copy true) q1 y Hwf1)
    as [(_ & ? & _)|[(_ & ?)|[(_ & _ & _ & ?)
       |(c & q2 & Hc & E2 & _ & _ & Hwf2 & Hcont2 & Hcap2 & Hsz2 & Hop2)]]];
    [lia|congruence|done|].
  injection Hc as <-.
  exists q1, q2. rewrite queue_push_cases. split_and!; [done|done|done| |].
  - by rewrite Hcont2, <- Hc1, fmap_app.
  - unfold queue_is_full. rewrite Hop2.
    destruct (Z.leb_spec (capacity q2) (size q2)); [done|lia].
Qed.

(** X3 -- The size a queue reports is the number of successful pushes less the
    number of successful pops; it reports empty exactly when the consumer
    has taken everything the producer put in, and full exactly when it is
    open and holds [C] items. *)
Theorem queue_size_accounts (C : Z) (ops : list (op A)) :
  0 < C ≤ SIZE_MAX →
  ∃ q0 : queue_t A,
    queue_init C true = Some q0
    ∧ let es := (queue_run ops q0).1 in
      let q := (queue_run ops q0).2 in
      Z.of_nat (length (pushed es))
      = Z.of_nat (length (popped es)) + queue_size q
      ∧ (queue_is_empty q = true ↔ popped es = pushed es)
      ∧ (queue_is_full q = true
         ↔ Z.of_nat (length (pushed es)) = Z.of_nat (length (popped es)) + C
           ∧ Close ∉ ops).
Proof.
  intros HC. destruct (queue_init_some (A:=A) C HC) as [q0 Hq0].
  destruct (queue_init_wf C q0 HC Hq0) as (Hwf & Hcont & Hcap & Hsz & Hsd).
  exists q0. split; [done|]. intros es q.
  destruct (queue_run_abstract ops q0 Hwf) as [Hwf' E].
  destruct (queue_run_wf ops q0 Hwf) as [_ Hcap'].
  pose proof (spec_run_fifo ops (abstract q0)) as Hfifo.
  rewrite E in Hfifo. simpl in Hfifo. rewrite Hcont in Hfifo. simpl in Hfifo.
  fold es q in Hfifo, Hwf', Hcap'.
  pose proof (contents_length q Hwf') as Hlen.
  pose proof (wf_size _ Hwf') as Hs.
  pose proof (queue_run_shutdown ops q0) as Hcl. fold q in Hcl.
  assert (Hacc : Z.of_nat (length (pushed es))
                 = Z.of_nat (length (popped es)) + size q).
  { rewrite Hfifo, length_app. lia. }
  split_and!; [done| |].
  - unfold queue_is_empty. rewrite Z.eqb_eq. split.
    + intros H0. rewrite Hfifo, (contents_nil q H0). by rewrite app_nil_r.
    + intros Heq. rewrite Heq in Hacc. lia.
  - unfold queue_is_full. rewrite andb_true_iff, negb_true_iff, Z.leb_le.
    split.
    + intros [Hle Hop]. split; [lia|]. intros Hin.
      assert (shutdown q = true) by (apply Hcl; by right). congruence.
    + intros [Hn Hin]. split; [lia|].
      apply not_true_is_false. intros Ht. apply Hcl in Ht as [?|?]; [congruence|done].
Qed.

(** What the two calls return on a valid handle. *)
Lemma queue_valid_returns (dup : A → option A) q :
  (∀ str r q', queue_push dup q str = Ret r q' →
     (r = QUEUE_SUCCESS ∨ r = QUEUE_ERROR ∨ r = QUEUE_SHUTDOWN)
     ∧ (r ≠ QUEUE_SUCCESS → q' = q)
     ∧ (r = QUEUE_ERROR → str = None ∨ ∃ s, str = Some s ∧ dup s = None))
  ∧ (∀ r out q', queue_pop q = Ret (r, out) q' →
       (r = QUEUE_SUCCESS ∨ r = QUEUE_SHUTDOWN)
       ∧ (r ≠ QUEUE_SUCCESS → q' = q ∧ out = None)
       ∧ (r = QUEUE_SUCCESS → queue_wf q → is_Some out)).
Proof.
  split.
  - intros str r q' H. unfold queue_push, queue_push_resume in H.
    destruct str as [s|]; [|injection H as <- <-; by split_and!; auto].
    destruct (shutdown q) eqn:Hs; simpl in H.
    { injection H as <- <-. split_and!; auto; done. }
    rewrite andb_true_r in H.
    destruct (capacity q <=? size q); [done|].
    destruct (dup s) eqn:Hd; injection H as <- <-; split_and!; auto;
      try done.
    intros _. right. by exists s.
  - intros r out q' H. split_and!.
    + unfold queue_pop in H.
      destruct ((size q =? 0) && negb (shutdown q)); [done|].
      destruct (shutdown q && (size q =? 0)); injection H as <- <- <-; auto.
    + intros Hr. unfold queue_pop in H.
      destruct ((size q =? 0) && negb (shutdown q)); [done|].
      destruct (shutdown q && (size q =? 0)); injection H as <- <- <-; done.
    + intros -> Hwf.
      destruct (queue_pop_cases q Hwf)
        as [(E & _)|[(E & _)|(x & q2 & E & _)]]; rewrite E in H;
        [done|done|]. injection H as <- <-. by eexists.
Qed.

(** X4 -- The return codes of [queue_push] and [queue_pop], NULL arguments
    included, and what a failed call leaves behind.  A call given a NULL
    [queue], [str] or [out_str] returns -1 at once, without parking, and
    touches neither the queue nor [*out_str].  Either call returns only 0,
    -1 ([QUEUE_ERROR]) or [QUEUE_SHUTDOWN], and on any code but 0 the queue
    is handed back as it was.  [queue_push] returns -1 only for a NULL
    argument or a failed [strdup]; [queue_pop] returns -1 only for a NULL
    argument, and on [QUEUE_SHUTDOWN] it has set [*out_str] to NULL.  A pop
    that returns 0 on a well-formed queue delivers a string, never NULL. *)
Theorem queue_failures_change_nothing (dup : A → option A)
  (queue : option (queue_t A)) :
  (∀ str, queue = None ∨ str = None →
     queue_push_args dup queue str = Returned QUEUE_ERROR queue)
  ∧ (∀ str r queue', queue_push_args dup queue str = Returned r queue' →
       (r = QUEUE_SUCCESS ∨ r = QUEUE_ERROR ∨ r = QUEUE_SHUTDOWN)
       ∧ (r ≠ QUEUE_SUCCESS → queue' = queue)
       ∧ (r = QUEUE_ERROR →
          queue = None ∨ str = None ∨ ∃ s, str = Some s ∧ dup s = None))
  ∧ (∀ out_str, queue = None ∨ out_str = None →
       queue_pop_args queue out_str = Returned (QUEUE_ERROR, out_str) queue)
  ∧ (∀ out_str r out queue',
       queue_pop_args queue out_str = Returned (r, out) queue' →
       (r = QUEUE_SUCCESS ∨ r = QUEUE_ERROR ∨ r = QUEUE_SHUTDOWN)
       ∧ (r ≠ QUEUE_SUCCESS → queue' = queue)
       ∧ (r = QUEUE_ERROR →
          (queue = None ∨ out_str = None) ∧ out = out_str)
       ∧ (r = QUEUE_SHUTDOWN → out = Some None)
       ∧ (r = QUEUE_SUCCESS →
          ∀ q, queue = Some q → queue_wf q → ∃ x, out = Some (Some x))).
Proof.
  split_and!.
  - intros str [->| ->]; [done|]. by destruct queue.
  - intros str r queue' H. unfold queue_push_args in H.
    destruct queue as [q|].
    + destruct (queue_push dup q str) as [|r0 q0] eqn:E; [done|].
      injection H as <- <-.
      destruct (proj1 (queue_valid_returns dup q) str r0 q0 E)
        as (Hr & Hsame & Herr).
      split_and!; [done| |].
      * intros Hne. by rewrite (Hsame Hne).
      * intros Hr0. right. by apply Herr.
    + injection H as <- <-. split_and!; auto.
  - intros out_str [->| ->]; [done|]. by destruct queue.
  - intros out_str r out queue' H. unfold queue_pop_args in H.
    destruct queue as [q|]; [destruct out_str as [v|]|].
    + destruct (queue_pop q) as [|[r0 item] q0] eqn:E; [done|].
      injection H as <- <- <-.
      destruct (proj2 (queue_valid_returns dup q) r0 item q0 E)
        as (Hr & Hsame & Hok).
      split_and!.
      * destruct Hr as [->| ->]; auto.
      * intros Hne. by destruct (Hsame Hne) as [-> _].
      * intros ->. by destruct Hr.
      * intros ->. by destruct (Hsame ltac:(done)) as [_ ->].
      * intros -> q1 [= <-] Hwf. destruct (Hok eq_refl Hwf) as [x ->].
        by exists x.
    + injection H as <- <- <-. split_and!; auto; try done.
    + injection H as <- <- <-. split_and!; auto; try done.
Qed.

End queue_capacity.

Lemma queue_fills_to_capacity_witness :
  0 < 2 ≤ SIZE_MAX ∧ Z.of_nat (length [1%nat; 2%nat]) = 2
  ∧ ∃ q0 : queue_t nat,
      queue_init 2 true = Some q0
      ∧ queue_push (copy true)
          (queue_run ((λ x, Push x true) <$> [1%nat; 2%nat]) q0).2
          (Some 3%nat) = Wait.
Proof.
  assert (HC : 0 < 2 ≤ SIZE_MAX) by (unfold SIZE_MAX; lia).
  split; [exact HC|]. split; [reflexivity|].
  destruct (queue_fills_to_capacity 2 [2%nat] 1%nat 3%nat HC eq_refl)
    as (q0 & H0 & _ & _ & _ & H).
  exists q0. split; [exact H0|]. cbv zeta in H.
  exact (proj1 (proj2 (proj2 (proj2 H)))).
Defined.

Lemma queue_size_accounts_witness :
  0 < 2 ≤ SIZE_MAX
  ∧ ∃ q0 : queue_t nat,
      queue_init 2 true = Some q0
      ∧ Z.of_nat (length (pushed (queue_run [Push 1%nat true; Pop; Pop] q0).1))
        = Z.of_nat (length (popped (queue_run [Push 1%nat true; Pop; Pop] q0).1))
          + queue_size (queue_run [Push 1%nat true; Pop; Pop] q0).2.
Proof.
  assert (HC : 0 < 2 ≤ SIZE_MAX) by (unfold SIZE_MAX; lia).
  split; [exact HC|].
  destruct (queue_size_accounts 2 [Push 1%nat true; Pop; Pop] HC)
    as (q0 & H0 & H).
  exists q0. split; [exact H0|]. cbv zeta in H. exact (proj1 H).
Defined.

(** * The queue and the heap *)

Lemma queue_pop_head (q : queue_t Z) :
  0 < size q →
  queue_pop q
  = Ret (QUEUE_SUCCESS, slot_read (buffer q) (head q))
      {| buffer := slot_write (buffer q) (head q) None;
         capacity := capacity q;
         size := size_wrap (size q - 1);
         head := size_wrap (head q + 1) mod capacity q;
         tail := tail q;
         shutdown := shutdown q |}.
Proof.
  intros Hs. unfold queue_pop.
  destruct (Z.eqb_spec (size q) 0) as [?|_]; [lia|].
  by rewrite andb_false_r.
Qed.

Lemma contents_held (q : queue_t Z) :
  queue_wf q → contents q = Some <$> held q.
Proof.
  intros Hwf. unfold held, contents.
  pose proof (wf_slots _ Hwf) as Hsl.
  assert (H : ∀ l : list nat, Forall (λ k, Z.of_nat k < size q) l →
            nth_slot q <$> l = Some <$> omap id (nth_slot q <$> l)).
  { induction 1 as [|k l Hk _ IH]; [done|].
    destruct (Hsl k Hk) as [x Hx]. rewrite fmap_cons, Hx. simpl.
    by f_equal. }
  apply H. apply Forall_forall. intros k Hk.
  apply elem_of_seq in Hk. pose proof (wf_size _ Hwf). lia.
Qed.

Lemma queue_destroy_loop_frees (n : nat) (h : gmap Z cstring) (q : queue_t Z) :
  queue_wf q → length (held q) = n →
  NoDup (held q) → (∀ p, p ∈ held q → is_Some (h !! p)) →
  ∃ q', queue_destroy_loop n h q
        = Some (foldr delete h (held q), q')
        ∧ size q' = 0 ∧ capacity q' = capacity q
        ∧ shutdown q' = shutdown q.
Proof.
  revert h q. induction n as [|n IH]; intros h q Hwf Hn Hnd Hlive.
  { exists q. apply nil_length_inv in Hn as Hn'. simpl. rewrite Hn'.
    split_and!; try done.
    pose proof (contents_length q Hwf) as Hl.
    rewrite (contents_held q Hwf), length_fmap, Hn in Hl. lia. }
  pose proof (contents_length q Hwf) as Hl.
  rewrite (contents_held q Hwf), length_fmap, Hn in Hl.
  cbn [queue_destroy_loop].
  destruct (Z.ltb_spec 0 (size q)) as [Hpos|?]; [|lia].
  pose proof (queue_pop_head q Hpos) as Hpop.
  destruct (queue_pop_cases q Hwf)
    as [(E & _)|[(E & _)|(x & q1 & E & Hc & Hwf1 & Hcap1 & Hsz1 & Hsd1)]];
    rewrite Hpop in E; [discriminate E|discriminate E|].
  injection E as Hx Hq1. rewrite Hx, Hq1.
  assert (Hheld : held q = x :: held q1).
  { unfold held at 1. by rewrite Hc. }
  rewrite Hheld in Hnd, Hlive, Hn. apply NoDup_cons in Hnd as [Hx1 Hnd1].
  destruct (Hlive x ltac:(left)) as [s Hs].
  simpl. rewrite Hs.
  destruct (IH (Mem.free h x) q1 Hwf1 ltac:(simpl in Hn; lia) Hnd1)
    as (q' & Hloop & Hsz & Hcap & Hsd).
  { intros p Hp. unfold Mem.free. rewrite lookup_delete_ne; [|by intros ->].
    apply Hlive. by right. }
  exists q'. rewrite Hloop, Hheld. split_and!; [|done|congruence|congruence].
  f_equal. f_equal. simpl. unfold Mem.free.
  clear. induction (held q1) as [|a l IHl]; simpl; [done|].
  rewrite IHl. apply delete_delete.
Qed.

Lemma queue_destroy_lookup (h : gmap Z cstring) (q : queue_t Z) :
  queue_wf q → NoDup (held q) → (∀ p, p ∈ held q → is_Some (h !! p)) →
  ∃ h' q',
    queue_destroy h q = Some (h', q')
    ∧ size q' = 0 ∧ buffer q' = []
    ∧ ∀ p, h' !! p = if decide (p ∈ held q) then None else h !! p.
Proof.
  intros Hwf Hnd Hlive.
  destruct (queue_destroy_loop_frees (length (held q)) h q Hwf eq_refl Hnd Hlive)
    as (q' & Hloop & Hsz & _).
  pose proof (contents_length q Hwf) as Hl.
  rewrite (contents_held q Hwf), length_fmap in Hl.
  unfold queue_destroy. rewrite <- Hl, Nat2Z.id, Hloop.
  eexists _, _. split_and!; [done|done|done|].
  intros p. clear. induction (held q) as [|a l IH]; cbn [foldr].
  { destruct (decide (p ∈ [])) as [H|_]; [by apply elem_of_nil in H|done]. }
  destruct (decide (p = a)) as [->|Hne].
  - rewrite lookup_delete_eq.
    destruct (decide (a ∈ a :: l)) as [_|H]; [done|].
    exfalso. apply H. by left.
  - rewrite lookup_delete_ne by done. rewrite IH.
    destruct (decide (p ∈ l)) as [Hl|Hl];
      destruct (decide (p ∈ a :: l)) as [Hal|Hal]; try done.
    + exfalso. apply Hal. by right.
    + apply elem_of_cons in Hal as [?|?]; done.
Qed.

(** X5 -- [queue_destroy] releases exactly the strings still enqueued: on a
    well-formed queue whose slots hold distinct live blocks it frees each of
    them, touches no other block, and leaves the queue empty with its slot
    array gone. *)
Theorem queue_destroy_frees_held (h : gmap Z cstring) (q : queue_t Z) :
  queue_wf q → NoDup (held q) → (∀ p, p ∈ held q → is_Some (h !! p)) →
  ∃ h' q',
    queue_destroy h q = Some (h', q')
    ∧ size q' = 0 ∧ buffer q' = []
    ∧ (∀ p, p ∈ held q → h' !! p = None)
    ∧ (∀ p, p ∉ held q → h' !! p = h !! p).
Proof.
  intros Hwf Hnd Hlive.
  destruct (queue_destroy_lookup h q Hwf Hnd Hlive)
    as (h' & q' & E & Hs & Hb & Hh).
  exists h', q'. split_and!; [done|done|done| |].
  - intros p Hp. rewrite Hh. by rewrite decide_True.
  - intros p Hp. rewrite Hh. by rewrite decide_False.
Qed.

Lemma mem_do_owns (h0 h : gmap Z cstring) (q : queue_t Z) (o : mem_op) :
  owns h0 h q → mem_op_ok o h →
  ∃ h' q', mem_do o h q = Some (h', q') ∧ owns h0 h' q'.
Proof.
  intros (Hwf & Hnd & Hlive & Hrest) Hok.
  destruct o as [str fresh| |]; simpl.
  - destruct Hok as [Hstr Hfresh]. unfold Mem.push.
    destruct (Z.eqb_spec str 0) as [->|Hne].
    { simpl. eexists _, _. split; [done|]. done. }
    destruct Hstr as [?|[s Hs]]; [done|].
    rewrite queue_push_cases.
    destruct (queue_push_resume_cases (λ _, fresh) q str Hwf)
      as [(E & _)|[(E & _)|[(E & _)
         |(c & q1 & Hc & E & _ & _ & Hwf1 & Hcont & _)]]]; rewrite E.
    + eexists _, _. split; [done|]. done.
    + eexists _, _. split; [done|]. done.
    + eexists _, _. split; [done|]. done.
    + subst fresh. rewrite Hs. simpl.
      eexists _, _. split; [done|].
      assert (Hheld : held q1 = held q ++ [c]).
      { unfold held. by rewrite Hcont, omap_app. }
      assert (Hc : c ∉ held q).
      { intros Hin. destruct (Hlive c Hin) as [_ [? ?]]. congruence. }
      assert (Hc0 : h0 !! c = None) by (by rewrite <- (Hrest c Hc)).
      split_and!; [done| | |].
      * rewrite Hheld. apply NoDup_app. split_and!; [done| |apply NoDup_singleton].
        intros p Hp Hp'. apply list_elem_of_singleton in Hp' as ->. done.
      * intros p Hp. rewrite Hheld in Hp.
        apply elem_of_app in Hp as [Hp|Hp].
        -- destruct (Hlive p Hp) as [? ?]. split; [done|].
           rewrite lookup_insert_ne; [done|]. by intros ->.
        -- apply list_elem_of_singleton in Hp as ->.
           rewrite lookup_insert_eq. split; [done|by eexists].
      * intros p Hp. rewrite Hheld in Hp.
        rewrite lookup_insert_ne.
        -- apply Hrest. intros Hin. apply Hp. apply elem_of_app. by left.
        -- intros ->. apply Hp. apply elem_of_app. right. by left.
  - destruct (queue_pop_cases q Hwf)
      as [(E & _)|[(E & _)|(x & q1 & E & Hc & Hwf1 & _)]]; rewrite E.
    + eexists _, _. split; [done|]. done.
    + simpl. eexists _, _. split; [done|]. done.
    + simpl. assert (Hheld : held q = x :: held q1).
      { unfold held at 1. by rewrite Hc. }
      rewrite Hheld in Hnd, Hlive, Hrest.
      apply NoDup_cons in Hnd as [Hx Hnd1].
      destruct (Hlive x ltac:(left)) as [Hx0 [s Hs]]. rewrite Hs.
      eexists _, _. split; [done|]. unfold Mem.free. split_and!; [done|done| |].
      * intros p Hp. destruct (Hlive p ltac:(by right)) as [? ?].
        split; [done|]. rewrite lookup_delete_ne; [done|]. by intros ->.
      * intros p Hp. destruct (decide (p = x)) as [->|Hne].
        -- by rewrite lookup_delete_eq.
        -- rewrite lookup_delete_ne by done. apply Hrest.
           intros Hin. apply elem_of_cons in Hin as [?|?]; done.
  - eexists _, _. split; [done|].
    split_and!; [by apply queue_shutdown_wf|done|done|done].
Qed.

(** X6 -- No leak, no double free.  Take a queue from [queue_init] on any heap,
    any sequence of pushes, of pops whose caller frees what it popped, and
    of shutdowns, and then [queue_destroy].  If every pushed pointer is NULL
    or a live string and [strdup] only answers with unused blocks, then no
    [free] in the whole run is given a dead block, and in the end the heap
    is the one the run started from: every copy the queue made has been
    released exactly once, and nothing of the callers' has been touched. *)
Theorem queue_lifecycle_restores_heap (C : Z) (h0 : gmap Z cstring)
  (q0 : queue_t Z) (ops : list mem_op) :
  0 < C ≤ SIZE_MAX → queue_init C true = Some q0 →
  mem_ops_ok ops h0 q0 →
  ∃ h q q',
    mem_run ops h0 q0 = Some (h, q)
    ∧ queue_destroy h q = Some (h0, q').
Proof.
  intros HC Hq0.
  destruct (queue_init_wf C q0 HC Hq0) as (Hwf & Hcont & _).
  assert (Hown : owns h0 h0 q0).
  { unfold owns, held. rewrite Hcont. simpl.
    split_and!; [done|constructor| |done].
    intros p Hp. by apply elem_of_nil in Hp. }
  assert (Hrun : ∀ ops h q, owns h0 h q → mem_ops_ok ops h q →
            ∃ h' q', mem_run ops h q = Some (h', q') ∧ owns h0 h' q').
  { clear. induction ops as [|o ops IH]; intros h q Hown Hok; simpl.
    { by eexists _, _. }
    destruct Hok as [Hok1 Hok].
    destruct (mem_do_owns h0 h q o Hown Hok1) as (h1 & q1 & E & Hown1).
    rewrite E in Hok |- *. by apply IH. }
  intros Hok. destruct (Hrun ops h0 q0 Hown Hok) as (h & q & E & Hown').
  destruct Hown' as (Hwf' & Hnd & Hlive & Hrest).
  destruct (queue_destroy_lookup h q Hwf' Hnd (λ p Hp, proj2 (Hlive p Hp)))
    as (h' & q' & Ed & _ & _ & Hh').
  exists h, q, q'. split; [done|]. rewrite Ed. do 2 f_equal.
  apply map_eq. intros p. rewrite Hh'.
  destruct (decide (p ∈ held q)) as [Hin|Hnin].
  - by destruct (Hlive p Hin) as [-> _].
  - by apply Hrest.
Qed.

Lemma queue_destroy_frees_held_witness :
  let h : gmap Z cstring :=
    {[ 16 := list_ascii_of_string "a"; 32 := list_ascii_of_string "b" ]} in
  let q := mk_queue [Some 32; Some 16] 2 2 1 1 false in
  queue_wf q ∧ NoDup (held q) ∧ (∀ p, p ∈ held q → is_Some (h !! p))
  ∧ ∃ h' q', queue_destroy h q = Some (h', q') ∧ size q' = 0.
Proof.
  intros h q.
  assert (Hwf : queue_wf q).
  { split; simpl; unfold SIZE_MAX; try lia; try done.
    intros [|[|k]] Hk; [by eexists|by eexists|lia]. }
  assert (Hnd : NoDup (held q)).
  { refine (bool_decide_unpack _ _). by vm_compute. }
  assert (Hlive : ∀ p, p ∈ held q → is_Some (h !! p)).
  { intros p Hp. change (held q) with [16; 32] in Hp.
    apply elem_of_cons in Hp as [->|Hp]; [by eexists|].
    apply list_elem_of_singleton in Hp as ->. by eexists. }
  split; [exact Hwf|]. split; [exact Hnd|]. split; [exact Hlive|].
  destruct (queue_destroy_frees_held h q Hwf Hnd Hlive)
    as (h' & q' & E & Hs & _).
  exists h', q'. split; [exact E|exact Hs].
Defined.

Lemma queue_lifecycle_restores_heap_witness :
  let h0 : gmap Z cstring := {[ 16 := list_ascii_of_string "a" ]} in
  let q0 := mk_queue [None; None] 2 0 0 0 false in
  let ops := [MemPush 16 (Some 32); MemPush 16 (Some 48); MemPopFree;
              MemPush 0 None; MemShutdown] in
  0 < 2 ≤ SIZE_MAX ∧ queue_init 2 true = Some q0 ∧ mem_ops_ok ops h0 q0
  ∧ ∃ h q q', mem_run ops h0 q0 = Some (h, q)
              ∧ queue_destroy h q = Some (h0, q').
Proof.
  intros h0 q0 ops.
  assert (HC : 0 < 2 ≤ SIZE_MAX) by (unfold SIZE_MAX; lia).
  assert (Hok : mem_ops_ok ops h0 q0).
  { vm_compute. split_and!; try done; try (by right; eexists); by left. }
  split; [exact HC|]. split; [reflexivity|]. split; [exact Hok|].
  exact (queue_lifecycle_restores_heap 2 h0 q0 ops HC eq_refl Hok).
Defined.

(** * More on the transforms *)

Lemma fold_upper_cases (c : ascii) :
  (islower (code c) = false ∧ fold_upper c = c)
  ∨ (islower (code c) = true ∧ code (fold_upper c) = code c - 32).
Proof.
  unfold fold_upper. destruct (islower (code c)) eqn:H.
  - right. split; [done|]. by apply toupper_letter.
  - left. split; [done|]. by apply toupper_other.
Qed.

Lemma fold_lower_cases (c : ascii) :
  (isupper (code c) = false ∧ fold_lower c = c)
  ∨ (isupper (code c) = true ∧ code (fold_lower c) = code c + 32).
Proof.
  unfold fold_lower. destruct (isupper (code c)) eqn:H.
  - right. split; [done|]. by apply tolower_letter.
  - left. split; [done|]. by apply tolower_other.
Qed.

Lemma code_inj (a b : ascii) : code a = code b → a = b.
Proof. intros H. by rewrite <- (to_char_code a), <- (to_char_code b), H. Qed.

Lemma fold_upper_lower (c : ascii) :
  fold_upper (fold_upper c) = fold_upper c
  ∧ fold_lower (fold_lower c) = fold_lower c
  ∧ fold_upper (fold_lower c) = fold_upper c
  ∧ fold_lower (fold_upper c) = fold_lower c.
Proof.
  pose proof (code_bounds c) as Hb.
  split_and!; apply code_inj.
  - destruct (fold_upper_cases c) as [[H E]|[H E]]; [by rewrite !E|].
    destruct (fold_upper_cases (fold_upper c)) as [[H' E']|[H' E']];
      [by rewrite E'|].
    rewrite E in H'. unfold islower in *. lia.
  - destruct (fold_lower_cases c) as [[H E]|[H E]]; [by rewrite !E|].
    destruct (fold_lower_cases (fold_lower c)) as [[H' E']|[H' E']];
      [by rewrite E'|].
    rewrite E in H'. unfold isupper in *. lia.
  - destruct (fold_lower_cases c) as [[H E]|[H E]]; [by rewrite !E|].
    destruct (fold_upper_cases (fold_lower c)) as [[H' E']|[H' E']];
      rewrite E in H'; unfold isupper, islower in *; [lia|].
    destruct (fold_upper_cases c) as [[H2 E2]|[H2 E2]];
      unfold islower in *; [|lia].
    rewrite E', E, E2. lia.
  - destruct (fold_upper_cases c) as [[H E]|[H E]]; [by rewrite !E|].
    destruct (fold_lower_cases (fold_upper c)) as [[H' E']|[H' E']];
      rewrite E in H'; unfold isupper, islower in *; [lia|].
    destruct (fold_lower_cases c) as [[H2 E2]|[H2 E2]];
      unfold isupper in *; [|lia].
    rewrite E', E, E2. lia.
Qed.

(** X7 -- Folding the case twice is folding it once, and the second fold wins:
    [upper] and [lower] are idempotent, [upper] after [lower] is [upper] and
    [lower] after [upper] is [lower], on every string of bytes. *)
Theorem case_folds_compose (x : cstring) :
  chain [upper_so; upper_so] x = chain [upper_so] x
  ∧ chain [lower_so; lower_so] x = chain [lower_so] x
  ∧ chain [lower_so; upper_so] x = chain [upper_so] x
  ∧ chain [upper_so; lower_so] x = chain [lower_so] x.
Proof.
  cbn. rewrite <- !list_fmap_compose.
  split_and!; f_equal; apply list_fmap_ext; intros i c _; simpl;
    apply fold_upper_lower.
Qed.

(** X8 -- [reverse] is the reversal of the string: the byte at index [i] ends up
    at index [len - 1 - i], and [reverse] applied twice gives the line
    back. *)
Theorem reverse_is_involution (x : cstring) :
  transform_reverse all_ok x = Some (reverse x)
  ∧ (∀ (i : nat) (c : ascii), x !! i = Some c →
       transform_reverse all_ok x ≫= (.!! (length x - 1 - i)%nat) = Some c)
  ∧ chain [reverse_so; reverse_so] x = Some x.
Proof.
  assert (H : ∀ z, transform_reverse all_ok z = Some (reverse z)).
  { intros z. by apply transform_reverse_spec. }
  split_and!; [apply H| |].
  - intros i c Hi. rewrite H. simpl.
    apply lookup_lt_Some in Hi as Hlt.
    rewrite reverse_lookup by lia. rewrite <- Hi. f_equal. lia.
  - cbn [chain reverse_so plugin_of plugin_transform].
    by rewrite !H, reverse_involutive.
Qed.

Lemma trim_start_spec (x : cstring) :
  (trim_start x ≤ length x)%nat
  ∧ Forall space (take (trim_start x) x)
  ∧ ∀ c, x !! trim_start x = Some c → isspace (code c) = false.
Proof.
  induction x as [|a x IH]; simpl.
  { split_and!; [lia|constructor|done]. }
  destruct (isspace (code a)) eqn:Ha; simpl.
  - destruct IH as (I1 & I2 & I3). split_and!; [lia|by constructor|done].
  - split_and!; [lia|constructor|]. intros c [= <-]. done.
Qed.

Lemma trim_end_spec (x : cstring) (start : Z) (fuel : nat) (e : Z) :
  e - start ≤ Z.of_nat fuel → 
  let e' := trim_end fuel x start e in
  e' ≤ e ∧ (start ≤ e → start ≤ e')
  ∧ (∀ k, e' < k ≤ e →
       isspace (code (default NUL (x !! Z.to_nat k))) = true)
  ∧ (start < e' →
       isspace (code (default NUL (x !! Z.to_nat e'))) = false).
Proof.
  revert e. induction fuel as [|fuel IH]; intros e Hf; simpl.
  { split_and!; [lia|done|intros; lia|intros; lia]. }
  destruct (Z.ltb_spec start e) as [Hlt|Hge]; simpl.
  2:{ split_and!; [lia|done|intros; lia|intros; lia]. }
  destruct (isspace (code (default NUL (x !! Z.to_nat e)))) eqn:He.
  2:{ split_and!; [lia|done|intros; lia|done]. }
  destruct (IH (e - 1) ltac:(lia)) as (I1 & I2 & I3 & I4).
  split_and!; [lia|intros; apply I2; lia| |done].
  intros k Hk. destruct (decide (k = e)) as [->|Hne]; [done|].
  apply I3. lia.
Qed.

(** X9 -- [trim] takes the white space off both ends, and nothing else: the line
    is the result between a run of white space on the left and one on the
    right, and the result neither begins nor ends with white space (an
    all-blank line gives the empty string). *)
Theorem trim_strips_both_ends (x : cstring) :
  ∃ l out r : cstring,
    transform_trim all_ok x = Some out
    ∧ x = l ++ out ++ r
    ∧ Forall space l ∧ Forall space r
    ∧ (∀ c, out !! 0%nat = Some c → isspace (code c) = false)
    ∧ (∀ c, out !! (length out - 1)%nat = Some c → isspace (code c) = false).
Proof.
  unfold transform_trim, strdup, all_ok.
  destruct (trim_start_spec x) as (Hs1 & Hs2 & Hs3).
  set (start := trim_start x) in *.
  set (len := length x).
  destruct (trim_end_spec x (Z.of_nat start) len (Z.of_nat len - 1) ltac:(lia))
    as (He1 & He2 & He3 & He4).
  set (e := trim_end len x (Z.of_nat start) (Z.of_nat len - 1)) in *.
  destruct (decide (start = len)) as [Hall|Hsome].
  - (* nothing but white space *)
    assert (e = Z.of_nat len - 1) as ->.
    { subst e. destruct len as [|n]; [done|]. simpl.
      destruct (Z.ltb_spec (Z.of_nat start) (Z.of_nat (S n) - 1)); [lia|done]. }
    exists x, [], []. replace (Z.to_nat (Z.of_nat len - 1 + 1)) with len by lia.
    rewrite (take_ge x len) by (unfold len; lia). split_and!.
    + f_equal. destruct (Nat.eqb_spec start 0) as [H0|H0].
      * apply nil_length_inv. fold len. lia.
      * rewrite Hall. apply drop_all.
    + by rewrite app_nil_r.
    + rewrite <- (take_ge x start) by (unfold len in Hall; lia). done.
    + constructor.
    + done.
    + done.
  - assert (Hlt : (start < len)%nat) by (subst len; lia).
    specialize (He2 ltac:(lia)).
    assert (Hend : ∀ c, x !! Z.to_nat e = Some c → isspace (code c) = false).
    { intros c Hc. destruct (decide (Z.of_nat start < e)) as [Hgt|Hle].
      - specialize (He4 Hgt). by rewrite Hc in He4.
      - replace (Z.to_nat e) with start in Hc by lia. by apply Hs3. }
    exists (take start x), (drop start (take (Z.to_nat (e + 1)) x)),
           (drop (Z.to_nat (e + 1)) x).
    split_and!.
    + f_equal. destruct (Nat.eqb_spec start 0) as [->|H0]; done.
    + rewrite <- (take_drop (Z.to_nat (e + 1)) x) at 1.
      rewrite app_assoc. f_equal.
      rewrite <- (take_drop start (take (Z.to_nat (e + 1)) x)) at 1.
      f_equal. rewrite take_take. f_equal. lia.
    + done.
    + apply Forall_forall. intros c Hc.
      apply list_elem_of_lookup in Hc as [i Hi].
      rewrite lookup_drop in Hi.
      apply lookup_lt_Some in Hi as Hil. fold len in Hil.
      specialize (He3 (Z.of_nat (Z.to_nat (e + 1) + i)) ltac:(lia)).
      rewrite Nat2Z.id, Hi in He3. done.
    + intros c Hc. rewrite lookup_drop, lookup_take_lt in Hc by lia.
      apply Hs3. by rewrite Nat.add_0_r in Hc.
    + intros c Hc. rewrite length_drop, length_take in Hc.
      rewrite lookup_drop, lookup_take_lt in Hc by lia.
      apply Hend. rewrite <- Hc. f_equal. fold len. lia.
Qed.

(** X10 -- [prefix] and [suffix] commute: in either order a line [x] becomes
    [PREFIX ++ x ++ SUFFIX].  When the [strdup] of the line fails the
    transform returns NULL; when only the [malloc] of the longer block fails
    the line is handed on as it came. *)
Theorem prefix_suffix_compose (x : cstring) (mem : alloc) :
  chain [prefix_so; suffix_so] x = Some (PREFIX ++ x ++ SUFFIX)
  ∧ chain [suffix_so; prefix_so] x = Some (PREFIX ++ x ++ SUFFIX)
  ∧ (mem 0%nat = false →
     transform_prefix mem x = None ∧ transform_suffix mem x = None)
  ∧ (mem 0%nat = true → mem 1%nat = false →
     transform_prefix mem x = Some x ∧ transform_suffix mem x = Some x).
Proof.
  split_and!.
  - cbn [chain plugin_transform prefix_so suffix_so plugin_of].
    unfold transform_prefix, transform_suffix, strdup, all_ok.
    by rewrite <- app_assoc.
  - done.
  - intros H. unfold transform_prefix, transform_suffix, strdup. by rewrite H.
  - intros H0 H1. unfold transform_prefix, transform_suffix, strdup.
    by rewrite H0, H1.
Qed.

Lemma fold_upper_keeps (c d : ascii) :
  code d < 65 → fold_upper c = d → c = d.
Proof.
  intros Hd <-. destruct (fold_upper_cases c) as [[_ E]|[H E]]; [done|].
  rewrite E in Hd. unfold islower in H. lia.
Qed.

Lemma fold_lower_keeps (c d : ascii) :
  code d < 65 → fold_lower c = d → c = d.
Proof.
  intros Hd <-. destruct (fold_lower_cases c) as [[_ E]|[H E]]; [done|].
  rewrite E in Hd. unfold isupper in H. lia.
Qed.

(** X11 -- No transform brings a NUL or a newline into a line: what a stage hands
    on is again one line of text, whatever the allocator does. *)
Theorem transforms_keep_one_line (p : plugin) (mem : alloc) (x out : cstring)
  (c : ascii) :
  p ∈ [upper_so; lower_so; reverse_so; trim_so; prefix_so; suffix_so] →
  c = NUL ∨ c = NEWLINE →
  plugin_transform p mem x = Some out →
  c ∉ x → c ∉ out.
Proof.
  intros Hp Hc Hout Hx.
  assert (Hcode : code c < 65) by (destruct Hc as [->| ->]; by vm_compute).
  assert (Hfix : (c ∉ PREFIX) ∧ (c ∉ SUFFIX)).
  { destruct Hc as [->| ->]; split; refine (bool_decide_unpack _ _);
      by vm_compute. }
  destruct Hfix as [Hpre Hsuf].
  repeat (apply elem_of_cons in Hp as [->|Hp]); [..|by apply elem_of_nil in Hp];
    cbn [plugin_transform upper_so lower_so reverse_so trim_so prefix_so
         suffix_so plugin_of] in Hout.
  - unfold transform_upper, strdup in Hout.
    destruct (mem 0%nat); [|done]. injection Hout as <-.
    intros Hin. apply list_elem_of_fmap in Hin as (a & Ha & Hin).
    symmetry in Ha. apply (fold_upper_keeps a c Hcode) in Ha. by subst a.
  - unfold transform_lower, strdup in Hout.
    destruct (mem 0%nat); [|done]. injection Hout as <-.
    intros Hin. apply list_elem_of_fmap in Hin as (a & Ha & Hin).
    symmetry in Ha. apply (fold_lower_keeps a c Hcode) in Ha. by subst a.
  - destruct (mem 0%nat) eqn:Hm.
    + rewrite (transform_reverse_spec mem x Hm) in Hout. injection Hout as <-.
      by rewrite elem_of_reverse.
    + unfold transform_reverse, strdup in Hout. by rewrite Hm in Hout.
  - unfold transform_trim, strdup in Hout.
    destruct (mem 0%nat); [|done]. injection Hout as <-.
    intros Hin. apply Hx.
    assert (Htake : ∀ n, c ∈ take n x → c ∈ x).
    { intros n H. rewrite <- (take_drop n x). apply elem_of_app. by left. }
    destruct (trim_start x =? 0)%nat; [by eapply Htake|].
    eapply Htake. erewrite <- (take_drop (trim_start x) (take _ x)).
    apply elem_of_app. right. exact Hin.
  - unfold transform_prefix, strdup in Hout.
    destruct (mem 0%nat); [|done]. injection Hout as <-.
    destruct (mem 1%nat); [|done]. change (c ∉ PREFIX ++ x).
    rewrite elem_of_app. intros [?|?]; [by apply Hpre|done].
  - unfold transform_suffix, strdup in Hout.
    destruct (mem 0%nat); [|done]. injection Hout as <-.
    destruct (mem 1%nat); [|done]. change (c ∉ x ++ SUFFIX).
    rewrite elem_of_app. intros [?|?]; [done|by apply Hsuf].
Qed.

(** * More on the reader *)

Lemma fgets_bytes_shape (k : nat) (input : list ascii) :
  let chunk := (fgets_bytes k input).1 in
  (length chunk ≤ k)%nat
  ∧ ∀ i, chunk !! i = Some NEWLINE → S i = length chunk.
Proof.
  revert input. induction k as [|k IH]; intros [|c input]; simpl;
    try (split; [lia|done]).
  destruct (Ascii.eqb_spec c NEWLINE) as [->|Hc]; simpl.
  { split; [lia|]. intros [|i] Hi; [done|]. done. }
  specialize (IH input). destruct (fgets_bytes k input) as [l r]. simpl in *.
  destruct IH as [I1 I2]. split; [lia|].
  intros [|i] Hi; simpl in Hi; [congruence|]. f_equal. by apply I2.
Qed.

Lemma c_str_prefix (mem : list ascii) :
  ∃ rest, mem = c_str mem ++ rest ∧ (NUL ∉ c_str mem)
          ∧ (rest = [] ∨ ∃ rest', rest = NUL :: rest').
Proof.
  induction mem as [|c mem (rest & E & Hn & Hr)]; simpl.
  { exists []. split_and!; [done|apply not_elem_of_nil|by left]. }
  destruct (Ascii.eqb_spec c NUL) as [->|Hc].
  - exists (NUL :: mem). split_and!; [done|apply not_elem_of_nil|right; by eexists].
  - exists rest. split_and!; [simpl; by f_equal| |done].
    apply not_elem_of_cons. done.
Qed.

(** What [chomp] makes of one [fgets] chunk. *)
Lemma chomp_chunk (k : nat) (input : list ascii) :
  let line := chomp (fgets_bytes k input).1 in
  (length line ≤ k)%nat ∧ (NUL ∉ line) ∧ (NEWLINE ∉ line).
Proof.
  intros line. subst line.
  destruct (fgets_bytes_shape k input) as [Hlen Hnl].
  set (chunk := (fgets_bytes k input).1) in *.
  destruct (c_str_prefix chunk) as (rest & E & Hnul & Hrest).
  set (s := c_str chunk) in *.
  assert (Hsl : (length s ≤ length chunk)%nat).
  { rewrite E, length_app. lia. }
  assert (Hsnl : ∀ i, s !! i = Some NEWLINE → S i = length s ∧ rest = []).
  { intros i Hi. assert (Hc : chunk !! i = Some NEWLINE).
    { rewrite E. by apply lookup_app_l_Some. }
    apply Hnl in Hc. apply lookup_lt_Some in Hi.
    rewrite E, length_app in Hc. split; [lia|].
    apply nil_length_inv. lia. }
  unfold chomp. fold s.
  destruct (Nat.ltb_spec 0 (length s)) as [Hpos|H0]; simpl.
  2:{ assert (s = []) as -> by (apply nil_length_inv; lia).
      split_and!; [simpl; lia|apply not_elem_of_nil|apply not_elem_of_nil]. }
  destruct (lookup_lt_is_Some_2 s (length s - 1) ltac:(lia)) as [c Hc].
  rewrite Hc. simpl.
  destruct (Ascii.eqb_spec c NEWLINE) as [->|Hne].
  - split_and!.
    + rewrite length_take. lia.
    + intros Hin. apply Hnul. rewrite <- (take_drop (length s - 1) s).
      apply elem_of_app. by left.
    + intros Hin. apply list_elem_of_lookup in Hin as [i Hi].
      apply lookup_lt_Some in Hi as Hlt. rewrite length_take in Hlt.
      rewrite lookup_take_lt in Hi by lia.
      destruct (Hsnl i Hi). lia.
  - split_and!; [lia|done|].
    intros Hin. apply list_elem_of_lookup in Hin as [i Hi].
    destruct (Hsnl i Hi) as [Hi' _].
    replace (length s - 1)%nat with i in Hc by lia. congruence.
Qed.

(** X12 -- Whatever the input, every string the reader pushes is one line: at
    most 1023 bytes, no newline and no NUL in it, and never the sentinel;
    and [queue_shutdown] is called at most once, as the reader's last
    call. *)
Theorem reader_pushes_lines (input : list ascii) :
  (∀ line, CallPush line ∈ input_thread_calls input →
     (length line ≤ MAX_LINE_LENGTH - 1)%nat
     ∧ (NUL ∉ line) ∧ (NEWLINE ∉ line) ∧ line ≠ END_MARK)
  ∧ (∀ i, input_thread_calls input !! i = Some CallShutdown →
       S i = length (input_thread_calls input)).
Proof.
  remember (length input) as n eqn:Hn. revert input Hn.
  induction n as [n IH] using lt_wf_ind. intros input Hn.
  destruct (fgets MAX_LINE_LENGTH input) as [[chunk rest]|] eqn:Hg.
  2:{ unfold input_thread_calls. cbn [input_thread_loop]. rewrite Hg.
      split; [intros line H; by apply elem_of_nil in H|done]. }
  rewrite (input_thread_calls_step input chunk rest Hg).
  destruct (fgets_consumes _ _ _ Hg) as [_ Hlt].
  destruct (IH (length rest) ltac:(lia) rest eq_refl) as [IH1 IH2].
  assert (Hchunk : chunk = (fgets_bytes (MAX_LINE_LENGTH - 1) input).1).
  { unfold fgets in Hg. destruct input; [done|].
    assert (fgets_bytes (MAX_LINE_LENGTH - 1) (a :: input) = (chunk, rest))
      as -> by congruence. done. }
  pose proof (chomp_chunk (MAX_LINE_LENGTH - 1) input) as Hc.
  rewrite <- Hchunk in Hc. cbv zeta in Hc.
  unfold cstring_eqb. case_bool_decide as Heq.
  - split.
    + intros line H. apply list_elem_of_singleton in H. done.
    + intros [|i] Hi; [done|done].
  - split.
    + intros line H. apply elem_of_cons in H as [[= ->]|H]; [|by apply IH1].
      by destruct Hc as (? & ? & ?).
    + intros [|i] Hi; [done|]. simpl in *. f_equal. by apply IH2.
Qed.

Lemma fgets_bytes_eof (k : nat) (line : list ascii) :
  NEWLINE ∉ line → (length line ≤ k)%nat →
  fgets_bytes k line = (line, []).
Proof.
  revert k. induction line as [|c line IH]; intros k Hn Hk; simpl in *.
  - by destruct k.
  - apply not_elem_of_cons in Hn as [Hc Hl].
    destruct k as [|k]; [lia|]. simpl.
    destruct (Ascii.eqb_spec c NEWLINE) as [->|_]; [done|].
    by rewrite IH by (done || lia).
Qed.

Lemma c_str_cut (a b : list ascii) : NUL ∉ a → c_str (a ++ NUL :: b) = a.
Proof.
  induction a as [|c a IH]; intros Hn; simpl; [done|].
  apply not_elem_of_cons in Hn as [Hc Ha].
  destruct (Ascii.eqb_spec c NUL) as [->|_]; [done|]. by rewrite IH.
Qed.

Lemma input_thread_calls_nil : input_thread_calls [] = [].
Proof. done. Qed.

(** X13 -- The reader on a session.  Lines that fit the buffer are pushed one by
    one, in order.  With the sentinel line after them the reader then shuts
    the queue down, and reads nothing of what follows [<END>]; without it
    the reader pushes every line, also a last one that has no newline, and
    returns at the end of the input without a shutdown. *)
Theorem reader_reads_session (lines : list cstring) (after last : list ascii) :
  Forall short_line lines →
  input_thread_calls (feed lines after)
  = (CallPush <$> lines) ++ [CallShutdown]
  ∧ input_thread_calls (concat ((λ l, l ++ [NEWLINE]) <$> lines))
    = CallPush <$> lines
  ∧ (short_line last → last ≠ [] →
     input_thread_calls (concat ((λ l, l ++ [NEWLINE]) <$> lines) ++ last)
     = CallPush <$> lines ++ [last]).
Proof.
  intros Hl.
  assert (Hgen : ∀ tail,
    input_thread_calls (concat ((λ l, l ++ [NEWLINE]) <$> lines) ++ tail)
    = (CallPush <$> lines) ++ input_thread_calls tail).
  { intros tail. induction Hl as [|l ls (Hn & Hnl & Hlen & Hend) _ IH]; [done|].
    rewrite !fmap_cons. cbn [concat]. rewrite <- !app_assoc. cbn [app].
    rewrite input_thread_calls_short by done.
    unfold cstring_eqb. rewrite bool_decide_eq_false_2 by done.
    by rewrite IH. }
  split_and!.
  - unfold feed. rewrite Hgen. f_equal.
  - rewrite <- (app_nil_r (concat _)), Hgen, input_thread_calls_nil.
    by rewrite app_nil_r.
  - intros (Hn & Hnl & Hlen & Hend) Hne. rewrite Hgen, fmap_app. f_equal.
    rewrite (input_thread_calls_step last last []).
    + rewrite chomp_no_newline by done.
      unfold cstring_eqb. by rewrite bool_decide_eq_false_2 by done.
    + rewrite fgets_nonempty by done.
      by rewrite fgets_bytes_eof by (done || lia).
Qed.

(** X14 -- A NUL byte in a line cuts it short.  For a line that fits the
    reader's buffer (less than 1023 bytes, the NUL and what follows it
    included): the reader pushes the bytes before the NUL and drops the rest
    of the line; and a line that starts with [<END>] followed by a NUL is
    taken for the sentinel. *)
Theorem reader_cuts_at_nul (a b rest : list ascii) :
  NUL ∉ a → NEWLINE ∉ a → NEWLINE ∉ b →
  (length (a ++ NUL :: b) < MAX_LINE_LENGTH - 1)%nat →
  input_thread_calls (a ++ NUL :: b ++ NEWLINE :: rest)
  = if cstring_eqb a END_MARK then [CallShutdown]
    else CallPush a :: input_thread_calls rest.
Proof.
  intros Hn Hna Hnb Hlen.
  assert (Hnl : NEWLINE ∉ a ++ NUL :: b).
  { rewrite elem_of_app, elem_of_cons. intros [?|[?|?]]; done. }
  assert (Hchomp : chomp ((a ++ NUL :: b) ++ [NEWLINE]) = a).
  { unfold chomp. rewrite <- app_assoc. simpl. rewrite c_str_cut by done.
    destruct (0 <? length a)%nat eqn:H0; [|done]. simpl.
    destruct (a !! (length a - 1)%nat) as [c|] eqn:Hc; [|done]. simpl.
    destruct (Ascii.eqb_spec c NEWLINE) as [->|_]; [|done].
    exfalso. apply Hna. by eapply list_elem_of_lookup_2. }
  replace (a ++ NUL :: b ++ NEWLINE :: rest)
    with ((a ++ NUL :: b) ++ NEWLINE :: rest) by (by rewrite <- app_assoc).
  rewrite (input_thread_calls_step _ ((a ++ NUL :: b) ++ [NEWLINE]) rest).
  - by rewrite Hchomp.
  - rewrite fgets_nonempty by (by destruct a).
    by rewrite fgets_bytes_line.
Qed.

(** * The process on any input *)

Lemma start_state (plugins : list plugin) (input : list ascii) :
  plugins ≠ [] →
  ∃ q0 : queue_t cstring,
    queue_init QUEUE_CAPACITY true = Some q0
    ∧ queue_wf q0 ∧ size q0 = 0 ∧ shutdown q0 = false
    ∧ start plugins input
      = {| stdin := input;
           stdout := (λ p, Some (banner p)) <$> plugins;
           queues := replicate (S (length plugins)) q0;
           workers := replicate (length plugins) (mk_worker WLoop false);
           reader := RFgets;
           writer := OPop;
           main := MJoinInput |}.
Proof.
  intros Hne.
  assert (HC : 0 < QUEUE_CAPACITY ≤ SIZE_MAX)
    by (unfold QUEUE_CAPACITY, SIZE_MAX; lia).
  destruct (queue_init_some (A:=cstring) QUEUE_CAPACITY HC) as [q0 Hq0].
  destruct (queue_init_wf QUEUE_CAPACITY q0 HC Hq0) as (Hwf0 & _ & _ & Hz0 & Hsd0).
  exists q0. split_and!; try done.
  unfold start. rewrite Hq0. by destruct plugins.
Qed.

Lemma start_well_formed (plugins : list plugin) (input : list ascii) :
  plugins ≠ [] → well_formed plugins (start plugins input).
Proof.
  intros Hne. destruct (start_state plugins input Hne)
    as (q0 & _ & Hwf0 & _ & _ & ->).
  split_and!; cbn [queues workers].
  - apply length_replicate.
  - apply length_replicate.
  - intros k q Hk. by apply lookup_replicate in Hk as [-> _].
Qed.

Lemma sum_from_replicate {X : Type} (f : nat → X → nat) (c : nat) (x : X)
  (n k : nat) :
  (∀ j, f j x = c) → sum_from f k (replicate n x) = (n * c)%nat.
Proof.
  intros Hf. revert k. induction n as [|n IH]; intros k; simpl; [done|].
  rewrite Hf, IH. lia.
Qed.

Lemma measure_start (plugins : list plugin) (input : list ascii) :
  plugins ≠ [] →
  measure plugins (start plugins input)
  = (9 * length plugins + 9
     + (4 * length plugins + 3) * length input)%nat.
Proof.
  intros Hne. destruct (start_state plugins input Hne)
    as (q0 & _ & _ & Hz & _ & ->).
  unfold measure. cbn [main reader writer stdin workers queues].
  rewrite (sum_from_replicate _ 5 (mk_worker WLoop false)) by done.
  rewrite (sum_from_replicate _ 0 q0).
  2:{ intros j. rewrite Hz. simpl. lia. }
  unfold weight. simpl. lia.
Qed.

(** X15 -- The process never spins.  Whatever the plugins, the input, the
    scheduling and the outcome of each allocation, an execution of the
    process over [N] plugins has at most
    [9 N + 9 + (4 N + 3) * (bytes of input)] steps: every thread that keeps
    being scheduled ends up parked in a condition wait or returns. *)
Theorem process_steps_are_bounded (plugins : list plugin) (input : list ascii)
  (sched : list (thread * alloc)) (s : state) :
  plugins ≠ [] →
  run plugins sched (start plugins input) = Some s →
  (length sched
   ≤ 9 * length plugins + 9 + (4 * length plugins + 3) * length input)%nat.
Proof.
  intros Hne Hrun.
  destruct (run_well_formed plugins sched _ s
              (start_well_formed plugins input Hne) Hrun) as [_ Hlen].
  rewrite measure_start in Hlen by done. lia.
Qed.

Lemma process_steps_are_bounded_witness :
  let sched := (λ t, (t, all_ok)) <$>
                 (replicate 4 Reader ++ replicate 8 (Worker 0)
                  ++ replicate 2 Writer ++ replicate 9 Main) in
  [upper_so] ≠ []
  ∧ is_Some (run [upper_so] sched
               (start [upper_so] (feed [list_ascii_of_string "hello"] [])))
  ∧ (length sched ≤ 9 * 1 + 9 + (4 * 1 + 3) * 12)%nat.
Proof.
  intros sched.
  assert (H1 : [upper_so] ≠ []) by done.
  split; [exact H1|].
  assert (H2 : ∃ s, run [upper_so] sched
             (start [upper_so] (feed [list_ascii_of_string "hello"] []))
             = Some s).
  { eexists. vm_compute. reflexivity. }
  split; [exact H2|]. destruct H2 as [s Hs].
  exact (process_steps_are_bounded [upper_so]
           (feed [list_ascii_of_string "hello"] []) sched s H1 Hs).
Defined.

Lemma step_stdout (plugins : list plugin) (mem : alloc) (t : thread)
  (s s' : state) :
  well_formed plugins s → step plugins mem t s = Some s' →
  stdout s' = stdout s
  ∨ ∃ x : cstring, t = Writer ∧ stdout s' = stdout s ++ [Some x].
Proof.
  intros (Hlq & Hlw & Hwf) Hstep.
  apply step_unfold in Hstep as [_ Hstep].
  destruct t as [| | |i].
  - left. destruct (main_thread_cases _ _ _ Hlw Hstep)
      as [(pc & -> & _)|[(i & w & pc & _ & -> & _)|(i & q & pc & _ & -> & _)]];
      done.
  - left. by destruct Hstep as (q & pc & input & q' & _ & _ & ->).
  - destruct Hstep as (q & pc & out & q' & Hq & Hout & ->).
    cbn [stdout set_writer set_stdout]. unfold output_thread in Hout.
    destruct (writer s); [|done].
    destruct (queue_pop_cases q (Hwf _ _ Hq))
      as [(E & _)|[(E & _)|(x & q1 & E & _)]]; rewrite E in Hout;
      [done| |]; simpl in Hout; injection Hout as <- <- <-.
    + by left.
    + right. by exists x.
  - left. by destruct Hstep as (p & w & qin & qout & w' & qin' & qout'
                                & _ & _ & _ & _ & _ & ->).
Qed.

Lemma run_stdout (plugins : list plugin) (sched : list (thread * alloc))
  (s s' : state) :
  well_formed plugins s → run plugins sched s = Some s' →
  ∃ out : list cstring, stdout s' = stdout s ++ (Some <$> out).
Proof.
  revert s. induction sched as [|[t mem] sched IH]; intros s Hwf Hrun.
  { injection Hrun as <-. exists []. by rewrite app_nil_r. }
  simpl in Hrun. destruct (step plugins mem t s) as [s1|] eqn:Hstep; [|done].
  pose proof (step_well_formed _ _ _ _ _ Hwf Hstep) as Hwf1.
  destruct (IH s1 Hwf1 Hrun) as (out & Hout).
  destruct (step_stdout _ _ _ _ _ Hwf Hstep) as [E|(x & _ & E)].
  - exists out. by rewrite Hout, E.
  - exists (x :: out). rewrite Hout, E, <- app_assoc. done.
Qed.

(** X16 -- What the process hands to [printf].  [stdout] lists the
    arguments of the [%s\n] calls made so far, whether or not stdio has
    written them out yet ([main] does not flush after the banners; the
    writer calls [fflush] after each line).  In every execution, whatever
    the plugins, the input and the allocator do, that list starts with the
    [Loaded plugin:] banners, in plugin order, and holds no NULL pointer;
    and whatever happens next only adds strings, none of them NULL, at its
    end. *)
Theorem stdout_is_banners_then_lines (plugins : list plugin)
  (input : list ascii) (sched : list (thread * alloc)) (s : state) :
  plugins ≠ [] →
  run plugins sched (start plugins input) = Some s →
  (∃ out : list cstring, stdout s = Some <$> ((banner <$> plugins) ++ out))
  ∧ ∀ sched' s', run plugins sched' s = Some s' →
      ∃ more : list cstring, stdout s' = stdout s ++ (Some <$> more).
Proof.
  intros Hne Hrun.
  pose proof (start_well_formed plugins input Hne) as Hwf.
  destruct (run_well_formed _ _ _ _ Hwf Hrun) as [Hwf' _].
  split.
  - destruct (run_stdout _ _ _ _ Hwf Hrun) as (out & Hout).
    exists out. rewrite Hout.
    destruct (start_state plugins input Hne) as (q0 & _ & _ & _ & _ & ->).
    cbn [stdout]. by rewrite fmap_app, <- list_fmap_compose.
  - intros sched' s' Hrun'. by apply (run_stdout plugins sched').
Qed.

Lemma stdout_is_banners_then_lines_witness :
  let sched := (λ t, (t, all_ok)) <$>
                 (replicate 4 Reader ++ replicate 8 (Worker 0)
                  ++ replicate 2 Writer) in
  [upper_so] ≠ []
  ∧ ∃ s, run [upper_so] sched
           (start [upper_so] (feed [list_ascii_of_string "hello"] []))
         = Some s
         ∧ ∃ out : list cstring,
             stdout s = Some <$> ((banner <$> [upper_so]) ++ out).
Proof.
  intros sched.
  assert (H1 : [upper_so] ≠ []) by done.
  split; [exact H1|].
  eexists. split; [vm_compute; reflexivity|].
  exact (proj1 (stdout_is_banners_then_lines [upper_so]
                  (feed [list_ascii_of_string "hello"] []) sched _ H1
                  ltac:(vm_compute; reflexivity))).
Defined.

(** ** How shutdown spreads *)

Lemma process_thread_flags (p : plugin) (mem : alloc) (w : worker)
  (qin qout : queue_t cstring) w' qin' qout' :
  queue_wf qin → queue_wf qout →
  process_thread p mem w qin qout = Some (w', qin', qout') →
  shutdown qin' = shutdown qin
  ∧ (shutdown qout' = shutdown qout
     ∨ (w_pc w = WShutdown ∧ shutdown qout' = true))
  ∧ stop_requested w' = stop_requested w
  ∧ (w_pc w' = WShutdown ∨ w_pc w' = WReturn →
     stop_requested w = true ∨ w_pc w = WShutdown
     ∨ ∃ str, w_pc w = WCheck QUEUE_SHUTDOWN str)
  ∧ (∀ str, w_pc w' = WCheck QUEUE_SHUTDOWN str → shutdown qin = true).
Proof.
  intros Hwi Hwo H. unfold process_thread in H.
  assert (Hno : ∀ pc (P : Prop),
            pc ≠ WShutdown → pc ≠ WReturn →
            w_pc (goto pc w) = WShutdown ∨ w_pc (goto pc w) = WReturn → P).
  { intros pc P H1 H2 [?|?]; done. }
  destruct (w_pc w) as [| |ret str| |t|] eqn:Hpc.
  - injection H as <- <- <-.
    split_and!; [done|by left|done| |]; simpl; destruct (stop_requested w);
      try done; try (by left). intros [?|?]; done.
  - destruct (queue_pop_cases qin Hwi)
      as [(E & _)|[(E & Hs & _)|(x & q1 & E & _ & _ & _ & _ & Hs)]];
      rewrite E in H; [done| |]; injection H as <- <- <-;
      (split_and!; [done|by left|done|by apply Hno|]).
    + done.
    + intros str [= ].
  - destruct ((ret =? QUEUE_SHUTDOWN) || stop_requested w) eqn:Hc.
    + apply orb_true_iff in Hc.
      assert (Hwhy : stop_requested w = true ∨ WCheck ret str = WShutdown
                     ∨ ∃ str0, WCheck ret str = WCheck QUEUE_SHUTDOWN str0).
      { destruct Hc as [Hc|Hc]; [|by left].
        apply Z.eqb_eq in Hc as ->. right; right. by eexists. }
      destruct (plugin_kind_of p); injection H as <- <- <-;
        (split_and!; [done|by left|done|done|done]).
    + destruct (ret =? 0), str as [x|];
        try (injection H as <- <- <-;
             by split_and!; [done|left|done|apply Hno|done]).
      destruct (plugin_transform p mem x);
        injection H as <- <- <-;
        by split_and!; [done|left|done|apply Hno|done].
  - injection H as <- <- <-.
    split_and!; [done|by right|done| |done]. intros _. right. by left.
  - rewrite queue_push_cases in H.
    destruct (queue_push_resume_cases (strdup (mem 0%nat)) qout t Hwo)
      as [(E & _)|[(E & _)|[(E & _)
         |(c & q1 & _ & E & Hs & _ & _ & _ & _ & _ & Hs1)]]];
      rewrite E in H; [done| | |]; injection H as <- <- <-;
      (split_and!; [done| |done|by apply Hno|done]); left;
      [done|done|congruence].
  - done.
Qed.

Lemma input_thread_flags (mem : alloc) (pc : reader_pc) (input : list ascii)
  (q : queue_t cstring) pc' input' q' :
  queue_wf q →
  input_thread mem pc input q = Some (pc', input', q') →
  (shutdown q' = shutdown q ∨ shutdown q' = true)
  ∧ (pc' = RReturn → shutdown q' = true ∨ input' = []).
Proof.
  intros Hwf H. unfold input_thread in H. destruct pc as [|line| |].
  - destruct (fgets MAX_LINE_LENGTH input) as [[chunk rest]|] eqn:Hg.
    + destruct (cstring_eqb (chomp chunk) END_MARK);
        injection H as <- <- <-; (split; [by left|done]).
    + injection H as <- <- <-. split; [by left|]. intros _. right.
      by destruct input.
  - rewrite queue_push_cases in H.
    destruct (queue_push_resume_cases (strdup (mem 0%nat)) q line Hwf)
      as [(E & _)|[(E & _)|[(E & _)
         |(c & q1 & _ & E & Hs & _ & _ & _ & _ & _ & Hs1)]]];
      rewrite E in H; [done| | |]; injection H as <- <- <-;
      (split; [left|done]); [done|done|congruence].
  - injection H as <- <- <-. split; [by right|]. intros _. by left.
  - done.
Qed.

Lemma output_thread_flags (pc : writer_pc) (out : list (option cstring))
  (q : queue_t cstring) pc' out' q' :
  queue_wf q →
  output_thread pc out q = Some (pc', out', q') →
  shutdown q' = shutdown q ∧ (pc' = OReturn → shutdown q = true).
Proof.
  intros Hwf H. unfold output_thread in H. destruct pc; [|done].
  destruct (queue_pop_cases q Hwf)
    as [(E & _)|[(E & Hs & _)|(x & q1 & E & _ & _ & _ & _ & Hs)]];
    rewrite E in H; [done| |]; simpl in H; injection H as <- <- <-; done.
Qed.

Lemma closed_down (s : state) (n k : nat) :
  (∀ j, closed_at s (S j) → closed_at s j) →
  closed_at s n → (k ≤ n)%nat → closed_at s k.
Proof.
  intros H1 Hn Hk. induction Hk as [|n Hk IH]; [done|].
  apply IH. by apply H1.
Qed.

Lemma step_propagation (plugins : list plugin) (mem : alloc) (t : thread)
  (s s' : state) :
  well_formed plugins s → propagation plugins s →
  step plugins mem t s = Some s' → propagation plugins s'.
Proof.
  intros Hwf (J1 & J2 & J3 & J6 & J4) Hstep.
  pose proof (step_closed_mono _ _ _ _ _ Hwf Hstep) as Hmono.
  destruct Hwf as (Hlq & Hlw & Hwf).
  apply step_unfold in Hstep as [_ Hstep].
  assert (Hall : (∀ k, (k ≤ length plugins)%nat → closed_at s k) →
            (∀ k, (k ≤ length plugins)%nat → closed_at s' k)).
  { intros H k Hk. apply Hmono. by apply H. }
  assert (Hmain : main s' = main s →
            match main s' with
            | MJoinInput | MJoinOutput => True
            | _ => ∀ k, (k ≤ length plugins)%nat → closed_at s' k
            end).
  { intros ->. destruct (main s); try done; by apply Hall. }
  assert (Hread : reader s' = reader s → stdin s' = stdin s →
            reader s' = RReturn → closed_at s' 0 ∨ stdin s' = []).
  { intros -> -> Hr. destruct (J6 Hr) as [?|?]; [left; by apply Hmono|by right]. }
  destruct t as [| | |i].
  - (* main *)
    assert (Hkeep : queues s' = queues s ∧ workers s' = workers s
                    ∧ writer s' = writer s →
              (∀ k, closed_at s' (S k) → closed_at s' k)
              ∧ (∀ i w, workers s' !! i = Some w →
                   stop_requested w = true ∨ w_pc w = WShutdown
                   ∨ w_pc w = WReturn
                   ∨ (∃ str, w_pc w = WCheck QUEUE_SHUTDOWN str) →
                   closed_at s' i)
              ∧ (writer s' = OReturn → closed_at s' (length plugins))).
    { intros (Eq & Ew & Eo). rewrite Ew, Eo.
      split_and!.
      - intros k Hk. apply (closed_at_queues s) in Hk; [|done].
        apply (closed_at_queues s); [done|]. by apply J1.
      - intros j wj Hj Hc. apply (closed_at_queues s); [done|]. by eapply J2.
      - intros Ho. apply (closed_at_queues s); [done|]. by apply J3. }
    unfold main_thread in Hstep.
    destruct (main s) as [| |i|i|i|i| |c] eqn:Hm.
    + destruct (reader s) eqn:Hr; try done. injection Hstep as <-.
      destruct Hkeep as (K1 & K2 & K3); [done|].
      split_and!; [done|done|done| |done]. by apply Hread.
    + destruct (writer s) eqn:Hw; try done. injection Hstep as <-.
      destruct Hkeep as (K1 & K2 & K3); [done|].
      split_and!; [done|done|done|by apply Hread|].
      cbn [main set_main]. apply Hall.
      intros k Hk. by apply (closed_down s (length plugins)); [|apply J3|].
    + destruct (i <? length plugins)%nat.
      * destruct (workers s !! i) as [w|] eqn:Hw; [|done].
        injection Hstep as <-. split_and!.
        -- intros k Hk. apply (closed_at_queues s); [done|]. by apply J1.
        -- intros j wj Hj Hc. cbn [workers set_main set_worker] in Hj.
           apply (closed_at_queues s); [done|].
           destruct (decide (j = i)) as [->|Hne].
           ++ apply J4. apply lookup_lt_Some in Hw. lia.
           ++ rewrite list_lookup_insert_ne in Hj by done. by eapply J2.
        -- intros Ho. apply (closed_at_queues s); [done|]. by apply J3.
        -- by apply Hread.
        -- cbn [main set_main]. by apply Hall.
      * injection Hstep as <-.
        destruct Hkeep as (K1 & K2 & K3); [done|].
        split_and!; [done|done|done|by apply Hread|].
        cbn [main set_main]. by apply Hall.
    + destruct (i <? length plugins)%nat.
      * destruct (workers s !! i) as [w|] eqn:Hw; [|done].
        injection Hstep as <-. split_and!.
        -- intros k Hk. apply (closed_at_queues s); [done|]. by apply J1.
        -- intros j wj Hj Hc. cbn [workers set_main set_worker] in Hj.
           apply (closed_at_queues s); [done|].
           destruct (decide (j = i)) as [->|Hne].
           ++ apply J4. apply lookup_lt_Some in Hw. lia.
           ++ rewrite list_lookup_insert_ne in Hj by done. by eapply J2.
        -- intros Ho. apply (closed_at_queues s); [done|]. by apply J3.
        -- by apply Hread.
        -- cbn [main set_main]. by apply Hall.
      * injection Hstep as <-.
        destruct Hkeep as (K1 & K2 & K3); [done|].
        split_and!; [done|done|done|by apply Hread|].
        cbn [main set_main]. by apply Hall.
    + destruct (queues s !! i) as [q|] eqn:Hq; [|done].
      injection Hstep as <-.
      split_and!.
      * intros k Hk. apply Hmono. apply J4.
        assert (Hlt : (S k < length (queues s))%nat).
        { unfold closed_at in Hk. cbn [queues set_main set_queue] in Hk.
          destruct (<[i:=queue_shutdown q]> (queues s) !! S k) eqn:E; [|done].
          apply lookup_lt_Some in E. by rewrite length_insert in E. }
        lia.
      * intros j wj Hj Hc. apply Hmono. by eapply J2.
      * intros Ho. apply Hmono. by apply J3.
      * by apply Hread.
      * cbn [main set_main]. by apply Hall.
    + destruct (w_pc <$> workers s !! i) as [[]|]; try done.
      injection Hstep as <-.
      destruct Hkeep as (K1 & K2 & K3); [done|].
      split_and!; [done|done|done|by apply Hread|].
      cbn [main set_main]. by apply Hall.
    + injection Hstep as <-.
      destruct Hkeep as (K1 & K2 & K3); [done|].
      split_and!; [done|done|done|by apply Hread|].
      cbn [main set_main]. by apply Hall.
    + done.
  - (* reader *)
    destruct Hstep as (q & pc & input & q' & Hq & Hin & ->).
    destruct (input_thread_flags _ _ _ _ _ _ _ (Hwf _ _ Hq) Hin) as [Hfl Hret].
    split_and!.
    + intros k Hk. apply Hmono. apply J1.
      unfold closed_at in *. cbn [queues set_reader set_stdin set_queue] in Hk.
      by rewrite list_lookup_insert_ne in Hk by done.
    + intros j wj Hj Hc. apply Hmono. by eapply J2.
    + intros Hw. apply Hmono. by apply J3.
    + cbn [reader stdin set_reader set_stdin set_queue]. intros Hpc.
      destruct (Hret Hpc) as [Hc|Hc]; [left|by right].
      unfold closed_at. cbn [queues set_reader set_stdin set_queue].
      rewrite list_lookup_insert_eq by (by eapply lookup_lt_Some).
      simpl. by f_equal.
    + by apply Hmain.
  - (* writer *)
    destruct Hstep as (q & pc & out & q' & Hq & Hout & ->).
    destruct (output_thread_flags _ _ _ _ _ _ (Hwf _ _ Hq) Hout) as [Hfl Hret].
    assert (Hsame : ∀ k, closed_at
              (set_writer pc (set_stdout out (set_queue (length plugins) q' s))) k
              ↔ closed_at s k).
    { intros k. unfold closed_at. cbn [queues set_writer set_stdout set_queue].
      destruct (decide (k = length plugins)) as [->|Hne].
      - rewrite list_lookup_insert_eq by (by eapply lookup_lt_Some).
        rewrite Hq. simpl. by rewrite Hfl.
      - by rewrite list_lookup_insert_ne by done. }
    split_and!.
    + intros k Hk. apply Hsame. apply J1. by apply Hsame.
    + intros j wj Hj Hc. apply Hsame. by eapply J2.
    + cbn [writer set_writer]. intros ->. apply Hsame.
      unfold closed_at. rewrite Hq. simpl. f_equal. by apply Hret.
    + by apply Hread.
    + by apply Hmain.
  - (* worker *)
    destruct Hstep as (p & w & qin & qout & w' & qin' & qout'
                       & Hp & Hw & Hqi & Hqo & Hpt & ->).
    destruct (process_thread_flags _ _ _ _ _ _ _ _ (Hwf _ _ Hqi) (Hwf _ _ Hqo) Hpt)
      as (Hfi & Hfo & Hstop & Hsh & Hck).
    set (s' := set_worker i w' (set_queue (S i) qout' (set_queue i qin' s))) in *.
    assert (Hback : ∀ k, closed_at s' k →
              closed_at s k ∨ (k = S i ∧ w_pc w = WShutdown)).
    { intros k Hk. unfold closed_at in *.
      cbn [queues s' set_worker set_queue] in Hk.
      destruct (decide (k = S i)) as [->|Hne1].
      - rewrite list_lookup_insert_eq in Hk
          by (rewrite length_insert; by eapply lookup_lt_Some).
        simpl in Hk. destruct Hfo as [E|[? _]]; [|by right].
        left. rewrite Hqo. simpl. congruence.
      - rewrite list_lookup_insert_ne in Hk by done.
        destruct (decide (k = i)) as [->|Hne2].
        + rewrite list_lookup_insert_eq in Hk by (by eapply lookup_lt_Some).
          simpl in Hk. left. rewrite Hqi. simpl. congruence.
        + rewrite list_lookup_insert_ne in Hk by done. by left. }
    assert (Hi : closed_at s i ↔ shutdown qin = true).
    { unfold closed_at. rewrite Hqi. simpl. split; congruence. }
    split_and!.
    + intros k Hk. apply Hmono.
      destruct (Hback _ Hk) as [Hc|[[= ->] Hpc]]; [by apply J1|].
      apply (J2 i w Hw). right. by left.
    + intros j wj Hj Hc. apply Hmono.
      cbn [workers s' set_worker set_queue] in Hj.
      destruct (decide (j = i)) as [->|Hne].
      * rewrite list_lookup_insert_eq in Hj by (by eapply lookup_lt_Some).
        injection Hj as <-.
        assert (Hfrom : stop_requested w = true ∨ w_pc w = WShutdown
                        ∨ (∃ str, w_pc w = WCheck QUEUE_SHUTDOWN str) →
                        closed_at s i).
        { intros [?|[?|?]]; apply (J2 i w Hw); auto. }
        destruct Hc as [Hc|[Hc|[Hc|[str Hc]]]].
        -- apply Hfrom. left. congruence.
        -- apply Hfrom, Hsh. by left.
        -- apply Hfrom, Hsh. by right.
        -- apply Hi. by eapply Hck.
      * rewrite list_lookup_insert_ne in Hj by done. by eapply J2.
    + intros Hwr. apply Hmono. by apply J3.
    + by apply Hread.
    + by apply Hmain.
Qed.

Lemma start_propagation (plugins : list plugin) (input : list ascii) :
  plugins ≠ [] → propagation plugins (start plugins input).
Proof.
  intros Hne. destruct (start_state plugins input Hne)
    as (q0 & _ & _ & _ & Hsd & ->).
  assert (Hopen : ∀ s k, queues s = replicate (S (length plugins)) q0 →
            ¬ closed_at s k).
  { intros s k Hq. unfold closed_at. rewrite Hq. intros Hc.
    destruct (replicate _ q0 !! k) as [q|] eqn:Hk; [|done].
    apply lookup_replicate in Hk as [-> _]. simpl in Hc. congruence. }
  split_and!; cbn [workers writer reader main].
  - intros k Hk. by apply Hopen in Hk.
  - intros i w Hw Hc. apply lookup_replicate in Hw as [-> _].
    destruct Hc as [?|[?|[?|[? ?]]]]; done.
  - done.
  - done.
  - done.
Qed.

(** X17 -- Shutdown travels down the pipeline and skips nothing.  In every
    execution of the process, whatever the plugins, the input, the
    scheduling and the allocator do: a queue is closed only if the queue
    before it is; a worker has returned only if its input queue is closed;
    the reader has returned only if it closed the first queue or met the
    end of the input; the writer has returned only if the last queue is
    closed; and [main] is past its two joins only if every queue is
    closed. *)
Theorem shutdown_travels_downstream (plugins : list plugin)
  (input : list ascii) (sched : list (thread * alloc)) (s : state) :
  plugins ≠ [] →
  run plugins sched (start plugins input) = Some s →
  (∀ k, closed_at s (S k) → closed_at s k)
  ∧ (∀ i w, workers s !! i = Some w → w_pc w = WReturn → closed_at s i)
  ∧ (reader s = RReturn → closed_at s 0 ∨ stdin s = [])
  ∧ (writer s = OReturn → ∀ k, (k ≤ length plugins)%nat → closed_at s k)
  ∧ (main s ≠ MJoinInput → main s ≠ MJoinOutput →
     ∀ k, (k ≤ length plugins)%nat → closed_at s k).
Proof.
  intros Hne Hrun.
  assert (Hinv : well_formed plugins s ∧ propagation plugins s).
  { pose proof (start_well_formed plugins input Hne) as Hwf.
    pose proof (start_propagation plugins input Hne) as Hp.
    revert Hrun Hwf Hp. generalize (start plugins input) as s0.
    induction sched as [|[t mem] sched IH]; intros s0 Hrun Hwf Hp.
    { by injection Hrun as <-. }
    simpl in Hrun. destruct (step plugins mem t s0) as [s1|] eqn:Hstep; [|done].
    apply (IH s1 Hrun); [by eapply step_well_formed|by eapply step_propagation]. }
  destruct Hinv as [_ (J1 & J2 & J3 & J6 & J4)].
  split_and!; [done| |done| |].
  - intros i w Hw Hpc. apply (J2 i w Hw). right; right. by left.
  - intros Hw k Hk. by apply (closed_down s (length plugins)); [|apply J3|].
  - intros H1 H2. by destruct (main s).
Qed.

Lemma shutdown_travels_downstream_witness :
  let sched := (λ t, (t, all_ok)) <$>
                 (replicate 4 Reader ++ replicate 8 (Worker 0)) in
  [upper_so] ≠ []
  ∧ ∃ s, run [upper_so] sched
           (start [upper_so] (feed [list_ascii_of_string "hello"] []))
         = Some s
         ∧ (closed_at s 1 → closed_at s 0).
Proof.
  intros sched.
  assert (H1 : [upper_so] ≠ []) by done.
  split; [exact H1|].
  eexists. split; [vm_compute; reflexivity|].
  exact (proj1 (shutdown_travels_downstream [upper_so]
                  (feed [list_ascii_of_string "hello"] []) sched _ H1
                  ltac:(vm_compute; reflexivity)) 0%nat).
Defined.

(** * The threads one at a time *)

(** X18 -- The writer on a closed queue: scheduled on its own it prints what the
    queue holds, in order, one line per item, then sees [QUEUE_SHUTDOWN] and
    returns, having touched nothing else. *)
Theorem writer_drains_closed_queue (plugins : list plugin) (s : state)
  (q : queue_t cstring) :
  well_formed plugins s → (∀ c, main s ≠ MReturn c) → writer s = OPop →
  queues s !! length plugins = Some q → shutdown q = true →
  ∃ s' q',
    run_ok plugins (replicate (S (length (contents q))) Writer) s = Some s'
    ∧ stdout s' = stdout s ++ contents q
    ∧ writer s' = OReturn
    ∧ queues s' = <[length plugins := q']> (queues s)
    ∧ size q' = 0 ∧ shutdown q' = true
    ∧ stdin s' = stdin s ∧ workers s' = workers s
    ∧ reader s' = reader s ∧ main s' = main s.
Proof.
  remember (length (contents q)) as n eqn:Hn.
  revert s q Hn. induction n as [|n IH]; intros s q Hn Hwf Hm Hw Hq Hsd.
  - destruct Hwf as (_ & _ & Hqwf).
    destruct (queue_pop_cases q (Hqwf _ _ Hq))
      as [(_ & _ & ?)|[(E & _ & Hz)|(x & q1 & _ & Hc & _)]];
      [congruence| |by rewrite Hc in Hn].
    exists (set_writer OReturn
              (set_stdout (stdout s) (set_queue (length plugins) q s))), q.
    unfold run_ok. cbn [replicate fmap list_fmap run].
    rewrite step_fold by done. rewrite Hq. unfold output_thread.
    rewrite Hw, E. cbn. symmetry in Hn. apply nil_length_inv in Hn.
    rewrite Hn, app_nil_r. by split_and!.
  - pose proof Hwf as (Hlq & _ & Hqwf).
    destruct (queue_pop_cases q (Hqwf _ _ Hq))
      as [(_ & _ & ?)|[(_ & _ & Hz)|(x & q1 & E & Hc & Hwf1 & _ & _ & Hsd1)]];
      [congruence|by rewrite (contents_nil q Hz) in Hn|].
    set (s1 := set_writer OPop
                 (set_stdout (stdout s ++ [Some x])
                    (set_queue (length plugins) q1 s))).
    assert (Hstep : step plugins all_ok Writer s = Some s1).
    { rewrite step_fold by done. rewrite Hq. unfold output_thread.
      by rewrite Hw, E. }
    assert (Hq1 : queues s1 !! length plugins = Some q1).
    { cbn. apply list_lookup_insert_eq. by eapply lookup_lt_Some. }
    destruct (IH s1 q1) as (s' & q' & Hrun & Hout & Hw' & Hqs & Hz' & Hsd'
                            & E1 & E2 & E3 & E4); try done.
    { rewrite Hc in Hn. simpl in Hn. lia. }
    { by eapply step_well_formed. }
    { congruence. }
    exists s', q'. unfold run_ok in *. cbn [replicate fmap list_fmap run].
    rewrite Hstep. split_and!; try done.
    + rewrite Hout, Hc. cbn [stdout s1 set_writer set_stdout].
      by rewrite <- app_assoc.
    + rewrite Hqs. cbn [queues s1 set_writer set_stdout set_queue].
      by rewrite list_insert_insert_eq.
Qed.

Lemma set_stage_again (i : nat) w qin qout w' qin' qout' (s : state) :
  set_stage i w' qin' qout' (set_stage i w qin qout s)
  = set_stage i w' qin' qout' s.
Proof.
  unfold set_stage, set_worker, set_queue. cbn. f_equal.
  - rewrite (list_insert_insert_ne _ i (S i)) by lia.
    by rewrite !list_insert_insert_eq.
  - by rewrite list_insert_insert_eq.
Qed.

Lemma set_stage_lookup (i : nat) w qin qout (s : state) :
  (i < length (workers s))%nat → (S i < length (queues s))%nat →
  workers (set_stage i w qin qout s) !! i = Some w
  ∧ queues (set_stage i w qin qout s) !! i = Some qin
  ∧ queues (set_stage i w qin qout s) !! S i = Some qout
  ∧ main (set_stage i w qin qout s) = main s.
Proof.
  intros Hw Hq. unfold set_stage. cbn. split_and!.
  - by apply list_lookup_insert_eq.
  - rewrite list_lookup_insert_ne by lia. apply list_lookup_insert_eq. lia.
  - apply list_lookup_insert_eq. rewrite length_insert. lia.
  - done.
Qed.

Lemma set_stage_id (i : nat) w qin qout (s : state) :
  workers s !! i = Some w → queues s !! i = Some qin →
  queues s !! S i = Some qout → set_stage i w qin qout s = s.
Proof.
  intros Hw Hi Ho. destruct s as [sin sout qs ws rd wr mn].
  unfold set_stage, set_worker, set_queue.
  cbn in *. rewrite (list_insert_id qs i qin) by done.
  rewrite (list_insert_id qs (S i) qout) by done.
  by rewrite (list_insert_id ws i w) by done.
Qed.

Lemma run_worker_alone (plugins : list plugin) (i n : nat) (p : plugin)
  (mem : alloc) (s : state) w qin qout w' qin' qout' :
  (∀ c, main s ≠ MReturn c) → plugins !! i = Some p →
  workers s !! i = Some w → queues s !! i = Some qin →
  queues s !! S i = Some qout →
  worker_alone n p mem w qin qout = Some (w', qin', qout') →
  run plugins (replicate n (Worker i, mem)) s
  = Some (set_stage i w' qin' qout' s).
Proof.
  intros Hm Hp Hw Hi Ho.
  rewrite <- (set_stage_id i w qin qout s Hw Hi Ho) at 1.
  apply lookup_lt_Some in Hw as Hlw. apply lookup_lt_Some in Ho as Hlo.
  clear Hw Hi Ho. revert w qin qout.
  induction n as [|n IH]; intros w qin qout H; simpl in *.
  { by injection H as <- <- <-. }
  destruct (process_thread p mem w qin qout) as [[[w1 qi1] qo1]|] eqn:Hpt;
    [|done].
  destruct (set_stage_lookup i w qin qout s Hlw Hlo) as (E1 & E2 & E3 & E4).
  rewrite step_fold by (rewrite E4; done).
  rewrite Hp, E1, E2, E3, Hpt.
  change (set_worker i w1 (set_queue (S i) qo1 (set_queue i qi1 ?s0)))
    with (set_stage i w1 qi1 qo1 s0).
  rewrite set_stage_again. by apply IH.
Qed.

Lemma run_app (plugins : list plugin) (l1 l2 : list (thread * alloc))
  (s s1 : state) :
  run plugins l1 s = Some s1 →
  run plugins (l1 ++ l2) s = run plugins l2 s1.
Proof.
  revert s. induction l1 as [|[t mem] l1 IH]; intros s H; cbn [app run] in *.
  { by injection H as <-. }
  destruct (step plugins mem t s) as [s'|]; [|done]. by apply IH.
Qed.

Lemma stopped_worker_returns (p : plugin) (mem : alloc) (w : worker)
  (qin qout : queue_t cstring) :
  stop_requested w = true → queue_wf qin → shutdown qin = true →
  queue_wf qout →
  ¬ ((∃ t, w_pc w = WPush t) ∧ queue_is_full qout = true) →
  ∃ n w' qin' qout',
    (n ≤ 3)%nat
    ∧ worker_alone n p mem w qin qout = Some (w', qin', qout')
    ∧ w_pc w' = WReturn.
Proof.
  intros Hstop Hwi Hsd Hwo Hnp.
  assert (HWS : ∀ qi qo, ∃ w' qi' qo',
            worker_alone 1 p mem (mk_worker WShutdown true) qi qo
            = Some (w', qi', qo') ∧ w_pc w' = WReturn).
  { intros qi qo. by eexists _, _, _. }
  assert (HWL : ∀ qi qo, ∃ w' qi' qo',
            worker_alone 1 p mem (mk_worker WLoop true) qi qo
            = Some (w', qi', qo') ∧ w_pc w' = WReturn).
  { intros qi qo. by eexists _, _, _. }
  assert (HWC : ∀ ret str qi qo, ∃ n w' qi' qo',
            (n ≤ 2)%nat
            ∧ worker_alone n p mem (mk_worker (WCheck ret str) true) qi qo
              = Some (w', qi', qo') ∧ w_pc w' = WReturn).
  { intros ret str qi qo. destruct (plugin_kind_of p) eqn:Hk.
    - exists 2%nat. cbn. rewrite orb_true_r, Hk. cbn.
      eexists _, _, _. split_and!; [lia|done|done].
    - exists 1%nat. cbn. rewrite orb_true_r, Hk. cbn.
      eexists _, _, _. split_and!; [lia|done|done]. }
  destruct w as [pc stop]. cbn in Hstop. subst stop.
  destruct pc as [| |ret str| |t|].
  - destruct (HWL qin qout) as (w' & qi' & qo' & E & Hpc).
    exists 1%nat, w', qi', qo'. split_and!; [lia|done|done].
  - destruct (queue_pop_cases qin Hwi)
      as [(_ & _ & ?)|[(E & _)|(x & q1 & E & _)]]; [congruence| |].
    + destruct (HWC QUEUE_SHUTDOWN None qin qout)
        as (n & w' & qi' & qo' & Hn & Hrun & Hpc).
      exists (S n), w', qi', qo'. split_and!; [lia| |done].
      cbn [worker_alone process_thread w_pc]. by rewrite E.
    + destruct (HWC QUEUE_SUCCESS (Some x) q1 qout)
        as (n & w' & qi' & qo' & Hn & Hrun & Hpc).
      exists (S n), w', qi', qo'. split_and!; [lia| |done].
      cbn [worker_alone process_thread w_pc]. by rewrite E.
  - destruct (HWC ret str qin qout) as (n & w' & qi' & qo' & Hn & Hrun & Hpc).
    exists n, w', qi', qo'. split_and!; [lia|done|done].
  - destruct (HWS qin qout) as (w' & qi' & qo' & E & Hpc).
    exists 1%nat, w', qi', qo'. split_and!; [lia|done|done].
  - destruct (queue_push_resume_cases (strdup (mem 0%nat)) qout t Hwo)
      as [(_ & Hfull & Hopen)|Hret].
    { exfalso. apply Hnp. split; [by eexists|].
      unfold queue_is_full. rewrite Hopen, Hfull, Z.leb_refl. done. }
    assert (∃ r qo1, queue_push_resume (strdup (mem 0%nat)) qout t
                     = Ret r qo1) as (r & qo1 & E).
    { destruct Hret as [(E & _)|[(E & _)|(c & q1 & _ & E & _)]];
        by eexists _, _. }
    destruct (HWL qin qo1) as (w' & qi' & qo' & E' & Hpc).
    exists 2%nat, w', qi', qo'. split_and!; [lia| |done].
    cbn [worker_alone process_thread w_pc].
    rewrite queue_push_cases, E. exact E'.
  - exists 0%nat. eexists _, _, _. split_and!; [lia|done|done].
Qed.

(** X19 -- [plugin_destroy] on a worker that is not parked in a push: after the
    stop request and the shutdown of its input queue the worker returns
    within three steps of its own, whatever the allocator does and with no
    help from any other thread, and the join goes through. *)
Theorem plugin_destroy_joins (plugins : list plugin) (mem : alloc)
  (s : state) (i : nat) (w : worker) (qout : queue_t cstring) :
  well_formed plugins s → main s = MDestroy i →
  workers s !! i = Some w → queues s !! S i = Some qout →
  ¬ ((∃ t, w_pc w = WPush t) ∧ queue_is_full qout = true) →
  ∃ n s',
    (n ≤ 3)%nat
    ∧ run plugins ((Main, mem) :: (Main, mem)
                   :: replicate n (Worker i, mem) ++ [(Main, mem)]) s
      = Some s'
    ∧ main s' = MDestroy (S i)
    ∧ w_pc <$> workers s' !! i = Some WReturn
    ∧ closed_at s' i.
Proof.
  intros Hwf Hm Hw Hqo Hnp.
  pose proof Hwf as (Hlq & Hlw & Hqwf).
  apply lookup_lt_Some in Hw as Hi.
  destruct (lookup_lt_is_Some_2 plugins i ltac:(lia)) as [p Hp].
  destruct (lookup_lt_is_Some_2 (queues s) i ltac:(lia)) as [qin Hqi].
  set (w1 := mk_worker (w_pc w) true).
  set (s1 := set_main (MDestroyShutdown i) (set_worker i w1 s)).
  set (s2 := set_main (MDestroyJoin i) (set_queue i (queue_shutdown qin) s1)).
  assert (Hs1 : step plugins mem Main s = Some s1).
  { rewrite step_fold by (rewrite Hm; done). unfold main_thread.
    rewrite Hm. destruct (Nat.ltb_spec i (length plugins)); [|lia].
    by rewrite Hw. }
  assert (Hs2 : step plugins mem Main s1 = Some s2).
  { rewrite step_fold by done. unfold main_thread. cbn [main s1 set_main].
    cbn [queues s1 set_main set_worker]. by rewrite Hqi. }
  destruct (stopped_worker_returns p mem w1 (queue_shutdown qin) qout)
    as (n & w' & qin' & qout' & Hn & Halone & Hret); try done.
  { apply queue_shutdown_wf. by eapply Hqwf. }
  { by eapply Hqwf. }
  assert (Hrun : run plugins (replicate n (Worker i, mem)) s2
                 = Some (set_stage i w' qin' qout' s2)).
  { apply (run_worker_alone plugins i n p mem s2 w1 (queue_shutdown qin) qout);
      try done.
    - cbn. by apply list_lookup_insert_eq.
    - cbn. apply list_lookup_insert_eq. by eapply lookup_lt_Some.
    - cbn. by rewrite list_lookup_insert_ne by lia. }
  remember (set_stage i w' qin' qout' s2) as s3 eqn:Hs3def.
  assert (Hw3 : workers s3 !! i = Some w').
  { rewrite Hs3def. cbn. apply list_lookup_insert_eq. by rewrite length_insert. }
  assert (Hm3 : main s3 = MDestroyJoin i) by (by rewrite Hs3def).
  assert (Hs3 : step plugins mem Main s3
                = Some (set_main (MDestroy (S i)) s3)).
  { rewrite step_fold by (rewrite Hm3; done). unfold main_thread.
    rewrite Hm3, Hw3. cbn. by rewrite Hret. }
  exists n, (set_main (MDestroy (S i)) s3).
  split; [done|]. split.
  { cbn [run]. rewrite Hs1, Hs2. rewrite (run_app _ _ _ _ _ Hrun).
    cbn [run]. by rewrite Hs3. }
  split; [done|]. split.
  { cbn [workers set_main]. rewrite Hw3. simpl. by rewrite Hret. }
  assert (Hc2 : closed_at s2 i).
  { unfold closed_at. cbn. rewrite list_lookup_insert_eq; [done|].
    by eapply lookup_lt_Some. }
  assert (Hwf2 : well_formed plugins s2).
  { eapply step_well_formed; [|exact Hs2].
    eapply step_well_formed; [exact Hwf|exact Hs1]. }
  apply (closed_at_queues s3); [done|].
  clear Hs3 Hw3 Hm3 Hs3def. revert Hrun Hc2 Hwf2. generalize s2.
  clear. induction n as [|n IH]; intros s0 Hrun Hc Hwf0; cbn [replicate run] in Hrun.
  { by injection Hrun as <-. }
  destruct (step plugins mem (Worker i) s0) as [s0'|] eqn:Hst; [|done].
  apply (IH s0' Hrun).
  - by eapply step_closed_mono.
  - by eapply step_well_formed.
Qed.

(** X20 -- [plugin_destroy] on a worker parked in its push.  The stop request and
    the shutdown of the input queue do not reach a worker that waits for
    room in a full, open output queue: after them the worker is still
    parked with its string, the output queue is as it was, and neither the
    worker nor [main], which waits in [pthread_join], can take a step. *)
Theorem plugin_destroy_leaves_pusher_parked (plugins : list plugin)
  (mem : alloc) (s : state) (i : nat) (w : worker) (t : cstring)
  (qout : queue_t cstring) :
  well_formed plugins s → main s = MDestroy i →
  workers s !! i = Some w → w_pc w = WPush t →
  queues s !! S i = Some qout → queue_is_full qout = true →
  ∃ s2,
    run plugins [(Main, mem); (Main, mem)] s = Some s2
    ∧ main s2 = MDestroyJoin i
    ∧ workers s2 !! i = Some (mk_worker (WPush t) true)
    ∧ closed_at s2 i
    ∧ queues s2 !! S i = Some qout
    ∧ (∀ mem', step plugins mem' (Worker i) s2 = None)
    ∧ (∀ mem', step plugins mem' Main s2 = None).
Proof.
  intros Hwf Hm Hw Hpc Hqo Hfull.
  pose proof Hwf as (Hlq & Hlw & Hqwf).
  apply lookup_lt_Some in Hw as Hi.
  destruct (lookup_lt_is_Some_2 plugins i ltac:(lia)) as [p Hp].
  destruct (lookup_lt_is_Some_2 (queues s) i ltac:(lia)) as [qin Hqi].
  set (w1 := mk_worker (w_pc w) true).
  set (s1 := set_main (MDestroyShutdown i) (set_worker i w1 s)).
  set (s2 := set_main (MDestroyJoin i) (set_queue i (queue_shutdown qin) s1)).
  assert (Hs1 : step plugins mem Main s = Some s1).
  { rewrite step_fold by (rewrite Hm; done). unfold main_thread.
    rewrite Hm. destruct (Nat.ltb_spec i (length plugins)); [|lia].
    by rewrite Hw. }
  assert (Hs2 : step plugins mem Main s1 = Some s2).
  { rewrite step_fold by done. unfold main_thread. cbn [main s1 set_main].
    cbn [queues s1 set_main set_worker]. by rewrite Hqi. }
  assert (Hw2 : workers s2 !! i = Some (mk_worker (WPush t) true)).
  { cbn. rewrite list_lookup_insert_eq by done. unfold w1. by rewrite Hpc. }
  assert (Hq2 : queues s2 !! S i = Some qout).
  { cbn. by rewrite list_lookup_insert_ne by lia. }
  assert (Hqi2 : queues s2 !! i = Some (queue_shutdown qin)).
  { cbn. apply list_lookup_insert_eq. by eapply lookup_lt_Some. }
  exists s2. split_and!; try done.
  - cbn [run]. by rewrite Hs1, Hs2.
  - unfold closed_at. by rewrite Hqi2.
  - intros mem'. rewrite step_fold by done. rewrite Hp, Hw2, Hqi2, Hq2.
    unfold process_thread. cbn [w_pc].
    unfold queue_is_full in Hfull. apply andb_true_iff in Hfull as [Hf Ho].
    apply negb_true_iff in Ho.
    unfold queue_push, queue_push_resume. by rewrite Ho, Hf.
  - intros mem'. rewrite step_fold by done. unfold main_thread.
    cbn [main s2 set_main]. by rewrite Hw2.
Qed.

Lemma worker_alone_app (n m : nat) (p : plugin) (mem : alloc) w qi qo w1 qi1 qo1 :
  worker_alone n p mem w qi qo = Some (w1, qi1, qo1) →
  worker_alone (n + m) p mem w qi qo = worker_alone m p mem w1 qi1 qo1.
Proof.
  revert w qi qo. induction n as [|n IH]; intros w qi qo H; simpl in *.
  { by injection H as <- <- <-. }
  destruct (process_thread p mem w qi qo) as [[[w' qi'] qo']|]; [|done].
  by apply IH.
Qed.

(** X21 -- One stage on its own, no allocation failing.  A worker at the
    head of its loop, its input queue closed and holding the strings [xs],
    its output queue open with room for them: scheduled on its own it takes
    the strings out one by one, pushes what its transform makes of each
    (dropping those it makes nothing of) in the same order, and returns
    once the input is drained; a generated plugin has then closed its
    output queue, [test_upper] has left it open. *)
Theorem worker_maps_its_queue (p : plugin) (xs : list cstring)
  (qin qout : queue_t cstring) :
  queue_wf qin → queue_wf qout →
  shutdown qin = true → contents qin = Some <$> xs →
  shutdown qout = false →
  size qout + Z.of_nat (length xs) ≤ capacity qout →
  ∃ n w' qin' qout',
    worker_alone n p all_ok (mk_worker WLoop false) qin qout
    = Some (w', qin', qout')
    ∧ w_pc w' = WReturn
    ∧ size qin' = 0
    ∧ contents qout'
      = contents qout ++ (Some <$> omap (plugin_transform p all_ok) xs)
    ∧ shutdown qout'
      = match plugin_kind_of p with Generated => true | TestUpper => false end.
Proof.
  revert qin qout. induction xs as [|x xs IH];
    intros qin qout Hwi Hwo Hci Hxs Hoo Hroom.
  - destruct (queue_pop_cases qin Hwi)
      as [(_ & _ & ?)|[(E & _ & Hz)|(y & q1 & _ & Hc & _)]];
      [congruence| |by rewrite Hxs in Hc].
    destruct (plugin_kind_of p) eqn:Hk.
    + exists 4%nat. eexists _, _, _. cbn [worker_alone process_thread w_pc
        stop_requested goto]. rewrite E. cbn. rewrite Hk. cbn.
      split_and!; [done|done|done|by rewrite app_nil_r|done].
    + exists 3%nat. eexists _, _, _. cbn [worker_alone process_thread w_pc
        stop_requested goto]. rewrite E. cbn. rewrite Hk. cbn.
      split_and!; [done|done|done|by rewrite app_nil_r|done].
  - destruct (queue_pop_cases qin Hwi)
      as [(_ & _ & ?)|[(_ & _ & Hz)|(y & q1 & E & Hc & Hwf1 & _ & _ & Hsd1)]];
      [congruence|by rewrite (contents_nil qin Hz) in Hxs|].
    rewrite Hxs in Hc. injection Hc as <- Hc1. simpl in Hroom.
    destruct (plugin_transform p all_ok x) as [t|] eqn:Ht.
    + destruct (queue_push_resume_cases (strdup (all_ok 0%nat)) qout t Hwo)
        as [(_ & ? & _)|[(_ & ?)|[(_ & _ & _ & ?)
           |(c & qo1 & Hdup & Ep & _ & _ & Hwo1 & Hco1 & Hcap1 & Hsz1 & Hoo1)]]];
        [lia|congruence|done|].
      injection Hdup as <-.
      destruct (IH q1 qo1 Hwf1 Hwo1 ltac:(congruence) ltac:(done) Hoo1 ltac:(lia))
        as (n & w' & qi' & qo' & Hrun & Hpc & Hz & Hcont & Hsd).
      exists (4 + n)%nat, w', qi', qo'.
      rewrite (worker_alone_app 4 n p all_ok _ _ _
                 (mk_worker WLoop false) q1 qo1).
      2:{ cbn [worker_alone process_thread w_pc stop_requested goto].
          rewrite E. cbn [worker_alone process_thread w_pc stop_requested goto].
          change (0 =? QUEUE_SHUTDOWN) with false.
          change (QUEUE_SUCCESS =? QUEUE_SHUTDOWN) with false.
          cbn [orb]. change (QUEUE_SUCCESS =? 0) with true. cbn iota.
          rewrite Ht. cbn [worker_alone process_thread w_pc stop_requested goto].
          rewrite queue_push_cases, Ep. done. }
      split_and!; [done|done|done| |done].
      rewrite Hcont, Hco1. cbn. rewrite Ht. by rewrite <- app_assoc.
    + destruct (IH q1 qout Hwf1 Hwo ltac:(congruence) ltac:(done) Hoo ltac:(lia))
        as (n & w' & qi' & qo' & Hrun & Hpc & Hz & Hcont & Hsd).
      exists (3 + n)%nat, w', qi', qo'.
      rewrite (worker_alone_app 3 n p all_ok _ _ _
                 (mk_worker WLoop false) q1 qout).
      2:{ cbn [worker_alone process_thread w_pc stop_requested goto].
          rewrite E. cbn. by rewrite Ht. }
      split_and!; [done|done|done| |done].
      rewrite Hcont. cbn. by rewrite Ht.
Qed.

(** * main_backup.c *)

Lemma measure_set_queue_shutdown (plugins : list plugin) (s : state) (i : nat)
  (q : queue_t cstring) :
  queues s !! i = Some q →
  measure plugins (set_queue i (queue_shutdown q) s) = measure plugins s.
Proof.
  intros Hq. unfold measure. simpl.
  pose proof (sum_from_insert
    (λ j q, (weight (length plugins) j * Z.to_nat (size q))%nat)
    0 (queues s) i q (queue_shutdown q) Hq) as Hs. simpl in Hs. lia.
Qed.

Lemma measure_set_worker_stop (plugins : list plugin) (s : state) (i : nat)
  (w : worker) :
  workers s !! i = Some w →
  measure plugins (set_worker i (mk_worker (w_pc w) true) s)
  = measure plugins s.
Proof.
  intros Hw. unfold measure. simpl.
  pose proof (sum_from_insert
    (λ i w, worker_rank (length plugins) i (w_pc w)) 0 (workers s) i w
    (mk_worker (w_pc w) true) Hw) as Hs. simpl in Hs. lia.
Qed.

Lemma well_formed_set_queue_shutdown (plugins : list plugin) (s : state)
  (i : nat) (q : queue_t cstring) :
  well_formed plugins s → queues s !! i = Some q →
  well_formed plugins (set_queue i (queue_shutdown q) s).
Proof.
  intros (Hlq & Hlw & Hwf) Hq. split_and!; cbn.
  - by rewrite length_insert.
  - done.
  - apply queues_wf_insert; [done|]. apply queue_shutdown_wf. by eapply Hwf.
Qed.

Lemma well_formed_set_worker (plugins : list plugin) (s : state)
  (i : nat) (w : worker) :
  well_formed plugins s → well_formed plugins (set_worker i w s).
Proof.
  intros (Hlq & Hlw & Hwf). split_and!; cbn; [done| |done].
  by rewrite length_insert.
Qed.

Lemma closed_at_shutdown (s : state) (i k : nat) (q : queue_t cstring) :
  queues s !! i = Some q →
  closed_at (set_queue i (queue_shutdown q) s) k ↔ k = i ∨ closed_at s k.
Proof.
  intros Hq. rewrite (closed_at_set_queue s i k _ q Hq).
  case_decide as Hd; [subst k|]; simpl.
  - split; [by left|done].
  - split; [by right|]. intros [?|?]; [by subst|done].
Qed.

Lemma step_main_same (plugins : list plugin) (mem : alloc) (t : thread)
  (s s' : state) :
  t ≠ Main → step plugins mem t s = Some s' → main s' = main s.
Proof.
  intros Ht Hstep. apply step_unfold in Hstep as [_ Hstep].
  destruct t as [| | |i]; [done|..].
  - by destruct Hstep as (q & pc & input & q' & _ & _ & ->).
  - by destruct Hstep as (q & pc & out & q' & _ & _ & ->).
  - by destruct Hstep as (p & w & qin & qout & w' & qin' & qout'
                          & _ & _ & _ & _ & _ & ->).
Qed.

Lemma backup_step_cases (plugins : list plugin) (mem : alloc) (t : thread)
  (b b' : backup_state) :
  backup_step plugins mem t b = Some b' →
  (∀ c, b_pc b ≠ BReturn c)
  ∧ ((t = Main
      ∧ main_backup (length plugins) (b_pc b) (b_proc b)
        = Some (b_pc b', b_proc b'))
     ∨ (t ≠ Main ∧ b_pc b' = b_pc b
        ∧ step plugins mem t (b_proc b) = Some (b_proc b'))).
Proof.
  unfold backup_step. intros H.
  destruct (b_pc b) eqn:Hpc; try done;
    (split; [done|]);
    (destruct t; [left; split; [done|];
       match type of H with
       | match ?m with _ => _ end = _ =>
           destruct m as [[pc' s']|]; [|done]
       end; by injection H as <-
     |right;
       match type of H with
       | match ?m with _ => _ end = _ => destruct m as [s'|]; [|done]
       end; injection H as <-; by split_and!..]).
Qed.

Lemma backup_step_measure (plugins : list plugin) (mem : alloc) (t : thread)
  (b b' : backup_state) :
  well_formed plugins (b_proc b) →
  backup_step plugins mem t b = Some b' →
  (backup_measure plugins b' < backup_measure plugins b)%nat.
Proof.
  intros Hwf Hstep.
  apply backup_step_cases in Hstep as [_ [[-> Hm]|(Ht & Hpc & Hs)]].
  2:{ unfold backup_measure. rewrite Hpc.
      pose proof (step_measure _ _ _ _ _ Hwf Hs). lia. }
  unfold backup_measure. destruct Hwf as (Hlq & Hlw & _).
  unfold main_backup in Hm.
  destruct (b_pc b) as [|i|i|i|i|i| | |c].
  - destruct (reader (b_proc b)); try done.
    injection Hm as <- <-. simpl. lia.
  - destruct (Nat.leb_spec i (length plugins)).
    + destruct (queues (b_proc b) !! i) as [q|] eqn:Hq; [|done].
      injection Hm as <- <-. rewrite measure_set_queue_shutdown by done.
      simpl. lia.
    + injection Hm as <- <-. simpl. lia.
  - destruct (Nat.ltb_spec i (length plugins)).
    + destruct (workers (b_proc b) !! i) as [w|] eqn:Hw; [|done].
      injection Hm as <- <-. rewrite measure_set_worker_stop by done.
      simpl. lia.
    + injection Hm as <- <-. simpl. lia.
  - destruct (Nat.ltb_spec i (length plugins)).
    + destruct (workers (b_proc b) !! i) as [w|] eqn:Hw; [|done].
      injection Hm as <- <-. rewrite measure_set_worker_stop by done.
      simpl. lia.
    + injection Hm as <- <-. simpl. lia.
  - destruct (queues (b_proc b) !! i) as [q|] eqn:Hq; [|done].
    injection Hm as <- <-. rewrite measure_set_queue_shutdown by done.
    simpl. lia.
  - destruct (workers (b_proc b) !! i) as [w|] eqn:Hw; [|done].
    simpl in Hm. destruct (w_pc w); try done.
    injection Hm as <- <-. apply lookup_lt_Some in Hw. simpl. lia.
  - destruct (writer (b_proc b)); try done.
    injection Hm as <- <-. simpl. lia.
  - injection Hm as <- <-. simpl. lia.
  - done.
Qed.

Lemma backup_step_ok (plugins : list plugin) (mem : alloc) (t : thread)
  (b b' : backup_state) :
  backup_ok plugins b → backup_step plugins mem t b = Some b' →
  backup_ok plugins b'.
Proof.
  intros (Hwf & Hmj & Hinv) Hstep.
  apply backup_step_cases in Hstep as [_ [[-> Hm]|(Ht & Hpc & Hs)]].
  2:{ pose proof (step_closed_mono _ _ _ _ _ Hwf Hs) as Hmono.
      split_and!.
      - by eapply step_well_formed.
      - by rewrite (step_main_same _ _ _ _ _ Ht Hs).
      - rewrite Hpc. destruct (b_pc b); try done.
        + by eapply step_propagation.
        + destruct Hinv as [? H]. split; [done|]. intros k Hk. by apply Hmono, H.
        + destruct Hinv as [? H]. split; [done|]. intros k Hk. by apply Hmono, H.
        + destruct Hinv as [? H]. split; [done|]. intros k Hk. by apply Hmono, H.
        + destruct Hinv as [? H]. split; [done|]. intros k Hk. by apply Hmono, H.
        + destruct Hinv as [? H]. split; [done|]. intros k Hk. by apply Hmono, H.
        + intros k Hk. by apply Hmono, Hinv.
        + intros k Hk. by apply Hmono, Hinv. }
  pose proof Hwf as (Hlq & Hlw & _).
  unfold main_backup in Hm. unfold backup_ok.
  destruct (b_pc b) as [|i|i|i|i|i| | |c].
  - destruct (reader (b_proc b)); try done.
    injection Hm as <- <-. split_and!; [done|done|lia|]. intros k Hk. lia.
  - destruct Hinv as [Hi Hcl].
    destruct (Nat.leb_spec i (length plugins)).
    + destruct (queues (b_proc b) !! i) as [q|] eqn:Hq; [|done].
      injection Hm as <- <-.
      split_and!; [by apply well_formed_set_queue_shutdown|done|lia|].
      intros k Hk. apply (closed_at_shutdown _ _ _ _ Hq).
      destruct (decide (k = i)); [by left|right; apply Hcl; lia].
    + injection Hm as <- <-. split_and!; [done|done|lia|].
      intros k Hk. apply Hcl. lia.
  - destruct Hinv as [Hi Hcl].
    destruct (Nat.ltb_spec i (length plugins)).
    + destruct (workers (b_proc b) !! i) as [w|] eqn:Hw; [|done].
      injection Hm as <- <-.
      split_and!; [by apply well_formed_set_worker|done|lia|done].
    + injection Hm as <- <-. split_and!; [done|done|lia|done].
  - destruct Hinv as [Hi Hcl].
    destruct (Nat.ltb_spec i (length plugins)).
    + destruct (workers (b_proc b) !! i) as [w|] eqn:Hw; [|done].
      injection Hm as <- <-.
      split_and!; [by apply well_formed_set_worker|done|lia|done].
    + injection Hm as <- <-. split_and!; [done|done|done].
  - destruct Hinv as [Hi Hcl].
    destruct (queues (b_proc b) !! i) as [q|] eqn:Hq; [|done].
    injection Hm as <- <-.
    split_and!; [by apply well_formed_set_queue_shutdown|done|lia|].
    intros k Hk. apply (closed_at_shutdown _ _ _ _ Hq). right. by apply Hcl.
  - destruct Hinv as [Hi Hcl].
    destruct (workers (b_proc b) !! i) as [w|] eqn:Hw; [|done].
    simpl in Hm. destruct (w_pc w); try done.
    injection Hm as <- <-. split_and!; [done|done|lia|done].
  - destruct (writer (b_proc b)); try done.
    injection Hm as <- <-. split_and!; done.
  - injection Hm as <- <-. split_and!; done.
  - done.
Qed.

Lemma process_thread_enabled (p : plugin) (mem : alloc) (w : worker)
  (qin qout : queue_t cstring) :
  queue_wf qin → queue_wf qout →
  w_pc w ≠ WReturn →
  (w_pc w = WPop → size qin ≠ 0 ∨ shutdown qin = true) →
  (∀ t, w_pc w = WPush t → size qout ≠ capacity qout ∨ shutdown qout = true) →
  is_Some (process_thread p mem w qin qout).
Proof.
  intros Hwi Hwo Hnr Hpop Hpush. unfold process_thread.
  destruct (w_pc w) as [| |ret str| |t|] eqn:Hpc.
  - by eexists.
  - destruct (pop_enabled qin Hwi (Hpop eq_refl)) as ([r o] & q' & ->).
    by eexists.
  - destruct ((ret =? QUEUE_SHUTDOWN) || stop_requested w).
    + destruct (plugin_kind_of p); by eexists.
    + destruct (ret =? 0), str as [x|]; try by eexists.
      destruct (plugin_transform p mem x); by eexists.
  - by eexists.
  - destruct (push_enabled (strdup (mem 0%nat)) qout t Hwo (Hpush t eq_refl))
      as (r & q' & ->). by eexists.
  - done.
Qed.

(** While [main] waits for the reader: a full open queue can always be
    relieved by some thread downstream of it. *)
Lemma backup_chain_progress (plugins : list plugin) (s : state) :
  well_formed plugins s → main s = MJoinInput → propagation plugins s →
  ∀ d j q, (j + d = length plugins)%nat →
    queues s !! j = Some q → size q ≠ 0 → shutdown q = false →
    ∃ t s', step plugins all_ok t s = Some s'.
Proof.
  intros Hwf Hm (J1 & J2 & J3 & J6 & J4).
  pose proof Hwf as (Hlq & Hlw & Hqwf).
  assert (Hnr : ∀ c, main s ≠ MReturn c) by (intros c; congruence).
  induction d as [|d IH]; intros j q Hj Hq Hne Hopen.
  - assert (j = length plugins) as -> by lia.
    destruct (writer s) eqn:Hw.
    + exists Writer. apply (step_writer_enabled plugins all_ok s q Hnr Hq).
      unfold output_thread. rewrite Hw.
      destruct (pop_enabled q (Hqwf _ _ Hq) ltac:(by left)) as ([r o] & q' & ->).
      destruct (r =? 0); by eexists.
    + specialize (J3 eq_refl). unfold closed_at in J3. rewrite Hq in J3.
      simpl in J3. congruence.
  - destruct (lookup_lt_is_Some_2 plugins j ltac:(lia)) as [p Hp].
    destruct (lookup_lt_is_Some_2 (workers s) j ltac:(lia)) as [w Hw].
    destruct (lookup_lt_is_Some_2 (queues s) (S j) ltac:(lia)) as [qo Hqo].
    assert (Hnc : ¬ closed_at s j).
    { unfold closed_at. rewrite Hq. simpl. congruence. }
    assert (Hpcs : stop_requested w = false ∧ w_pc w ≠ WShutdown
                   ∧ w_pc w ≠ WReturn).
    { split_and!.
      - apply not_true_is_false. intros H. apply Hnc, (J2 j w Hw). by left.
      - intros H. apply Hnc, (J2 j w Hw). right. by left.
      - intros H. apply Hnc, (J2 j w Hw). right; right. by left. }
    destruct Hpcs as (Hstop & Hns & Hnret).
    assert (Hcase : (size qo = capacity qo ∧ shutdown qo = false
                     ∧ ∃ t, w_pc w = WPush t)
                    ∨ (∀ t, w_pc w = WPush t →
                         size qo ≠ capacity qo ∨ shutdown qo = true)).
    { destruct (decide (size qo = capacity qo)) as [Hf|Hf];
        [|right; intros; by left].
      destruct (shutdown qo) eqn:Ho; [right; intros; by right|].
      destruct (w_pc w) eqn:Hpc; try (right; intros; done).
      left. split_and!; [done|done|by eexists]. }
    destruct Hcase as [(Hfull & Hoo & t & Hpc)|Hfree].
    + apply (IH (S j) qo ltac:(lia) Hqo); [|done].
      pose proof (wf_capacity _ (Hqwf _ _ Hqo)). lia.
    + exists (Worker j).
      apply (step_worker_enabled plugins all_ok s j p w q qo Hnr Hp Hw Hq Hqo).
      apply process_thread_enabled; try done; try (by eapply Hqwf).
      intros _. by left.
Qed.

Lemma backup_progress (plugins : list plugin) (b : backup_state) :
  backup_ok plugins b → (∀ c, b_pc b ≠ BReturn c) →
  ∃ t b', backup_step plugins all_ok t b = Some b'.
Proof.
  intros (Hwf & Hmj & Hinv) Hnret.
  pose proof Hwf as (Hlq & Hlw & Hqwf).
  assert (Hnr : ∀ c, main (b_proc b) ≠ MReturn c) by (intros c; congruence).
  assert (Hother : ∀ t s', t ≠ Main →
            step plugins all_ok t (b_proc b) = Some s' →
            ∃ t b', backup_step plugins all_ok t b = Some b').
  { intros t s' Ht Hs. exists t. unfold backup_step.
    destruct (b_pc b) eqn:E;
      try (destruct t; [done|rewrite Hs; by eexists..]).
    exfalso. by eapply Hnret. }
  assert (Hmain : ∀ pc' s',
            main_backup (length plugins) (b_pc b) (b_proc b) = Some (pc', s') →
            ∃ t b', backup_step plugins all_ok t b = Some b').
  { intros pc' s' Hm. exists Main. unfold backup_step.
    destruct (b_pc b) eqn:E; try (rewrite Hm; by eexists).
    exfalso. by eapply Hnret. }
  assert (Hstepped : ∀ t, (∃ s', step plugins all_ok t (b_proc b) = Some s') →
            t ≠ Main → ∃ t b', backup_step plugins all_ok t b = Some b').
  { intros t [s' Hs] Ht. by eapply Hother. }
  assert (Hworker : ∀ i w,
            (∀ k, (k ≤ length plugins)%nat → closed_at (b_proc b) k) →
            workers (b_proc b) !! i = Some w → w_pc w ≠ WReturn →
            ∃ t b', backup_step plugins all_ok t b = Some b').
  { intros i w Hcl Hw Hpc. apply lookup_lt_Some in Hw as Hi.
    destruct (lookup_lt_is_Some_2 plugins i ltac:(lia)) as [p Hp].
    destruct (lookup_lt_is_Some_2 (queues (b_proc b)) i ltac:(lia)) as [qi Hqi].
    destruct (lookup_lt_is_Some_2 (queues (b_proc b)) (S i) ltac:(lia))
      as [qo Hqo].
    apply (Hstepped (Worker i)); [|done].
    apply (step_worker_enabled plugins all_ok _ i p w qi qo Hnr Hp Hw Hqi Hqo).
    apply process_thread_enabled; try done; try (by eapply Hqwf).
    - intros _. right. specialize (Hcl i ltac:(lia)).
      unfold closed_at in Hcl. rewrite Hqi in Hcl. simpl in Hcl. congruence.
    - intros t _. right. specialize (Hcl (S i) ltac:(lia)).
      unfold closed_at in Hcl. rewrite Hqo in Hcl. simpl in Hcl. congruence. }
  destruct (b_pc b) as [|i|i|i|i|i| | |c] eqn:Hpc.
  - (* pthread_join(input_tid) *)
    destruct (lookup_lt_is_Some_2 (queues (b_proc b)) 0 ltac:(lia)) as [q0 Hq0].
    destruct (reader (b_proc b)) as [|line| |] eqn:Hr.
    + apply (Hstepped Reader); [|done].
      apply (step_reader_enabled plugins all_ok _ q0 Hnr Hq0).
      rewrite Hr. unfold input_thread.
      destruct (fgets MAX_LINE_LENGTH (stdin (b_proc b))) as [[chunk rest]|];
        [|by eexists].
      destruct (cstring_eqb (chomp chunk) END_MARK); by eexists.
    + destruct (decide (size q0 = capacity q0 ∧ shutdown q0 = false))
        as [[Hfull Hopen]|Hfree].
      * destruct (backup_chain_progress plugins (b_proc b) Hwf Hmj Hinv
                    (length plugins) 0%nat q0 ltac:(lia) Hq0) as (t & s' & Hs);
          [|done|].
        { pose proof (wf_capacity _ (Hqwf _ _ Hq0)). lia. }
        destruct t as [| | |i]; [|eapply Hother; [|exact Hs]; done..].
        rewrite step_fold in Hs by done. unfold main_thread in Hs.
        by rewrite Hmj, Hr in Hs.
      * apply (Hstepped Reader); [|done].
        apply (step_reader_enabled plugins all_ok _ q0 Hnr Hq0).
        rewrite Hr. unfold input_thread.
        destruct (push_enabled (strdup (all_ok 0%nat)) q0 line (Hqwf _ _ Hq0))
          as (r & q' & ->); [|by eexists].
        destruct (decide (size q0 = capacity q0)); [|by left].
        right. apply not_false_is_true. intros Ho. by apply Hfree.
    + apply (Hstepped Reader); [|done].
      apply (step_reader_enabled plugins all_ok _ q0 Hnr Hq0).
      rewrite Hr. by eexists.
    + eapply Hmain. unfold main_backup. by rewrite Hr.
  - destruct Hinv as [Hi Hcl]. unfold main_backup in Hmain.
    destruct (Nat.leb_spec i (length plugins)).
    + destruct (lookup_lt_is_Some_2 (queues (b_proc b)) i ltac:(lia)) as [q Hq].
      eapply Hmain. by rewrite Hq.
    + by eapply Hmain.
  - destruct Hinv as [Hi Hcl]. unfold main_backup in Hmain.
    destruct (Nat.ltb_spec i (length plugins)).
    + destruct (lookup_lt_is_Some_2 (workers (b_proc b)) i ltac:(lia)) as [w Hw].
      eapply Hmain. by rewrite Hw.
    + by eapply Hmain.
  - destruct Hinv as [Hi Hcl]. unfold main_backup in Hmain.
    destruct (Nat.ltb_spec i (length plugins)).
    + destruct (lookup_lt_is_Some_2 (workers (b_proc b)) i ltac:(lia)) as [w Hw].
      eapply Hmain. by rewrite Hw.
    + by eapply Hmain.
  - destruct Hinv as [Hi Hcl]. unfold main_backup in Hmain.
    destruct (lookup_lt_is_Some_2 (queues (b_proc b)) i ltac:(lia)) as [q Hq].
    eapply Hmain. by rewrite Hq.
  - destruct Hinv as [Hi Hcl].
    destruct (lookup_lt_is_Some_2 (workers (b_proc b)) i ltac:(lia)) as [w Hw].
    assert (Hdec : w_pc w = WReturn ∨ w_pc w ≠ WReturn)
      by (destruct (w_pc w); (by left) || (by right)).
    destruct Hdec as [Hret|Hnr'].
    + eapply Hmain. unfold main_backup. rewrite Hw. simpl. by rewrite Hret.
    + by eapply Hworker.
  - destruct (lookup_lt_is_Some_2 (queues (b_proc b)) (length plugins)
                ltac:(lia)) as [q Hq].
    destruct (writer (b_proc b)) eqn:Hw.
    + apply (Hstepped Writer); [|done].
      apply (step_writer_enabled plugins all_ok _ q Hnr Hq).
      unfold output_thread. rewrite Hw.
      destruct (pop_enabled q (Hqwf _ _ Hq)) as ([r o] & q' & ->).
      { right. specialize (Hinv (length plugins) ltac:(lia)).
        unfold closed_at in Hinv. rewrite Hq in Hinv. simpl in Hinv. congruence. }
      destruct (r =? 0); by eexists.
    + eapply Hmain. unfold main_backup. by rewrite Hw.
  - by eapply Hmain.
  - by destruct (Hnret c).
Qed.

Lemma backup_start_ok (plugins : list plugin) (input : list ascii) :
  plugins ≠ [] →
  backup_ok plugins (backup_start plugins input)
  ∧ b_pc (backup_start plugins input) = BJoinInput
  ∧ b_proc (backup_start plugins input) = start plugins input.
Proof.
  intros Hne. unfold backup_start.
  pose proof (start_well_formed plugins input Hne) as Hwf.
  pose proof (start_propagation plugins input Hne) as Hp.
  destruct (start_state plugins input Hne) as (q0 & _ & _ & _ & _ & E).
  assert (Hm : main (start plugins input) = MJoinInput) by (by rewrite E).
  rewrite Hm. by split_and!.
Qed.

Lemma backup_run_ok (plugins : list plugin) (sched : list (thread * alloc))
  (b b' : backup_state) :
  backup_ok plugins b → backup_run plugins sched b = Some b' →
  backup_ok plugins b'
  ∧ (length sched + backup_measure plugins b' ≤ backup_measure plugins b)%nat.
Proof.
  revert b. induction sched as [|[t mem] sched IH]; intros b Hok Hrun.
  { injection Hrun as <-. split; [done|]. simpl. lia. }
  simpl in Hrun.
  destruct (backup_step plugins mem t b) as [b1|] eqn:Hstep; [|done].
  destruct (IH b1 (backup_step_ok _ _ _ _ _ Hok Hstep) Hrun) as [Hok' Hlen].
  split; [done|].
  pose proof (backup_step_measure _ _ _ _ _ (proj1 Hok) Hstep).
  simpl. lia.
Qed.

Lemma backup_completion (plugins : list plugin) (b : backup_state) :
  backup_ok plugins b →
  ∃ sched b',
    backup_run plugins ((λ t, (t, all_ok)) <$> sched) b = Some b'
    ∧ b_pc b' = BReturn 0.
Proof.
  remember (backup_measure plugins b) as n eqn:Hn. revert b Hn.
  induction n as [n IH] using lt_wf_ind. intros b Hn Hok.
  assert (Hdec : (∃ c, b_pc b = BReturn c) ∨ ∀ c, b_pc b ≠ BReturn c).
  { destruct (b_pc b); try (by right). left. by eexists. }
  destruct Hdec as [[c Hc]|Hnret].
  - exists [], b. split; [done|].
    destruct Hok as (_ & _ & H). rewrite Hc in H. by subst c.
  - destruct (backup_progress plugins b Hok Hnret) as (t & b1 & Hstep).
    pose proof (backup_step_measure _ _ _ _ _ (proj1 Hok) Hstep) as Hlt.
    destruct (IH (backup_measure plugins b1) ltac:(lia) b1 eq_refl
                (backup_step_ok _ _ _ _ _ Hok Hstep))
      as (sched & b' & Hrun & Hret).
    exists (t :: sched), b'. split; [|done]. simpl. by rewrite Hstep.
Qed.

(** X22 -- The older [main] never hangs.  With [main_backup.c] as the assembler,
    whatever the plugins (generated or [test_upper]), the input (with or
    without an [<END>] line), the scheduling and the allocator: an
    execution has at most [14 N + 16 + (4 N + 3) * (bytes of input)] steps;
    when no thread can move any more, [main] has returned 0; and from every
    state reached the process can be run on until [main] returns 0. *)
Theorem main_backup_always_exits (plugins : list plugin) (input : list ascii)
  (sched : list (thread * alloc)) (b : backup_state) :
  plugins ≠ [] →
  backup_run plugins sched (backup_start plugins input) = Some b →
  (length sched
   ≤ 14 * length plugins + 16 + (4 * length plugins + 3) * length input)%nat
  ∧ ((∀ t, backup_step plugins all_ok t b = None) → b_pc b = BReturn 0)
  ∧ (∃ sched' b',
       backup_run plugins ((λ t, (t, all_ok)) <$> sched') b = Some b'
       ∧ b_pc b' = BReturn 0).
Proof.
  intros Hne Hrun.
  destruct (backup_start_ok plugins input Hne) as (Hok0 & Hpc0 & Hs0).
  destruct (backup_run_ok _ _ _ _ Hok0 Hrun) as [Hok Hlen].
  split_and!.
  - unfold backup_measure in Hlen at 2. rewrite Hpc0, Hs0 in Hlen.
    rewrite measure_start in Hlen by done. simpl in Hlen. lia.
  - intros Hstuck.
    assert (Hdec : (∃ c, b_pc b = BReturn c) ∨ ∀ c, b_pc b ≠ BReturn c).
    { destruct (b_pc b); try (by right). left. by eexists. }
    destruct Hdec as [[c Hc]|Hnret].
    + destruct Hok as (_ & _ & H). rewrite Hc in H. by subst c.
    + destruct (backup_progress plugins b Hok Hnret) as (t & b1 & Hstep).
      by rewrite Hstuck in Hstep.
  - by apply backup_completion.
Qed.

Lemma backup_step_other (plugins : list plugin) (mem : alloc) (t : thread)
  (pc : backup_pc) (s s' : state) :
  t ≠ Main → (∀ c, pc ≠ BReturn c) →
  step plugins mem t s = Some s' →
  backup_step plugins mem t (mk_backup pc s) = Some (mk_backup pc s').
Proof.
  intros Ht Hpc Hs. unfold backup_step. cbn [b_pc b_proc].
  destruct pc; try (destruct t; [done|by rewrite Hs..]).
  exfalso. by eapply Hpc.
Qed.

Lemma backup_run_app (plugins : list plugin) (l1 l2 : list (thread * alloc))
  (b b1 : backup_state) :
  backup_run plugins l1 b = Some b1 →
  backup_run plugins (l1 ++ l2) b = backup_run plugins l2 b1.
Proof.
  revert b. induction l1 as [|[t mem] l1 IH]; intros b H; cbn [app backup_run] in *.
  { by injection H as <-. }
  destruct (backup_step plugins mem t b) as [b'|]; [|done]. by apply IH.
Qed.

(** X23 -- The older [main] can lose what was read.  With one plugin and the input
    of one line and [<END>], there is an execution of [main_backup.c] in
    which the reader has pushed the line and closed the queue, [main] sets
    the stop flag before the worker's first test of it, the worker leaves
    its loop without a pop, and the process exits with code 0 having
    printed the banner only: the line is still in the first queue. *)
Theorem main_backup_can_drop_a_line (p : plugin) (l : cstring)
  (after : list ascii) :
  short_line l →
  ∃ sched b,
    backup_run [p] ((λ t, (t, all_ok)) <$> sched)
      (backup_start [p] (feed [l] after)) = Some b
    ∧ b_pc b = BReturn 0
    ∧ stdout (b_proc b) = [Some (banner p)]
    ∧ contents <$> queues (b_proc b) !! 0%nat = Some [Some l].
Proof.
  intros Hshort.
  destruct (fgets_feed_cons l [] after Hshort) as (Hg1 & Hc1 & He1).
  destruct (fgets_feed_nil after) as (Hg2 & Hc2).
  set (q0 := mk_queue (replicate 100 (@None cstring)) 100 0 0 0 false).
  set (q1 := mk_queue (<[0%nat := Some l]> (replicate 100 None)) 100 1 0 1 true).
  set (s4 := mk_state after [Some (banner p)] [q1; q0]
               [mk_worker WLoop false] RReturn OPop MJoinInput).
  assert (Hread : backup_run [p] ((λ t, (t, all_ok)) <$> replicate 4 Reader)
                    (backup_start [p] (feed [l] after))
                  = Some (mk_backup BJoinInput s4)).
  { unfold backup_start.
    assert (Hs0 : start [p] (feed [l] after)
                  = mk_state (feed [l] after) [Some (banner p)] [q0; q0]
                      [mk_worker WLoop false] RFgets OPop MJoinInput) by done.
    rewrite Hs0. cbn [main].
    cbn [replicate fmap list_fmap backup_run].
    rewrite (backup_step_other [p] all_ok Reader BJoinInput _
               (mk_state (feed [] after) [Some (banner p)] [q0; q0]
                  [mk_worker WLoop false] (RPush l) OPop MJoinInput));
      [|done|done|].
    2:{ rewrite step_fold by done. cbn [queues lookup list_lookup reader stdin].
        unfold input_thread. rewrite Hg1, Hc1, He1. done. }
    rewrite (backup_step_other [p] all_ok Reader BJoinInput _
               (mk_state (feed [] after) [Some (banner p)]
                  [mk_queue (<[0%nat := Some l]> (replicate 100 None))
                     100 1 0 1 false; q0]
                  [mk_worker WLoop false] RFgets OPop MJoinInput));
      [|done|done|].
    2:{ rewrite step_fold by done. done. }
    rewrite (backup_step_other [p] all_ok Reader BJoinInput _
               (mk_state after [Some (banner p)]
                  [mk_queue (<[0%nat := Some l]> (replicate 100 None))
                     100 1 0 1 false; q0]
                  [mk_worker WLoop false] RShutdown OPop MJoinInput));
      [|done|done|].
    2:{ rewrite step_fold by done. cbn [queues lookup list_lookup reader stdin].
        unfold input_thread. rewrite Hg2, Hc2. done. }
    rewrite (backup_step_other [p] all_ok Reader BJoinInput _ s4);
      [done|done|done|].
    rewrite step_fold by done. done. }
  exists (replicate 4 Reader ++ replicate 8 Main ++ [Worker 0; Main; Main;
            Writer; Main; Main]).
  eexists. rewrite fmap_app, (backup_run_app _ _ _ _ _ Hread).
  split; [vm_compute; reflexivity|]. split_and!; reflexivity.
Qed.

(** ** An input without the sentinel *)

Lemma step_no_sentinel (plugins : list plugin) (mem : alloc) (t : thread)
  (s s' : state) :
  well_formed plugins s → propagation plugins s → no_sentinel s →
  step plugins mem t s = Some s' → no_sentinel s'.
Proof.
  intros Hwf Hprop (K1 & K2 & K3 & K4) Hstep.
  pose proof (step_propagation _ _ _ _ _ Hwf Hprop Hstep) as Hprop'.
  destruct Hprop as (J1 & J2 & J3 & J6 & J4).
  destruct Hwf as (Hlq & Hlw & Hqwf).
  assert (Hopen : ∀ k, (k ≤ length plugins)%nat → ¬ closed_at s k).
  { intros k Hk Hc. apply K4. apply (closed_down s k 0); [done|done|lia]. }
  apply step_unfold in Hstep as [_ Hstep].
  destruct t as [| | |i].
  - unfold main_thread in Hstep.
    destruct (main s) as [| |i|i|i|i| |c] eqn:Hm;
      try (exfalso; apply (Hopen 0%nat ltac:(lia)), J4; lia).
    + destruct (reader s) eqn:Hr; try done. injection Hstep as <-.
      unfold no_sentinel. cbn [reader stdin set_main]. rewrite Hr.
      by split_and!.
    + destruct (writer s) eqn:Hw; try done.
      exfalso. by apply (Hopen (length plugins) ltac:(lia)), J3.
  - destruct Hstep as (q & pc & input & q' & Hq & Hin & ->).
    unfold no_sentinel. cbn [reader stdin set_reader set_stdin set_queue].
    assert (Hcl : shutdown q = false).
    { apply not_true_is_false. intros Hc. apply K4. unfold closed_at.
      by rewrite Hq; simpl; f_equal. }
    assert (Hnew : ∀ q1, shutdown q1 = false →
              ¬ closed_at (set_reader pc (set_stdin input (set_queue 0 q1 s))) 0).
    { intros q1 H1. unfold closed_at. cbn.
      rewrite list_lookup_insert_eq by (by eapply lookup_lt_Some).
      simpl. congruence. }
    destruct (reader s) as [|line| |] eqn:Hr; [| | done|done].
    + pose proof (input_thread_fgets_calls mem (stdin s) q) as Hcalls.
      rewrite Hin in Hcalls. destruct pc as [|line| |].
      * done.
      * destruct Hcalls as [-> Hc]. rewrite Hc in K3.
        apply not_elem_of_cons in K3 as [_ K3].
        split_and!; [done|done|done|by apply Hnew].
      * destruct Hcalls as [-> Hc]. rewrite Hc in K3.
        exfalso. apply K3. by left.
      * destruct Hcalls as (-> & -> & Hc).
        split_and!; [done| |done|by apply Hnew].
        intros _. unfold input_thread in Hin.
        destruct (fgets MAX_LINE_LENGTH (stdin s)) as [[chunk rest]|] eqn:Hg.
        -- by destruct (cstring_eqb (chomp chunk) END_MARK).
        -- unfold fgets in Hg. by destruct (stdin s).
    + unfold input_thread in Hin. rewrite queue_push_cases in Hin.
      destruct (queue_push_resume_cases (strdup (mem 0%nat)) q line (Hqwf _ _ Hq))
        as [(E & _)|[(E & Hs)|[(E & _)
           |(c & q1 & _ & E & _ & _ & _ & _ & _ & _ & Hs1)]]];
        rewrite E in Hin; [done|congruence| |]; injection Hin as <- <- <-;
        (split_and!; [done|done|done|by apply Hnew]).
  - destruct Hstep as (q & pc & out & q' & Hq & Hout & ->).
    unfold no_sentinel. cbn [reader stdin set_writer set_stdout set_queue].
    split_and!; [done|done|done|].
    destruct (output_thread_flags _ _ _ _ _ _ (Hqwf _ _ Hq) Hout) as [Hfl _].
    intros Hc. apply K4. unfold closed_at in *. cbn in Hc.
    destruct (decide (length plugins = 0%nat)) as [H0|H0].
    + rewrite H0 in *.
      rewrite list_lookup_insert_eq in Hc by (by eapply lookup_lt_Some).
      rewrite Hq. simpl in *. congruence.
    + by rewrite list_lookup_insert_ne in Hc by done.
  - destruct Hstep as (p & w & qin & qout & w' & qin' & qout'
                       & Hp & Hw & Hqi & Hqo & Hpt & ->).
    unfold no_sentinel. cbn [reader stdin set_worker set_queue].
    split_and!; [done|done|done|].
    destruct (process_thread_flags _ _ _ _ _ _ _ _ (Hqwf _ _ Hqi)
                (Hqwf _ _ Hqo) Hpt) as (Hfi & _).
    intros Hc. apply K4. unfold closed_at in *. cbn in Hc.
    rewrite list_lookup_insert_ne in Hc by lia.
    destruct (decide (i = 0%nat)) as [->|Hne].
    + rewrite list_lookup_insert_eq in Hc by (by eapply lookup_lt_Some).
      rewrite Hqi. simpl in *. congruence.
    + by rewrite list_lookup_insert_ne in Hc by done.
Qed.

(** X24 -- Without the sentinel the process never ends.  If no line of the input
    is [<END>] as the reader sees it, then in every execution, whatever
    the plugins, the scheduling and the allocator: no queue is ever closed,
    no worker and no writer ever returns, no stop is ever requested, and
    [main] never gets past its two joins. *)
Theorem no_sentinel_no_exit (plugins : list plugin) (input : list ascii)
  (sched : list (thread * alloc)) (s : state) :
  plugins ≠ [] →
  CallShutdown ∉ input_thread_calls input →
  run plugins sched (start plugins input) = Some s →
  (main s = MJoinInput ∨ main s = MJoinOutput)
  ∧ writer s = OPop
  ∧ (∀ k, ¬ closed_at s k)
  ∧ (∀ i w, workers s !! i = Some w →
       w_pc w ≠ WReturn ∧ stop_requested w = false).
Proof.
  intros Hne Hin Hrun.
  assert (Hinv : well_formed plugins s ∧ propagation plugins s ∧ no_sentinel s).
  { pose proof (start_well_formed plugins input Hne) as Hwf.
    pose proof (start_propagation plugins input Hne) as Hp.
    assert (Hk : no_sentinel (start plugins input)).
    { destruct (start_state plugins input Hne) as (q0 & _ & _ & _ & Hsd & ->).
      unfold no_sentinel. cbn [reader stdin]. split_and!; try done.
      unfold closed_at. cbn. congruence. }
    revert Hrun Hwf Hp Hk. generalize (start plugins input) as s0.
    induction sched as [|[t mem] sched IH]; intros s0 Hrun Hwf Hp Hk.
    { by injection Hrun as <-. }
    simpl in Hrun. destruct (step plugins mem t s0) as [s1|] eqn:Hstep; [|done].
    apply (IH s1 Hrun); [by eapply step_well_formed|by eapply step_propagation
                        |by eapply step_no_sentinel]. }
  destruct Hinv as ((Hlq & Hlw & _) & (J1 & J2 & J3 & J6 & J4) & (K1 & K2 & K3 & K4)).
  assert (Hopen : ∀ k, ¬ closed_at s k).
  { intros k Hc. apply K4. apply (closed_down s k 0); [done|done|lia]. }
  split_and!.
  - destruct (main s); auto; exfalso; by apply (Hopen 0%nat), J4; lia.
  - destruct (writer s) eqn:Hw; [done|]. exfalso. by eapply Hopen, J3.
  - done.
  - intros i w Hw. split.
    + intros Hpc. apply (Hopen i), (J2 i w Hw). right; right. by left.
    + apply not_true_is_false. intros Hst. apply (Hopen i), (J2 i w Hw). by left.
Qed.

Lemma no_sentinel_no_exit_witness :
  let input := list_ascii_of_string "hello" ++ [NEWLINE] in
  let sched := (λ t, (t, all_ok)) <$>
                 (replicate 3 Reader ++ replicate 5 (Worker 0) ++ [Writer]) in
  [upper_so] ≠ [] ∧ (CallShutdown ∉ input_thread_calls input)
  ∧ ∃ s, run [upper_so] sched (start [upper_so] input) = Some s
         ∧ stdout s = [Some (banner upper_so);
                       Some (list_ascii_of_string "HELLO")]
         ∧ writer s = OPop.
Proof.
  intros input sched.
  assert (H1 : [upper_so] ≠ []) by done.
  assert (H2 : CallShutdown ∉ input_thread_calls input).
  { change (input_thread_calls input)
      with [CallPush (list_ascii_of_string "hello")].
    intros H. by apply list_elem_of_singleton in H. }
  split; [exact H1|]. split; [exact H2|].
  eexists. split; [vm_compute; reflexivity|]. split; [reflexivity|].
  exact (proj1 (proj2 (no_sentinel_no_exit [upper_so] input sched _ H1 H2
                         ltac:(vm_compute; reflexivity)))).
Defined.

(** * The barrier of the tests *)

Lemma count_pc_insert (f : barrier_pc → bool) (l : list barrier_pc) (i : nat)
  (x y : barrier_pc) :
  l !! i = Some x →
  (count_pc f (<[i := y]> l) + (if f x then 1 else 0)
   = count_pc f l + (if f y then 1 else 0))%nat.
Proof.
  intros H. unfold count_pc.
  apply (sum_from_insert (λ _ pc, if f pc then 1%nat else 0%nat) 0 l i x y H).
Qed.

Lemma sum_from_shift {X : Type} (f : X → nat) (l : list X) (a b : nat) :
  sum_from (λ _ x, f x) a l = sum_from (λ _ x, f x) b l.
Proof.
  revert a b. induction l as [|y l IH]; intros a b; simpl; [done|].
  by rewrite (IH (S a) (S b)).
Qed.

Lemma count_pc_cons (f : barrier_pc → bool) (x : barrier_pc)
  (l : list barrier_pc) :
  count_pc f (x :: l) = ((if f x then 1 else 0) + count_pc f l)%nat.
Proof.
  unfold count_pc. simpl. f_equal.
  apply (sum_from_shift (λ pc, if f pc then 1%nat else 0%nat)).
Qed.

Lemma count_pc_le (f : barrier_pc → bool) (l : list barrier_pc) :
  (count_pc f l ≤ length l)%nat.
Proof.
  induction l as [|x l IH]; [done|]. rewrite count_pc_cons. simpl.
  destruct (f x); lia.
Qed.

Lemma count_pc_all (f : barrier_pc → bool) (l : list barrier_pc) :
  count_pc f l = length l → Forall (λ pc, f pc = true) l.
Proof.
  induction l as [|x l IH]; intros H; [constructor|].
  rewrite count_pc_cons in H. simpl in H.
  pose proof (count_pc_le f l) as Hle.
  destruct (f x) eqn:Hx; [|lia].
  constructor; [done|]. apply IH. lia.
Qed.

Lemma count_pc_none (f : barrier_pc → bool) (l : list barrier_pc) :
  Forall (λ pc, f pc = false) l → count_pc f l = 0%nat.
Proof.
  induction 1 as [|x l Hx _ IH]; [done|].
  by rewrite count_pc_cons, Hx, IH.
Qed.

Lemma uint_wrap_small (z : Z) : 0 ≤ z ≤ UINT_MAX → uint_wrap z = z.
Proof. intros Hz. unfold uint_wrap. apply Z.mod_small. lia. Qed.

Lemma uint_wrap_succ_ne (g : Z) : 0 ≤ g ≤ UINT_MAX → uint_wrap (g + 1) ≠ g.
Proof.
  intros Hg. unfold uint_wrap, UINT_MAX in *.
  destruct (decide (g = 4294967295)) as [->|Hne]; [done|].
  rewrite Z.mod_small; lia.
Qed.

Lemma count_arrived_call (l : list barrier_pc) :
  (count_pc arrived l < length l)%nat → ∃ i, l !! i = Some BwCall.
Proof.
  induction l as [|x l IH]; intros H; [simpl in H; lia|].
  rewrite count_pc_cons in H. simpl in H.
  destruct x; try (by exists 0%nat); simpl in H;
    (destruct IH as [i Hi]; [lia|]; by exists (S i)).
Qed.

Lemma barrier_step_inv (n : nat) (g0 : Z) (i : nat) (σ σ' : barrier_sys) :
  Z.of_nat n ≤ UINT_MAX → 0 ≤ g0 ≤ UINT_MAX →
  barrier_inv n g0 σ → barrier_step i σ = Some σ' →
  barrier_inv n g0 σ'.
Proof.
  intros Hn Hg (Hlen & Hcnt & Hk) Hstep. unfold barrier_step in Hstep.
  destruct (bar_threads σ !! i) as [pc|] eqn:Hi; [|done].
  destruct (barrier_wait pc (bar σ)) as [[pc' b']|] eqn:Hw; [|done].
  injection Hstep as <-. unfold barrier_inv. cbn [bar bar_threads].
  rewrite length_insert.
  pose proof (count_pc_insert arrived _ i pc pc' Hi) as Harr.
  pose proof (count_pc_insert serial _ i pc pc' Hi) as Hser.
  pose proof (count_pc_le arrived (bar_threads σ)) as Hle.
  cbv zeta in Hk.
  destruct pc as [|gen|r]; simpl in Hw.
  - (* arrival *)
    destruct (decide (count_pc arrived (bar_threads σ) < n)%nat) as [Hlt|Hge].
    2:{ destruct Hk as (_ & _ & _ & Hall).
        rewrite Forall_lookup in Hall. by destruct (Hall i _ Hi) as [?|[?|?]]. }
    destruct Hk as (Hwt & Hgen & Hall).
    rewrite Hwt, uint_wrap_small in Hw by lia. rewrite Hcnt in Hw.
    destruct (Z.eqb_spec (Z.of_nat (count_pc arrived (bar_threads σ)) + 1)
                (Z.of_nat n)) as [Heq|Hneq]; injection Hw as <- <-;
      simpl in Harr, Hser; cbn [bar_count bar_waiting bar_generation].
    + split_and!; [done|done|].
      destruct (decide (count_pc arrived (<[i:=BwReturn 1]> (bar_threads σ)) < n)%nat)
        as [?|_]; [lia|].
      split_and!; [done|by rewrite Hgen| |].
      * rewrite (count_pc_none serial (bar_threads σ)) in Hser; [lia|].
        eapply Forall_impl; [exact Hall|]. by intros ? [->| ->].
      * assert (Hfull : Forall (λ pc, arrived pc = true)
                          (<[i:=BwReturn 1]> (bar_threads σ))).
        { apply count_pc_all. rewrite length_insert. lia. }
        apply Forall_lookup. intros j pc Hj.
        destruct (decide (j = i)) as [->|Hne].
        -- rewrite list_lookup_insert_eq in Hj by (by eapply lookup_lt_Some).
           injection Hj as <-. auto.
        -- rewrite Forall_lookup in Hfull. specialize (Hfull j pc Hj).
           rewrite list_lookup_insert_ne in Hj by done.
           rewrite Forall_lookup in Hall.
           destruct (Hall j pc Hj) as [->| ->]; [done|by left].
    + split_and!; [done|done|].
      destruct (decide (count_pc arrived (<[i:=BwWait (bar_generation (bar σ))]>
                                            (bar_threads σ)) < n)%nat)
        as [_|?]; [|lia].
      split_and!; [lia|done|].
      apply Forall_insert; [done|]. right. by rewrite Hgen.
  - (* a waiter wakes *)
    destruct (Z.eqb_spec gen (bar_generation (bar σ))) as [?|Hne]; [done|].
    injection Hw as <- <-. simpl in Harr, Hser.
    destruct (decide (count_pc arrived (bar_threads σ) < n)%nat) as [Hlt|Hge].
    { destruct Hk as (_ & Hgen & Hall). rewrite Forall_lookup in Hall.
      destruct (Hall i _ Hi) as [?|[= ->]]; [done|]. congruence. }
    destruct Hk as (Hwt & Hgen & Hone & Hall).
    split_and!; [done|done|].
    destruct (decide (count_pc arrived (<[i:=BwReturn 0]> (bar_threads σ)) < n)%nat)
      as [?|_]; [lia|].
    split_and!; [done|done|lia|].
    apply Forall_insert; [done|]. right. by left.
  - done.
Qed.

Lemma barrier_progress (n : nat) (g0 : Z) (σ : barrier_sys) :
  Z.of_nat n ≤ UINT_MAX → 0 ≤ g0 ≤ UINT_MAX →
  barrier_inv n g0 σ →
  (∃ i pc, bar_threads σ !! i = Some pc ∧ returned pc = false) →
  ∃ i σ', barrier_step i σ = Some σ'.
Proof.
  intros Hn Hg (Hlen & Hcnt & Hk) (j & pcj & Hj & Hnr). cbv zeta in Hk.
  destruct (decide (count_pc arrived (bar_threads σ) < n)%nat) as [Hlt|Hge].
  - destruct (count_arrived_call (bar_threads σ) ltac:(lia)) as [i Hi].
    exists i. unfold barrier_step. rewrite Hi. simpl.
    destruct (_ =? _); by eexists.
  - destruct Hk as (_ & Hgen & _ & Hall). rewrite Forall_lookup in Hall.
    destruct (Hall j pcj Hj) as [->|[->| ->]]; [|done|done].
    exists j. unfold barrier_step. rewrite Hj. simpl. rewrite Hgen.
    destruct (Z.eqb_spec g0 (uint_wrap (g0 + 1))) as [E|_]; [|by eexists].
    symmetry in E. by apply uint_wrap_succ_ne in E.
Qed.

(** X25 -- The barrier holds everybody back until the last thread is in.  For a
    barrier of [n] threads, each calling [barrier_wait] once, in any
    interleaving: no thread has returned while another has not arrived yet;
    at most one thread returns 1; and when no thread can move any more,
    every thread has returned, exactly one of them with 1, and the barrier
    is ready for the next round, one generation on. *)
Theorem barrier_releases_together (n : nat) (b0 : barrier_t)
  (sched : list nat) (σ : barrier_sys) :
  Z.of_nat n ≤ UINT_MAX →
  barrier_init (Z.of_nat n) true = Some b0 →
  barrier_run sched (mk_barrier_sys b0 (replicate n BwCall)) = Some σ →
  ((∃ i r, bar_threads σ !! i = Some (BwReturn r)) →
   Forall (λ pc, pc ≠ BwCall) (bar_threads σ))
  ∧ (count_pc serial (bar_threads σ) ≤ 1)%nat
  ∧ ((∀ i, barrier_step i σ = None) →
     Forall (λ pc, returned pc = true) (bar_threads σ)
     ∧ count_pc serial (bar_threads σ) = 1%nat
     ∧ bar σ = mk_barrier (Z.of_nat n) 0 1).
Proof.
  intros Hn Hinit Hrun.
  assert (Hn0 : n ≠ 0%nat).
  { intros ->. by vm_compute in Hinit. }
  assert (Hb0 : b0 = mk_barrier (Z.of_nat n) 0 0).
  { unfold barrier_init in Hinit.
    destruct (Z.eqb_spec (Z.of_nat n) 0); [lia|]. simpl in Hinit. congruence. }
  subst b0.
  assert (Hg : 0 ≤ 0 ≤ UINT_MAX) by (unfold UINT_MAX; lia).
  assert (Hinv : barrier_inv n 0 σ).
  { assert (H0 : barrier_inv n 0
                   (mk_barrier_sys (mk_barrier (Z.of_nat n) 0 0)
                      (replicate n BwCall))).
    { unfold barrier_inv. cbn [bar bar_threads bar_count bar_waiting
                                bar_generation].
      rewrite length_replicate. split_and!; [done|done|].
      rewrite (count_pc_none arrived) by (by apply Forall_replicate).
      destruct (decide (0 < n)%nat); [|lia].
      split_and!; [done|done|]. apply Forall_replicate. by left. }
    revert Hrun H0. generalize (mk_barrier_sys (mk_barrier (Z.of_nat n) 0 0)
                                  (replicate n BwCall)).
    induction sched as [|i sched IH]; intros σ0 Hrun H0.
    { by injection Hrun as <-. }
    simpl in Hrun. destruct (barrier_step i σ0) as [σ1|] eqn:Hs; [|done].
    apply (IH σ1 Hrun). by eapply barrier_step_inv. }
  pose proof Hinv as (Hlen & Hcnt & Hk). cbv zeta in Hk.
  split_and!.
  - intros (i & r & Hi).
    destruct (decide (count_pc arrived (bar_threads σ) < n)%nat) as [Hlt|Hge].
    + destruct Hk as (_ & _ & Hall). rewrite Forall_lookup in Hall.
      by destruct (Hall i _ Hi) as [?|?].
    + destruct Hk as (_ & _ & _ & Hall).
      eapply Forall_impl; [exact Hall|]. by intros ? [->|[->| ->]].
  - destruct (decide (count_pc arrived (bar_threads σ) < n)%nat) as [Hlt|Hge].
    + destruct Hk as (_ & _ & Hall).
      rewrite (count_pc_none serial); [lia|].
      eapply Forall_impl; [exact Hall|]. by intros ? [->| ->].
    + destruct Hk as (_ & _ & -> & _). lia.
  - intros Hstuck.
    assert (Hret : Forall (λ pc, returned pc = true) (bar_threads σ)).
    { apply Forall_lookup. intros j pc Hj.
      destruct (returned pc) eqn:Hr; [done|].
      destruct (barrier_progress n 0 σ Hn Hg Hinv) as (i & σ' & Hs);
        [by eexists _, _|]. by rewrite Hstuck in Hs. }
    destruct (decide (count_pc arrived (bar_threads σ) < n)%nat) as [Hlt|Hge].
    + destruct (count_arrived_call (bar_threads σ) ltac:(lia)) as [i Hi].
      rewrite Forall_lookup in Hret. by specialize (Hret i _ Hi).
    + destruct Hk as (Hw & Hgen & Hone & _).
      split_and!; [done|done|].
      destruct (bar σ) as [c w g]. simpl in *. by subst.
Qed.

Lemma barrier_releases_together_witness :
  Z.of_nat 3 ≤ UINT_MAX
  ∧ barrier_init (Z.of_nat 3) true = Some (mk_barrier 3 0 0)
  ∧ ∃ σ, barrier_run [1; 0; 2; 1; 0]%nat
           (mk_barrier_sys (mk_barrier 3 0 0) (replicate 3 BwCall)) = Some σ
         ∧ bar_threads σ = [BwReturn 0; BwReturn 0; BwReturn 1]
         ∧ (count_pc serial (bar_threads σ) ≤ 1)%nat.
Proof.
  assert (H1 : Z.of_nat 3 ≤ UINT_MAX) by (unfold UINT_MAX; lia).
  split; [exact H1|]. split; [reflexivity|].
  eexists. split; [reflexivity|]. split; [reflexivity|].
  exact (proj1 (proj2 (barrier_releases_together 3 (mk_barrier 3 0 0)
                         [1; 0; 2; 1; 0]%nat _ H1 eq_refl eq_refl))).
Defined.

(** * Instances *)

(** The representation invariant on a concrete queue of two slots. *)
Ltac small_queue_wf :=
  split; simpl; unfold SIZE_MAX; try lia; try done;
  let k := fresh "k" in let Hk := fresh "Hk" in
  intros [|[|k]] Hk; simpl in Hk; first [lia | by eexists].

Lemma transforms_keep_one_line_witness :
  upper_so ∈ [upper_so; lower_so; reverse_so; trim_so; prefix_so; suffix_so]
  ∧ (NUL = NUL ∨ NUL = NEWLINE)
  ∧ plugin_transform upper_so all_ok (list_ascii_of_string "ab")
    = Some (list_ascii_of_string "AB")
  ∧ (NUL ∉ list_ascii_of_string "ab")
  ∧ (NUL ∉ list_ascii_of_string "AB").
Proof.
  assert (H1 : upper_so ∈ [upper_so; lower_so; reverse_so; trim_so;
                           prefix_so; suffix_so]) by (by left).
  assert (H2 : NUL = NUL ∨ NUL = NEWLINE) by (by left).
  assert (H3 : plugin_transform upper_so all_ok (list_ascii_of_string "ab")
               = Some (list_ascii_of_string "AB")) by reflexivity.
  assert (H4 : NUL ∉ list_ascii_of_string "ab")
    by (refine (bool_decide_unpack _ _); by vm_compute).
  split; [exact H1|]. split; [exact H2|]. split; [exact H3|].
  split; [exact H4|].
  exact (transforms_keep_one_line upper_so all_ok _ _ NUL H1 H2 H3 H4).
Defined.

Lemma short_line_ab : short_line (list_ascii_of_string "ab").
Proof.
  split_and!.
  - refine (bool_decide_unpack _ _). by vm_compute.
  - refine (bool_decide_unpack _ _). by vm_compute.
  - unfold MAX_LINE_LENGTH. simpl. lia.
  - discriminate.
Qed.

Lemma reader_reads_session_witness :
  let lines := [list_ascii_of_string "ab"; list_ascii_of_string "ab"] in
  Forall short_line lines
  ∧ input_thread_calls (feed lines (list_ascii_of_string "ignored"))
    = (CallPush <$> lines) ++ [CallShutdown].
Proof.
  intros lines.
  assert (H : Forall short_line lines).
  { repeat (apply Forall_cons; split; [exact short_line_ab|]). constructor. }
  split; [exact H|].
  exact (proj1 (reader_reads_session lines (list_ascii_of_string "ignored")
                  [] H)).
Defined.

Lemma reader_cuts_at_nul_witness :
  let a := END_MARK in
  let b := list_ascii_of_string "tail" in
  (NUL ∉ a) ∧ (NEWLINE ∉ a) ∧ (NEWLINE ∉ b)
  ∧ (length (a ++ NUL :: b) < MAX_LINE_LENGTH - 1)%nat
  ∧ input_thread_calls (a ++ NUL :: b ++ NEWLINE :: list_ascii_of_string "x")
    = [CallShutdown].
Proof.
  intros a b.
  assert (H1 : NUL ∉ a) by (refine (bool_decide_unpack _ _); by vm_compute).
  assert (H2 : NEWLINE ∉ a) by (refine (bool_decide_unpack _ _); by vm_compute).
  assert (H3 : NEWLINE ∉ b) by (refine (bool_decide_unpack _ _); by vm_compute).
  assert (H4 : (length (a ++ NUL :: b) < MAX_LINE_LENGTH - 1)%nat)
    by (unfold MAX_LINE_LENGTH; simpl; lia).
  split; [exact H1|]. split; [exact H2|]. split; [exact H3|].
  split; [exact H4|].
  exact (reader_cuts_at_nul a b (list_ascii_of_string "x") H1 H2 H3 H4).
Defined.

Lemma small_state_wf (q0 q1 : queue_t cstring) (w : worker) (pc : main_pc) :
  queue_wf q0 → queue_wf q1 →
  well_formed [upper_so] (small_state q0 q1 w pc).
Proof.
  intros H0 H1. split_and!; [done|done|].
  intros [|[|k]] q Hq; simpl in Hq; [by injection Hq as <-..|done].
Qed.

Lemma writer_drains_closed_queue_witness :
  let q0 := mk_queue [None; None] 2 0 0 0 true in
  let q1 := mk_queue [Some (list_ascii_of_string "AB"); None] 2 1 0 1 true in
  let s := small_state q0 q1 (mk_worker WReturn false) MJoinOutput in
  well_formed [upper_so] s ∧ (∀ c, main s ≠ MReturn c) ∧ writer s = OPop
  ∧ queues s !! length [upper_so] = Some q1 ∧ shutdown q1 = true
  ∧ ∃ s',
      run_ok [upper_so] (replicate 2 Writer) s = Some s'
      ∧ stdout s' = [Some (list_ascii_of_string "AB")]
      ∧ writer s' = OReturn.
Proof.
  intros q0 q1 s.
  assert (Hwf : well_formed [upper_so] s).
  { apply small_state_wf; small_queue_wf. }
  assert (Hm : ∀ c, main s ≠ MReturn c) by done.
  split; [exact Hwf|]. split; [exact Hm|]. split; [reflexivity|].
  split; [reflexivity|]. split; [reflexivity|].
  destruct (writer_drains_closed_queue [upper_so] s q1 Hwf Hm eq_refl eq_refl
              eq_refl) as (s' & q' & H1 & H2 & H3 & _).
  exists s'. split; [exact H1|]. split; [exact H2|exact H3].
Defined.

Lemma plugin_destroy_joins_witness :
  let q0 := mk_queue [Some (list_ascii_of_string "ab"); None] 2 1 0 1 false in
  let q1 := mk_queue [None; None] 2 0 0 0 false in
  let w := mk_worker WPop false in
  let s := small_state q0 q1 w (MDestroy 0) in
  well_formed [upper_so] s ∧ main s = MDestroy 0
  ∧ workers s !! 0%nat = Some w ∧ queues s !! 1%nat = Some q1
  ∧ ¬ ((∃ t, w_pc w = WPush t) ∧ queue_is_full q1 = true)
  ∧ ∃ n s',
      (n ≤ 3)%nat
      ∧ run [upper_so] ((Main, all_ok) :: (Main, all_ok)
                        :: replicate n (Worker 0, all_ok) ++ [(Main, all_ok)]) s
        = Some s'
      ∧ main s' = MDestroy 1.
Proof.
  intros q0 q1 w s.
  assert (Hwf : well_formed [upper_so] s).
  { apply small_state_wf; small_queue_wf. }
  assert (Hnp : ¬ ((∃ t, w_pc w = WPush t) ∧ queue_is_full q1 = true)).
  { intros [[t Ht] _]. discriminate Ht. }
  split; [exact Hwf|]. split; [reflexivity|]. split; [reflexivity|].
  split; [reflexivity|]. split; [exact Hnp|].
  destruct (plugin_destroy_joins [upper_so] all_ok s 0 w q1 Hwf eq_refl
              eq_refl eq_refl Hnp) as (n & s' & H1 & H2 & H3 & _).
  exists n, s'. split; [exact H1|]. split; [exact H2|exact H3].
Defined.

Lemma plugin_destroy_leaves_pusher_parked_witness :
  let q0 := mk_queue [None; None] 2 0 0 0 false in
  let q1 := mk_queue [Some (list_ascii_of_string "A");
                      Some (list_ascii_of_string "B")] 2 2 0 0 false in
  let w := mk_worker (WPush (list_ascii_of_string "C")) false in
  let s := small_state q0 q1 w (MDestroy 0) in
  well_formed [upper_so] s ∧ main s = MDestroy 0
  ∧ workers s !! 0%nat = Some w
  ∧ w_pc w = WPush (list_ascii_of_string "C")
  ∧ queues s !! 1%nat = Some q1 ∧ queue_is_full q1 = true
  ∧ ∃ s2,
      run [upper_so] [(Main, all_ok); (Main, all_ok)] s = Some s2
      ∧ step [upper_so] all_ok (Worker 0) s2 = None
      ∧ step [upper_so] all_ok Main s2 = None.
Proof.
  intros q0 q1 w s.
  assert (Hwf : well_formed [upper_so] s).
  { apply small_state_wf; small_queue_wf. }
  split; [exact Hwf|]. split; [reflexivity|]. split; [reflexivity|].
  split; [reflexivity|]. split; [reflexivity|]. split; [reflexivity|].
  destruct (plugin_destroy_leaves_pusher_parked [upper_so] all_ok s 0 w
              (list_ascii_of_string "C") q1 Hwf eq_refl eq_refl eq_refl
              eq_refl eq_refl) as (s2 & H1 & _ & _ & _ & _ & H2 & H3).
  exists s2. split; [exact H1|]. split; [exact (H2 all_ok)|exact (H3 all_ok)].
Defined.

Lemma worker_maps_its_queue_witness :
  let qin := mk_queue [Some (list_ascii_of_string "ab"); None] 2 1 0 1 true in
  let qout := mk_queue [None; None] 2 0 0 0 false in
  queue_wf qin ∧ queue_wf qout ∧ shutdown qin = true
  ∧ contents qin = Some <$> [list_ascii_of_string "ab"]
  ∧ shutdown qout = false
  ∧ size qout + Z.of_nat (length [list_ascii_of_string "ab"]) ≤ capacity qout
  ∧ ∃ n w' qin' qout',
      worker_alone n upper_so all_ok (mk_worker WLoop false) qin qout
      = Some (w', qin', qout')
      ∧ contents qout' = [Some (list_ascii_of_string "AB")]
      ∧ shutdown qout' = true.
Proof.
  intros qin qout.
  assert (H1 : queue_wf qin) by small_queue_wf.
  assert (H2 : queue_wf qout) by small_queue_wf.
  assert (H6 : size qout + Z.of_nat (length [list_ascii_of_string "ab"])
               ≤ capacity qout) by (simpl; lia).
  split; [exact H1|]. split; [exact H2|]. split; [reflexivity|].
  split; [reflexivity|]. split; [reflexivity|]. split; [exact H6|].
  destruct (worker_maps_its_queue upper_so [list_ascii_of_string "ab"]
              qin qout H1 H2 eq_refl eq_refl eq_refl H6)
    as (n & w' & qin' & qout' & E & _ & _ & Hc & Hs).
  exists n, w', qin', qout'. split; [exact E|]. split; [exact Hc|exact Hs].
Defined.

Lemma main_backup_always_exits_witness :
  let input := list_ascii_of_string "hello" ++ [NEWLINE] in
  let sched := (λ t, (t, all_ok)) <$>
                 (replicate 3 Reader ++ replicate 5 (Worker 0) ++ [Writer]) in
  [test_upper_so] ≠ []
  ∧ ∃ b, backup_run [test_upper_so] sched (backup_start [test_upper_so] input)
         = Some b
         ∧ ∃ sched' b',
             backup_run [test_upper_so] ((λ t, (t, all_ok)) <$> sched') b
             = Some b'
             ∧ b_pc b' = BReturn 0.
Proof.
  intros input sched.
  assert (H1 : [test_upper_so] ≠ []) by done.
  split; [exact H1|].
  eexists. split; [vm_compute; reflexivity|].
  exact (proj2 (proj2 (main_backup_always_exits [test_upper_so] input sched _
                         H1 ltac:(vm_compute; reflexivity)))).
Defined.

Lemma short_line_hello : short_line (list_ascii_of_string "hello").
Proof.
  split_and!.
  - refine (bool_decide_unpack _ _). by vm_compute.
  - refine (bool_decide_unpack _ _). by vm_compute.
  - unfold MAX_LINE_LENGTH. simpl. lia.
  - discriminate.
Qed.

Lemma main_backup_can_drop_a_line_witness :
  short_line (list_ascii_of_string "hello")
  ∧ chain [upper_so] (list_ascii_of_string "hello")
    = Some (list_ascii_of_string "HELLO")
  ∧ ∃ sched b,
      backup_run [upper_so] ((λ t, (t, all_ok)) <$> sched)
        (backup_start [upper_so] (feed [list_ascii_of_string "hello"] []))
      = Some b
      ∧ b_pc b = BReturn 0
      ∧ stdout (b_proc b) = [Some (banner upper_so)].
Proof.
  split; [exact short_line_hello|]. split; [reflexivity|].
  destruct (main_backup_can_drop_a_line upper_so (list_ascii_of_string "hello")
              [] short_line_hello) as (sched & b & H1 & H2 & H3 & _).
  exists sched, b. split; [exact H1|]. split; [exact H2|exact H3].
Defined.
